(** * Catalog storage-and-mutation engine

    A shallow embedding of the product loader ([ProductLoader]), the query
    service ([ProductService]) and the batch field editor ([FieldManager]),
    together with the properties that the written specification states
    about them.

    Conventions of the embedding.
    - A JavaScript string is a [string]; one character stands for one code
      unit, and [<] on strings is the code-unit lexicographic order.
    - A JavaScript number is a [number]: an integer, an infinity or NaN.
      Fractions are not represented; no property below depends on them.
    - [async] functions are embedded by their result; where the interleaving
      of calls matters (the loader) the event loop is a step function over
      an explicit state.
    - Exceptions are embedded as a constructor of the result type.
    - A JSON file is embedded by the value it holds, an object by its own
      properties in insertion order; the layout of the text is not
      represented. Property names that are array indices, which the
      language orders first, and a property named [hasOwnProperty],
      which hides the method of that name, are outside the embedding of
      the field editor. *)

From stdpp Require Import gmap strings list sorting.
From Stdlib Require Import ZArith Ascii.

Local Open Scope string_scope.
Local Open Scope list_scope.
Local Open Scope Z_scope.

(** ** Numbers *)

Inductive number :=
  | Fin (z : Z)
  | PosInf
  | NegInf
  | NaN.

(** ** Products ([types/database.ts]) *)

Module Product.
Record t := mk {
  id : string;
  name : string;
  nameEn : option string;        (* [nameEn?: string | null] *)
  series : string;
  rarityLevel : string;
  currentPrice : Z;
  originalPrice : Z;
  mainColor : string;
  imageUrl : string;
  releaseStatus : string;
  releaseDate : string;
  appearanceRate : option string;
  createdAt : string;
  updatedAt : string
}.
End Product.

(** ** Results of code that may throw *)

Inductive completion (A : Type) :=
  | Returns (a : A)
  | Throws (message : string).
Arguments Returns {A} a.
Arguments Throws {A} message.

(** ** Objects used as counters *)

(** The names that every object inherits from [Object.prototype]. Reading
    one of them on an object that has no property of its own by that name
    gives the inherited value, a function or, for [__proto__], the
    prototype itself. *)
Definition ofObjectPrototype (k : string) : bool :=
  existsb (String.eqb k)
    [ "constructor"; "__proto__"; "hasOwnProperty"; "isPrototypeOf";
      "propertyIsEnumerable"; "toLocaleString"; "toString"; "valueOf";
      "__defineGetter__"; "__defineSetter__"; "__lookupGetter__";
      "__lookupSetter__" ].

(** What a counter holds under a name: a number, or the text that [+ 1]
    makes of a value that is no number. *)
Inductive tally :=
  | Count (n : Z)
  | Text.

(** [o[k] = (o[k] || 0) + 1] on an object literal used as a map from
    names to counts. A count is added to; text stays text; a name that
    is missing starts at 1 unless it is inherited, where [+ 1] appends to
    the text of the inherited value; assigning text to [__proto__] has
    no effect. *)
Definition bump (k : string) (o : gmap string tally) : gmap string tally :=
  match o !! k with
  | Some (Count n) => <[k := Count (n + 1)]> o
  | Some Text => <[k := Text]> o
  | None =>
      if String.eqb k "__proto__" then o
      else if ofObjectPrototype k then <[k := Text]> o
      else <[k := Count 1]> o
  end.

(** ** The order of the properties of an object *)

(** Whether a property name is an array index, and which: the decimal
    notation, without a leading zero, of an integer below [2^32 - 1]. *)
Definition digitOf (c : ascii) : option N :=
  let n := N_of_ascii c in
  if ((48 <=? n) && (n <=? 57))%N then Some (n - 48)%N else None.

Fixpoint digitsValue (acc : N) (s : string) : option N :=
  match s with
  | EmptyString => Some acc
  | String c s' =>
      match digitOf c with
      | Some d => digitsValue (10 * acc + d)%N s'
      | None => None
      end
  end.

Definition arrayIndex (k : string) : option N :=
  match k with
  | EmptyString => None
  | String c EmptyString => digitOf c
  | String c _ =>
      if Ascii.eqb c "0" then None
      else
        match digitsValue 0 k with
        | Some n => if (n <? 4294967295)%N then Some n else None
        | None => None
        end
  end.

(** [o[k] = v] for a name [k] the object does not have, on an object
    embedded by its properties in the order the language lists them:
    array indices first, in ascending order, then the other names in the
    order they were created. *)
Fixpoint defineIndex {V} (n : N) (k : string) (v : V)
    (o : list (string * V)) : list (string * V) :=
  match o with
  | [] => [(k, v)]
  | (k', w) :: o' =>
      match arrayIndex k' with
      | Some n' =>
          if (n' <? n)%N then (k', w) :: defineIndex n k v o'
          else (k, v) :: o
      | None => (k, v) :: o
      end
  end.

Definition define {V} (k : string) (v : V) (o : list (string * V))
    : list (string * V) :=
  match arrayIndex k with
  | Some n => defineIndex n k v o
  | None => o ++ [(k, v)]
  end.

(** * ProductLoader *)

Module ProductLoader.

(** One entry of [_index.json]. *)
Record SeriesInfo := { key : string; fileName : string }.

Record Index := { series : list SeriesInfo; totalSeries : Z }.

(** The files under [@/data/products], which do not change while the
    loader runs. [indexFile = None] stands for an index whose import
    rejects; a file name absent from [seriesFiles] stands for a series
    file whose import rejects (missing or malformed); a file name present
    holds an array of products. *)
Record Store := {
  indexFile : option Index;
  seriesFiles : gmap string (list Product.t)
}.

(** What a promise of [Product[]] settles to. *)
Inductive settled :=
  | Fulfilled (products : list Product.t)
  | Rejected (message : string).

(** The callback of [index.series.map]: the imported array, or, when
    the import throws, a warning naming the series and the empty array. *)
Definition loadSeries (s : Store) (info : SeriesInfo)
  : list string * list Product.t :=
  match seriesFiles s !! fileName info with
  | Some products => ([], products)
  | None => ([key info], [])
  end.

(** [performLoad]: the warnings written to the console and the value the
    returned promise settles to. *)
Definition performLoad (s : Store) : list string * settled :=
  match indexFile s with
  | Some index =>
      let seriesResults := loadSeries s <$> series index in
      let allProducts := mjoin (snd <$> seriesResults) in
      (mjoin (fst <$> seriesResults), Fulfilled allProducts)
  | None => ([], Rejected "無法加載產品數據")
  end.

(** The dynamic imports one run of [performLoad] issues. *)
Definition importsOf (s : Store) : list string :=
  match indexFile s with
  | Some index => "_index.json" :: (fileName <$> series index)
  | None => ["_index.json"]
  end.

(** *** The loader as a state machine

    [allProducts] and [loadPromise] are the two static fields. Promises
    created by [performLoad] are numbered in creation order. Each call of
    [loadAllProducts] is a caller, numbered in call order. *)

Inductive promise :=
  | Pending
  | Settled (r : settled).

Inductive caller :=
  | Returned (r : settled)      (* the call's own promise has settled *)
  | AwaitingOwn (p : nat)       (* suspended at [await this.loadPromise] *)
  | Forwarding (p : nat).       (* executed [return this.loadPromise] *)

Record state := {
  allProducts : option (list Product.t);
  loadPromise : option nat;
  promises : list promise;
  callers : list caller;
  imports : list string
}.

Definition initial : state :=
  {| allProducts := None; loadPromise := None; promises := [];
     callers := []; imports := [] |}.

(** The synchronous part of a call of [loadAllProducts], up to its first
    suspension or return. *)
Definition loadAllProducts (s : Store) (st : state) : state :=
  match allProducts st with
  | Some v =>
      {| allProducts := allProducts st; loadPromise := loadPromise st;
         promises := promises st;
         callers := callers st ++ [Returned (Fulfilled v)];
         imports := imports st |}
  | None =>
      match loadPromise st with
      | Some p =>
          {| allProducts := allProducts st; loadPromise := loadPromise st;
             promises := promises st;
             callers := callers st ++ [Forwarding p];
             imports := imports st |}
      | None =>
          let p := List.length (promises st) in
          {| allProducts := None; loadPromise := Some p;
             promises := promises st ++ [Pending];
             callers := callers st ++ [AwaitingOwn p];
             imports := imports st ++ importsOf s |}
      end
  end.

(** A pending [performLoad] finishes. *)
Definition settle (s : Store) (p : nat) (st : state) : state :=
  match promises st !! p with
  | Some Pending =>
      {| allProducts := allProducts st; loadPromise := loadPromise st;
         promises := <[p := Settled (snd (performLoad s))]> (promises st);
         callers := callers st; imports := imports st |}
  | _ => st
  end.

(** Caller [c] continues after the promise it waits for has settled. The
    first caller runs the rest of its [try] / [finally]; a caller that
    returned the shared promise settles with it. *)
Definition resume (c : nat) (st : state) : state :=
  match callers st !! c with
  | Some (AwaitingOwn p) =>
      match promises st !! p with
      | Some (Settled (Fulfilled v)) =>
          {| allProducts := Some v; loadPromise := None;
             promises := promises st;
             callers := <[c := Returned (Fulfilled v)]> (callers st);
             imports := imports st |}
      | Some (Settled (Rejected m)) =>
          {| allProducts := allProducts st; loadPromise := None;
             promises := promises st;
             callers := <[c := Returned (Rejected m)]> (callers st);
             imports := imports st |}
      | _ => st
      end
  | Some (Forwarding p) =>
      match promises st !! p with
      | Some (Settled r) =>
          {| allProducts := allProducts st; loadPromise := loadPromise st;
             promises := promises st;
             callers := <[c := Returned r]> (callers st);
             imports := imports st |}
      | _ => st
      end
  | _ => st
  end.

Definition resetCache (st : state) : state :=
  {| allProducts := None; loadPromise := None;
     promises := promises st; callers := callers st;
     imports := imports st |}.

Inductive event :=
  | Call
  | Settle (p : nat)
  | Resume (c : nat)
  | ResetCache.

Definition step (s : Store) (st : state) (e : event) : state :=
  match e with
  | Call => loadAllProducts s st
  | Settle p => settle s p st
  | Resume c => resume c st
  | ResetCache => resetCache st
  end.

Definition run (s : Store) (evs : list event) (st : state) : state :=
  foldl (step s) st evs.

End ProductLoader.

(** * ProductService *)

Module ProductService.

(** ** Number and string primitives *)

(** [a < b] on numbers; every comparison with NaN is false. *)
Definition num_lt (a b : number) : bool :=
  match a, b with
  | NaN, _ | _, NaN => false
  | Fin x, Fin y => x <? y
  | NegInf, NegInf => false
  | NegInf, _ => true
  | _, NegInf => false
  | PosInf, _ => false
  | Fin _, PosInf => true
  end.

(** [a <= b] on numbers. *)
Definition num_le (a b : number) : bool :=
  match a, b with
  | NaN, _ | _, NaN => false
  | Fin x, Fin y => x <=? y
  | NegInf, _ => true
  | _, NegInf => false
  | _, PosInf => true
  | PosInf, Fin _ => false
  end.

(** [Math.ceil(a / b)] for integers [a] and [b]. *)
Definition ceilDiv (a b : Z) : number :=
  if b =? 0 then
    if a =? 0 then NaN else if 0 <? a then PosInf else NegInf
  else Fin (- ((- a) / b)).

(** The white space that [String.prototype.trim] strips, among the code
    units a character can hold. *)
Definition isWhiteSpace (c : ascii) : bool :=
  let n := nat_of_ascii c in
  ((9 <=? n) && (n <=? 13) || (n =? 32) || (n =? 160))%nat.

(** Whether [s.trim()] is truthy, that is, not the empty string. *)
Fixpoint trimTruthy (s : string) : bool :=
  match s with
  | EmptyString => false
  | String c s' => negb (isWhiteSpace c) || trimTruthy s'
  end.

(** [s.includes(sub)] *)
Fixpoint includes (s sub : string) : bool :=
  String.prefix sub s ||
  match s with
  | EmptyString => false
  | String _ s' => includes s' sub
  end.

(** [l.includes(x)] on an array of strings *)
Definition arrayIncludes (l : list string) (x : string) : bool :=
  existsb (String.eqb x) l.

(** [Array.prototype.slice(start, end)] for integer arguments. *)
Definition slice {A} (start stop : Z) (l : list A) : list A :=
  let len := Z.of_nat (List.length l) in
  let k := if start <? 0 then Z.max (len + start) 0 else Z.min start len in
  let final := if stop <? 0 then Z.max (len + stop) 0 else Z.min stop len in
  take (Z.to_nat (final - k)) (drop (Z.to_nat k) l).

(** [Array.prototype.sort(compareFn)]. The language specifies a stable
    sort; it is embedded as stable insertion, which moves an element past
    another only when the comparator returns a positive number. Every
    stable sort gives this result when the comparator is a consistent
    order. When it is not (a key that is NaN, or an inherited value,
    compares equal to every number) the language leaves the order of the
    result to the engine; [sort] is then one rearrangement among those
    an engine may return, and what is proved about the order of its
    result holds of the code only where the keys are comparable
    ([QuerySpec.properKeys] for the queries). *)
Fixpoint insert {A} (compareFn : A → A → Z) (x : A) (l : list A) : list A :=
  match l with
  | [] => [x]
  | y :: l' => if 0 <? compareFn x y then y :: insert compareFn x l'
               else x :: l
  end.

Definition sort {A} (compareFn : A → A → Z) (l : list A) : list A :=
  foldr (insert compareFn) [] l.

(** ** The heap of arrays

    Arrays are mutable and shared by reference: [sort] writes into the
    array it is called on. A reference is an index into the heap. *)

Abbreviation ref := nat (only parsing).
Abbreviation heap := (list (list Product.t)) (only parsing).

Definition deref (r : ref) (h : heap) : list Product.t :=
  default [] (h !! r).

(** A fresh array holding [a]. *)
Definition alloc (a : list Product.t) (h : heap) : ref * heap :=
  (List.length h, h ++ [a]).

(** [r.sort(compareFn)], in place. *)
Definition sortInPlace (compareFn : Product.t → Product.t → Z)
    (r : ref) (h : heap) : heap :=
  <[r := sort compareFn (deref r h)]> h.

(** ** Requests and responses *)

Record ProductListRequest := {
  page : option Z;
  limit : option Z;
  search : option string;
  rarity : option (list string);
  series : option (list string);
  minPrice : option number;
  maxPrice : option number;
  sortBy : option string;
  sortOrder : option string
}.

(** [page'] is the field [page] of the response. *)
Record ProductListResponse := {
  products : list Product.t;
  total : Z;
  page' : Z;
  totalPages : number
}.

Record ProductDetailResponse := {
  product : Product.t;
  relatedProducts : list Product.t
}.

(** The comparator works on strings or on numbers, by sort key. Under
    the key [rarity] it may also meet [Inherited k], what the table
    [rarityOrder] gives under a name [k] that every object inherits: a
    built-in function or, for [__proto__], the prototype. *)
Inductive sortValue :=
  | NumKey (n : number)
  | StrKey (s : string)
  | Inherited (k : string).

(** The string an inherited value turns into when it is compared, as
    Node prints it. *)
Definition textOf (k : string) : string :=
  if String.eqb k "__proto__" then "[object Object]"
  else if String.eqb k "constructor" then
    "function Object() { [native code] }"
  else String.append "function " (String.append k "() { [native code] }").

(** [a < b]. Two numbers compare as numbers and two strings as strings.
    An inherited value compares as its text: with a number the text
    counts as NaN, so the comparison is false; with a string or another
    inherited value the two texts are compared. *)
Definition js_lt (a b : sortValue) : bool :=
  match a, b with
  | NumKey x, NumKey y => num_lt x y
  | StrKey x, StrKey y => String.ltb x y
  | Inherited x, Inherited y => String.ltb (textOf x) (textOf y)
  | Inherited x, StrKey y => String.ltb (textOf x) y
  | StrKey x, Inherited y => String.ltb x (textOf y)
  | _, _ => false
  end.

(** The table [rarityOrder]; [None] is [undefined]. *)
Definition rarityOrder (r : string) : option Z :=
  if String.eqb r "normal" then Some 1
  else if String.eqb r "rare" then Some 2
  else if String.eqb r "super_rare" then Some 3
  else if String.eqb r "hidden" then Some 4
  else if String.eqb r "sp" then Some 5
  else None.

Section Builtins.

(** [String.prototype.toLowerCase] and [new Date(s).getTime()] belong
    to the language run time, not to the repository. *)
Variable toLowerCase : string → string.
Variable Date_getTime : string → number.

(** The callback of the text search. *)
Definition matchesSearch (searchLower : string) (p : Product.t) : bool :=
  includes (toLowerCase (Product.name p)) searchLower ||
  match Product.nameEn p with
  | Some en =>
      negb (String.eqb en "") && includes (toLowerCase en) searchLower
  | None => false
  end.

(** The [switch (sortBy)] of the comparator. *)
Definition sortValueOf (sortBy : string) (p : Product.t) : sortValue :=
  if String.eqb sortBy "price" then NumKey (Fin (Product.currentPrice p))
  else if String.eqb sortBy "rarity" then
    (* [rarityOrder[p.rarityLevel] || 0] *)
    match rarityOrder (Product.rarityLevel p) with
    | Some n => NumKey (Fin n)
    | None =>
        if ofObjectPrototype (Product.rarityLevel p)
        then Inherited (Product.rarityLevel p)
        else NumKey (Fin 0)
    end
  else if String.eqb sortBy "release_date" then
    NumKey (Date_getTime (Product.releaseDate p))
  else StrKey (toLowerCase (Product.name p)).

Definition compareFn (sortBy sortOrder : string) (a b : Product.t) : Z :=
  let aValue := sortValueOf sortBy a in
  let bValue := sortValueOf sortBy b in
  if js_lt aValue bValue then
    if String.eqb sortOrder "asc" then -1 else 1
  else if js_lt bValue aValue then
    if String.eqb sortOrder "asc" then 1 else -1
  else 0.

(** [getProducts]; [productsData] is the module-level array. The
    simulated delay has no effect on the result and is left out. *)
Definition getProducts (productsData : ref) (params : ProductListRequest)
    (h : heap) : ProductListResponse * heap :=
  let page := default 1 (page params) in
  let limit := default 20 (limit params) in
  let search := default "" (search params) in
  let rarity := default [] (rarity params) in
  let series := default [] (series params) in
  let sortBy := default "name" (sortBy params) in
  let sortOrder := default "asc" (sortOrder params) in
  (* [...productsData] *)
  let '(filteredProducts, h) := alloc (deref productsData h) h in
  let '(filteredProducts, h) :=
    if trimTruthy search then
      let searchLower := toLowerCase search in
      alloc (List.filter (matchesSearch searchLower)
               (deref filteredProducts h)) h
    else (filteredProducts, h) in
  let '(filteredProducts, h) :=
    if 0 <? Z.of_nat (List.length rarity) then
      alloc (List.filter
               (λ product, arrayIncludes rarity (Product.rarityLevel product))
               (deref filteredProducts h)) h
    else (filteredProducts, h) in
  let '(filteredProducts, h) :=
    if 0 <? Z.of_nat (List.length series) then
      alloc (List.filter
               (λ product, arrayIncludes series (Product.series product))
               (deref filteredProducts h)) h
    else (filteredProducts, h) in
  let '(filteredProducts, h) :=
    match minPrice params with
    | Some minPrice =>
        alloc (List.filter
                 (λ product, num_le minPrice (Fin (Product.currentPrice product)))
                 (deref filteredProducts h)) h
    | None => (filteredProducts, h)
    end in
  let '(filteredProducts, h) :=
    match maxPrice params with
    | Some maxPrice =>
        alloc (List.filter
                 (λ product, num_le (Fin (Product.currentPrice product)) maxPrice)
                 (deref filteredProducts h)) h
    | None => (filteredProducts, h)
    end in
  let h := sortInPlace (compareFn sortBy sortOrder) filteredProducts h in
  let total := Z.of_nat (List.length (deref filteredProducts h)) in
  let totalPages := ceilDiv total limit in
  let offset := (page - 1) * limit in
  let '(paginatedProducts, h) :=
    alloc (slice offset (offset + limit) (deref filteredProducts h)) h in
  ({| products := deref paginatedProducts h; total := total;
      page' := page; totalPages := totalPages |}, h).

End Builtins.

(** [getProductById]: reads [productsData], never writes. *)
Definition getProductById (id : string) (productsData : list Product.t)
    : completion ProductDetailResponse :=
  match List.find (λ p, String.eqb (Product.id p) id) productsData with
  | None => Throws "找不到指定的產品"
  | Some product =>
      let relatedProducts :=
        take 4 (List.filter
                  (λ p, String.eqb (Product.series p) (Product.series product)
                        && negb (String.eqb (Product.id p) id))
                  productsData) in
      Returns {| product := product; relatedProducts := relatedProducts |}
  end.

(** ** The other read-only queries *)

(** [Array.from(new Set(l))]: the distinct elements, each where it first
    occurs. *)
Definition Array_from_Set (l : list string) : list string :=
  foldl (λ set x, if existsb (String.eqb x) set then set else set ++ [x]) [] l.

(** The comparison of [sort()] called without a comparator, on strings. *)
Definition defaultCompare (x y : string) : Z :=
  if String.ltb x y then -1 else if String.ltb y x then 1 else 0.

(** [getSeries] *)
Definition getSeries (productsData : list Product.t) : list string :=
  let uniqueSeries := Array_from_Set (Product.series <$> productsData) in
  sort defaultCompare uniqueSeries.

(** [Math.min(...l)] and [Math.max(...l)] on integers. *)
Definition Math_min (l : list Z) : number :=
  match l with
  | [] => PosInf
  | x :: l' => Fin (foldl Z.min x l')
  end.

Definition Math_max (l : list Z) : number :=
  match l with
  | [] => NegInf
  | x :: l' => Fin (foldl Z.max x l')
  end.

Record PriceRange := { min : number; max : number }.

(** [getPriceRange] *)
Definition getPriceRange (productsData : list Product.t) : PriceRange :=
  let prices := Product.currentPrice <$> productsData in
  if Z.of_nat (List.length prices) =? 0 then
    {| min := Fin 0; max := Fin 1000 |}
  else {| min := Math_min prices; max := Math_max prices |}.

Record Stats := {
  statsTotal : Z;                 (* the field [total] *)
  byRarity : gmap string tally;
  byStatus : gmap string tally
}.

(** [getStats] *)
Definition getStats (productsData : list Product.t) : Stats :=
  foldl
    (λ stats product,
       {| statsTotal := statsTotal stats;
          byRarity := bump (Product.rarityLevel product) (byRarity stats);
          byStatus := bump (Product.releaseStatus product) (byStatus stats) |})
    {| statsTotal := Z.of_nat (List.length productsData);
       byRarity := ∅; byStatus := ∅ |}
    productsData.

End ProductService.

(** * ProductLoader: the accessors

    [getSeriesStats] and [getAllSeries] await [loadAllProducts] and then
    compute from the collection it returns; they are embedded as
    functions of that collection. *)

Module LoaderAccessors.
Import ProductService.

Definition getSeriesStats (products : list Product.t)
    : gmap string tally :=
  foldl (λ stats product, bump (Product.series product) stats) ∅ products.

Definition getAllSeries (products : list Product.t) : list string :=
  let uniqueSeries := Array_from_Set (Product.series <$> products) in
  sort defaultCompare uniqueSeries.

End LoaderAccessors.

(** * The product detail route

    [GET] of [api/products/[id]]: the handler checks the id, calls
    [getProductById] and turns what it returns or throws into a response.
    The text of the [message] of a success is left out. *)

Module ProductRoute.
Import ProductService.

Record response := {
  status : Z;
  success : bool;
  error : option string;
  data : option ProductDetailResponse
}.

(** [NextResponse.json({success: false, error, data: null}, {status})] *)
Definition failure (status : Z) (error : string) : response :=
  {| status := status; success := false; error := Some error; data := None |}.

(** The class [[a-zA-Z0-9-_]]. *)
Definition idChar (c : ascii) : bool :=
  let n := nat_of_ascii c in
  ((97 <=? n) && (n <=? 122) || (65 <=? n) && (n <=? 90) ||
   (48 <=? n) && (n <=? 57) || (n =? 45) || (n =? 95))%nat.

Fixpoint allChars (f : ascii → bool) (s : string) : bool :=
  match s with
  | EmptyString => true
  | String c s' => f c && allChars f s'
  end.

(** [/^[a-zA-Z0-9-_]+$/.test(id)] *)
Definition idRegex_test (id : string) : bool :=
  match id with
  | EmptyString => false
  | String _ _ => allChars idChar id
  end.

Definition GET (id : string) (productsData : list Product.t) : response :=
  if String.eqb id EmptyString then failure 400 "無效的產品ID"
  else if negb (idRegex_test id) || (50 <? Z.of_nat (String.length id)) then
    failure 400 "產品ID格式不正確"
  else
    match getProductById id productsData with
    | Returns result =>
        {| status := 200; success := true; error := None;
           data := Some result |}
    | Throws errorMessage =>
        if includes errorMessage "找不到" || includes errorMessage "not found"
        then failure 404 "找不到指定的產品"
        else failure 500 errorMessage
    end.

End ProductRoute.

(** * FieldManager *)

Module FieldManager.

(** ** JSON values and objects *)

#[local] Unset Elimination Schemes.
Inductive value :=
  | VNull
  | VBool (b : bool)
  | VNumber (z : Z)
  | VString (s : string)
  | VArray (items : list value)
  | VObject (fields : list (string * value)).
#[local] Set Elimination Schemes.

(** Own properties in insertion order. *)
Abbreviation props V := (list (string * V)) (only parsing).

(** A product as it stands in a file, and as it stands in memory, where
    a property may hold [undefined] ([None]). *)
Abbreviation object := (props value) (only parsing).
Abbreviation jsobject := (props (option value)) (only parsing).

Definition hasOwnProperty {V} (k : string) (o : props V) : bool :=
  existsb (λ kv, String.eqb kv.1 k) o.

Definition get {V} (k : string) (o : props V) : option V :=
  snd <$> List.find (λ kv, String.eqb kv.1 k) o.

(** [{...o, [k]: v}]: an existing key keeps its place, a new key goes
    last. *)
Fixpoint set {V} (k : string) (v : V) (o : props V) : props V :=
  match o with
  | [] => [(k, v)]
  | (k', w) :: o' =>
      if String.eqb k' k then (k', v) :: o' else (k', w) :: set k v o'
  end.

(** [const {[k]: _, ...rest} = o] *)
Definition rest {V} (k : string) (o : props V) : props V :=
  List.filter (λ kv, negb (String.eqb kv.1 k)) o.

(** [o[k]] on an object in memory. *)
Definition index (k : string) (o : jsobject) : option value :=
  mjoin (get k o).

(** [JSON.parse] and [JSON.stringify] on one product; [stringify] leaves
    out the properties that hold [undefined]. *)
Definition parse (o : object) : jsobject :=
  (λ kv, (kv.1, Some kv.2)) <$> o.

Definition stringify (o : jsobject) : object :=
  omap (λ kv, (λ v, (kv.1, v)) <$> kv.2) o.

(** ** The file system

    [files] are the files of [PRODUCTS_DIR], by name. A file holds an
    array of products or anything else ([Corrupt]): text that does not
    parse, or JSON that is not an array, on which [products.map] throws.
    [readOnly] are the names on which [writeFileSync] throws, leaving the
    file as it was. [backups] are the directories under [BACKUP_DIR],
    newest first. [trace] records the file operations in order. *)

Inductive content :=
  | Shard (records : list object)
  | Corrupt.

Inductive op :=
  | Mkdir
  | MkdirFailed
  | CopyFile (f : string)
  | CopyFailed (f : string)
  | ReadFile (f : string)
  | WriteFile (f : string)
  | WriteFailed (f : string).

Record fs := {
  files : gmap string content;
  readOnly : gset string;
  backupDirWritable : bool;
  backups : list (gmap string content);
  trace : list op
}.

Inductive outcome (A : Type) :=
  | Done (a : A) (s : fs)
  | Failed (s : fs).
Arguments Done {A} a s.
Arguments Failed {A} s.

Definition stateOf {A} (o : outcome A) : fs :=
  match o with Done _ s => s | Failed s => s end.

Definition log (o : op) (s : fs) : fs :=
  {| files := files s; readOnly := readOnly s;
     backupDirWritable := backupDirWritable s;
     backups := backups s; trace := trace s ++ [o] |}.

(** [array.forEach(f)] where [f] may throw. *)
Fixpoint forEach (f : string → fs → outcome unit) (l : list string)
    (s : fs) : outcome unit :=
  match l with
  | [] => Done tt s
  | x :: l' =>
      match f x s with
      | Done _ s' => forEach f l' s'
      | Failed s' => Failed s'
      end
  end.

Record t := { productFiles : list string }.

(** The constructor: [glob.sync] lists the files present. *)
Definition initializeFiles (s : fs) : t :=
  {| productFiles := (map_to_list (files s)).*1 |}.

Definition mkdirSync (s : fs) : outcome unit :=
  if backupDirWritable s then
    Done tt {| files := files s; readOnly := readOnly s;
               backupDirWritable := backupDirWritable s;
               backups := ∅ :: backups s; trace := trace s ++ [Mkdir] |}
  else Failed (log MkdirFailed s).

(** [fs.copyFileSync] into the newest backup directory. *)
Definition copyFileSync (f : string) (s : fs) : outcome unit :=
  match files s !! f, backups s with
  | Some c, snapshot :: older =>
      Done tt {| files := files s; readOnly := readOnly s;
                 backupDirWritable := backupDirWritable s;
                 backups := <[f := c]> snapshot :: older;
                 trace := trace s ++ [CopyFile f] |}
  | _, _ => Failed (log (CopyFailed f) s)
  end.

Definition createBackup (m : t) (s : fs) : outcome unit :=
  match mkdirSync s with
  | Done _ s' => forEach copyFileSync (productFiles m) s'
  | Failed s' => Failed s'
  end.

Definition readProductFile (f : string) (s : fs) : outcome (list object) :=
  match files s !! f with
  | Some (Shard records) => Done records (log (ReadFile f) s)
  | _ => Failed (log (ReadFile f) s)
  end.

Definition writeProductFile (f : string) (products : list jsobject)
    (s : fs) : outcome unit :=
  if decide (f ∈ readOnly s) then Failed (log (WriteFailed f) s)
  else
    Done tt {| files := <[f := Shard (stringify <$> products)]> (files s);
               readOnly := readOnly s;
               backupDirWritable := backupDirWritable s;
               backups := backups s;
               trace := trace s ++ [WriteFile f] |}.

(** The two counters each operation keeps and prints at the end. *)
Record report := { totalProducts : Z; processedFiles : Z }.

(** The body of the [forEach] over [productFiles], which the four
    operations share except for the callback [cb] of [products.map].
    The [catch] prints the error and lets the loop go on. *)
Definition processFile (cb : jsobject → jsobject) (acc : report * fs)
    (filePath : string) : report * fs :=
  let '(r, s) := acc in
  match readProductFile filePath s with
  | Failed s' => (r, s')
  | Done products s' =>
      let updatedProducts := cb <$> (parse <$> products) in
      match writeProductFile filePath updatedProducts s' with
      | Failed s'' => (r, s'')
      | Done _ s'' =>
          ({| totalProducts := totalProducts r + Z.of_nat (List.length products);
              processedFiles := processedFiles r + 1 |}, s'')
      end
  end.

Definition processAll (cb : jsobject → jsobject) (m : t) (s : fs)
    : report * fs :=
  foldl (processFile cb) ({| totalProducts := 0; processedFiles := 0 |}, s)
    (productFiles m).

(** The shape of every operation: back up, then rewrite each file. *)
Definition batch (cb : jsobject → jsobject) (m : t) (s : fs)
    : outcome report :=
  match createBackup m s with
  | Failed s' => Failed s'
  | Done _ s' => let '(r, s'') := processAll cb m s' in Done r s''
  end.

(** ** The four callbacks

    [product.hasOwnProperty(k)] is embedded as [hasOwnProperty k product],
    which is what the inherited method returns. A record with a property
    of its own named [hasOwnProperty] hides the method, and the call
    throws; such records are outside the embedding. *)

Definition addFieldTo (fieldName : string) (defaultValue : value)
    (product : jsobject) : jsobject :=
  set fieldName
    (if hasOwnProperty fieldName product then index fieldName product
     else Some defaultValue)
    product.

Definition renameFieldIn (oldFieldName newFieldName : string)
    (product : jsobject) : jsobject :=
  if hasOwnProperty oldFieldName product then
    let oldValue := index oldFieldName product in
    set newFieldName oldValue (rest oldFieldName product)
  else product.

(** [product[fieldName]] is read among the own properties. *)
Definition updateFieldIn (fieldName : string)
    (updater : option value → jsobject → option value)
    (product : jsobject) : jsobject :=
  set fieldName (updater (index fieldName product) product) product.

Definition removeFieldFrom (fieldName : string) (product : jsobject)
    : jsobject :=
  rest fieldName product.

(** ** The four operations *)

Definition addField (m : t) (fieldName : string) (defaultValue : value)
  : fs → outcome report :=
  batch (addFieldTo fieldName defaultValue) m.

Definition renameField (m : t) (oldFieldName newFieldName : string)
  : fs → outcome report :=
  batch (renameFieldIn oldFieldName newFieldName) m.

Definition updateField (m : t) (fieldName : string)
    (updater : option value → jsobject → option value)
  : fs → outcome report :=
  batch (updateFieldIn fieldName updater) m.

Definition removeField (m : t) (fieldName : string) : fs → outcome report :=
  batch (removeFieldFrom fieldName) m.

(** A batch mutation, to speak about the four at once. *)
Inductive mutation :=
  | AddField (fieldName : string) (defaultValue : value)
  | RenameField (oldFieldName newFieldName : string)
  | UpdateField (fieldName : string)
      (updater : option value → jsobject → option value)
  | RemoveField (fieldName : string).

Definition callback (mu : mutation) : jsobject → jsobject :=
  match mu with
  | AddField f d => addFieldTo f d
  | RenameField o n => renameFieldIn o n
  | UpdateField f u => updateFieldIn f u
  | RemoveField f => removeFieldFrom f
  end.

Definition perform (mu : mutation) (m : t) : fs → outcome report :=
  match mu with
  | AddField f d => addField m f d
  | RenameField o n => renameField m o n
  | UpdateField f u => updateField m f u
  | RemoveField f => removeField m f
  end.

(** What [mu] makes of a file that is read and written without error. *)
Definition rewritten (mu : mutation) (records : list object) : content :=
  Shard (stringify <$> (callback mu <$> (parse <$> records))).

(** ** analyzeFields *)

(** [Object.keys(product)] *)
Definition Object_keys {V} (o : props V) : list string := o.*1.

(** The object [fieldStats] and the counter [totalProducts] of
    [analyzeFields], here [analysed]. *)
Record analysis := { fieldStats : gmap string tally; analysed : Z }.

(** The callback of [products.forEach]. *)
Definition analyzeProduct (a : analysis) (product : object) : analysis :=
  {| fieldStats :=
       foldl (λ stats fieldName, bump fieldName stats) (fieldStats a)
         (Object_keys (parse product));
     analysed := analysed a + 1 |}.

(** The body of the loop over [productFiles]; a file that cannot be read
    is reported and passed over. *)
Definition analyzeFile (acc : analysis * fs) (filePath : string)
    : analysis * fs :=
  let '(a, s) := acc in
  match readProductFile filePath s with
  | Failed s' => (a, s')
  | Done products s' => (foldl analyzeProduct a products, s')
  end.

(** [analyzeFields], up to the report it prints. *)
Definition analyzeFields (m : t) (s : fs) : analysis * fs :=
  foldl analyzeFile ({| fieldStats := ∅; analysed := 0 |}, s) (productFiles m).

End FieldManager.

(** * DataSplitter

    The tool that cuts [products.json] into one file per series and
    writes the index that [ProductLoader] reads. What it prints is left
    out, and so are the time stamps it puts into the index and into the
    name of the backup. *)

Module Schema.

(** An entry of [SERIES_CONFIG], with the fields that [getSeriesKey]
    reads. *)
Record SeriesConfig := { key : string; name : string; nameEn : string }.

End Schema.

Module DataSplitter.
Import ProductService.

(** ** The files *)

(** An entry of the index, and the index. *)
Record SeriesEntry := {
  key : string;
  productCount : Z;
  fileName : string
}.

Record IndexData := {
  totalProducts : Z;
  totalSeries : Z;
  series : list SeriesEntry
}.

(** [SOURCE_FILE]: missing, not an array of products, or one. *)
Inductive sourceFile :=
  | Missing
  | Invalid
  | Products (products : list Product.t).

(** A file of [PRODUCTS_DIR]. *)
Inductive file :=
  | SeriesFile (products : list Product.t)
  | IndexFile (indexData : IndexData)
  | Garbled.

(** [backups] are the copies under [BACKUP_DIR], newest first.
    [productsDir] is [None] when [PRODUCTS_DIR] does not exist.
    [readOnly] are the names in [PRODUCTS_DIR] on which [writeFileSync]
    throws, leaving the file as it was. *)
Record disk := {
  source : sourceFile;
  backupDirWritable : bool;
  backups : list sourceFile;
  productsDir : option (gmap string file);
  productsDirCreatable : bool;
  readOnly : gset string
}.

Inductive outcome (A : Type) :=
  | Done (a : A) (d : disk)
  | Failed (d : disk).
Arguments Done {A} a d.
Arguments Failed {A} d.

Definition stateOf {A} (o : outcome A) : disk :=
  match o with Done _ d => d | Failed d => d end.

(** ** The splitter *)

(** The two fields of a [DataSplitter]. [seriesGroups] is an object
    literal used as a map: its own properties in the order of
    [Object.entries], array indices first. *)
Record t := {
  products : list Product.t;
  seriesGroups : list (string * list Product.t)
}.

Section Builtins.

(** The table of the schema, the chain of [toLowerCase] and [replace]
    that makes a file name of a series that is not in the table, and
    [new Date(s).getTime()]. *)
Variable SERIES_CONFIG : list Schema.SeriesConfig.
Variable safeFileName : string → string.
Variable Date_getTime : string → number.

Definition loadSourceData (d : disk) : option (list Product.t) :=
  match source d with
  | Products products => Some products
  | Missing | Invalid => None
  end.

Definition getSeriesKey (seriesName : string) : string :=
  match List.find
          (λ config, String.eqb (Schema.name config) seriesName ||
                     String.eqb (Schema.nameEn config) seriesName)
          SERIES_CONFIG with
  | Some configSeries => Schema.key configSeries
  | None => safeFileName seriesName
  end.

(** The callback of [products.forEach] in [groupProductsBySeries]. A key
    that objects inherit is found, though no group was made for it, and
    [push] on what is found throws. *)
Definition groupProduct (seriesGroups : list (string * list Product.t))
    (product : Product.t) : option (list (string * list Product.t)) :=
  let seriesKey := getSeriesKey (Product.series product) in
  match FieldManager.get seriesKey seriesGroups with
  | Some group =>
      Some (FieldManager.set seriesKey (group ++ [product]) seriesGroups)
  | None =>
      if ofObjectPrototype seriesKey then None
      else Some (define seriesKey [product] seriesGroups)
  end.

Definition groupProductsBySeries (products : list Product.t)
    : option (list (string * list Product.t)) :=
  foldl (λ groups product,
           match groups with
           | Some seriesGroups => groupProduct seriesGroups product
           | None => None
           end)
        (Some []) products.

(** [new DataSplitter()]; [None] when the constructor throws. *)
Definition new (d : disk) : option t :=
  match loadSourceData d with
  | Some products =>
      match groupProductsBySeries products with
      | Some seriesGroups =>
          Some {| products := products; seriesGroups := seriesGroups |}
      | None => None
      end
  | None => None
  end.

Definition createBackup (d : disk) : outcome unit :=
  if backupDirWritable d then
    match source d with
    | Missing => Failed d
    | _ =>
        Done tt {| source := source d;
                   backupDirWritable := backupDirWritable d;
                   backups := source d :: backups d;
                   productsDir := productsDir d;
                   productsDirCreatable := productsDirCreatable d;
                   readOnly := readOnly d |}
    end
  else Failed d.

Definition withProductsDir (files : gmap string file) (d : disk) : disk :=
  {| source := source d; backupDirWritable := backupDirWritable d;
     backups := backups d; productsDir := Some files;
     productsDirCreatable := productsDirCreatable d;
     readOnly := readOnly d |}.

Definition ensureDirectories (d : disk) : outcome unit :=
  match productsDir d with
  | Some _ => Done tt d
  | None =>
      if productsDirCreatable d then Done tt (withProductsDir ∅ d)
      else Failed d
  end.

(** [fs.writeFileSync] into [PRODUCTS_DIR]. *)
Definition writeFileSync (fileName : string) (content : file) (d : disk)
    : outcome unit :=
  match productsDir d with
  | Some files =>
      if decide (fileName ∈ readOnly d) then Failed d
      else Done tt (withProductsDir (<[fileName := content]> files) d)
  | None => Failed d
  end.

(** [a - b] on numbers. *)
Definition num_sub (a b : number) : number :=
  match a, b with
  | NaN, _ | _, NaN => NaN
  | Fin x, Fin y => Fin (x - y)
  | PosInf, PosInf | NegInf, NegInf => NaN
  | PosInf, _ | _, NegInf => PosInf
  | NegInf, _ | _, PosInf => NegInf
  end.

(** What [sort] makes of the number a comparator returns: NaN counts
    as 0. *)
Definition signOf (n : number) : Z :=
  match n with
  | Fin z => z
  | PosInf => 1
  | NegInf => -1
  | NaN => 0
  end.

(** The comparator of [writeSeriesFiles]. *)
Definition byReleaseDate (a b : Product.t) : Z :=
  signOf (num_sub (Date_getTime (Product.releaseDate a))
                  (Date_getTime (Product.releaseDate b))).

(** The callback of [forEach] in [writeSeriesFiles]: [sort] writes into
    the group, then the file is written; a write that throws is reported
    and passed over. *)
Definition writeSeriesFile (acc : list (string * list Product.t) * disk)
    (entry : string * list Product.t)
    : list (string * list Product.t) * disk :=
  let '(seriesGroups, d) := acc in
  let '(seriesKey, products) := entry in
  let fileName := String.append seriesKey ".json" in
  let sortedProducts := sort byReleaseDate products in
  (FieldManager.set seriesKey sortedProducts seriesGroups,
   stateOf (writeFileSync fileName (SeriesFile sortedProducts) d)).

Definition writeSeriesFiles (x : t) (d : disk) : t * disk :=
  let '(seriesGroups, d') :=
    foldl writeSeriesFile (seriesGroups x, d) (seriesGroups x) in
  ({| products := products x; seriesGroups := seriesGroups |}, d').

(** The object [indexData] of [createSeriesIndex]. *)
Definition indexData (x : t) : IndexData :=
  {| totalProducts := Z.of_nat (List.length (products x));
     totalSeries := Z.of_nat (List.length (seriesGroups x));
     series :=
       (λ entry : string * list Product.t,
          {| key := entry.1;
             productCount := Z.of_nat (List.length entry.2);
             fileName := String.append entry.1 ".json" |})
       <$> seriesGroups x |}.

(** A write of the index that throws is reported and passed over. *)
Definition createSeriesIndex (x : t) (d : disk) : disk :=
  stateOf (writeFileSync "_index.json" (IndexFile (indexData x)) d).

(** [split]: [Failed] when it throws. *)
Definition split (x : t) (d : disk) : outcome t :=
  match createBackup d with
  | Failed d' => Failed d'
  | Done _ d1 =>
      match ensureDirectories d1 with
      | Failed d' => Failed d'
      | Done _ d2 =>
          let '(x', d3) := writeSeriesFiles x d2 in
          Done x' (createSeriesIndex x' d3)
      end
  end.

End Builtins.

End DataSplitter.

(** * Vocabulary of the properties *)

Module LoaderSpec.
Import ProductLoader.

(** The union, in index order, of the series files that load. *)
Definition merged (s : Store) (index : Index) : list Product.t :=
  mjoin (omap (λ info, seriesFiles s !! fileName info) (series index)).

(** The states the loader can be in once [loadAllProducts] has been
    called, as long as the cache is not reset: one promise exists, it is
    pending or holds the merged collection, and either it is still
    published in [loadPromise] or its value is cached. *)
Definition started (s : Store) (v : list Product.t) (st : state) : Prop :=
  ∃ pr, promises st = [pr] ∧
    (pr = Pending ∨ pr = Settled (Fulfilled v)) ∧
    imports st = importsOf s ∧
    ((allProducts st = None ∧ loadPromise st = Some 0%nat) ∨
     (allProducts st = Some v ∧ loadPromise st = None ∧
      pr = Settled (Fulfilled v))) ∧
    Forall (λ c, c = Returned (Fulfilled v) ∨ c = AwaitingOwn 0 ∨
                 c = Forwarding 0) (callers st).

(** The state after the first call and [k] further calls, before the
    load has finished. *)
Definition waiting (s : Store) (k : nat) : state :=
  {| allProducts := None; loadPromise := Some 0%nat;
     promises := [Pending];
     callers := AwaitingOwn 0 :: replicate k (Forwarding 0);
     imports := importsOf s |}.

(** The state after the load has finished and the first [j] callers have
    received the value, [k] callers still waiting. *)
Definition delivering (s : Store) (v : list Product.t) (j k : nat) : state :=
  {| allProducts := Some v; loadPromise := None;
     promises := [Settled (Fulfilled v)];
     callers := replicate j (Returned (Fulfilled v)) ++
                replicate k (Forwarding 0);
     imports := importsOf s |}.
End LoaderSpec.

Module QuerySpec.
Import ProductService.

(** [a] occurs at some position before some position of [b]: the list
    can be cut in two with [a] on the left and [b] on the right. *)
Definition precedes {A} (a b : A) (l : list A) : Prop :=
  ∃ l1 l2, l = l1 ++ l2 ∧ a ∈ l1 ∧ b ∈ l2.

(** The rank the rarity sort compares, for a rarity that is not a name
    objects inherit: the entry of the table, and 0 for a rarity the table
    does not have. *)
Definition rank (p : Product.t) : Z :=
  default 0 (rarityOrder (Product.rarityLevel p)).

Definition withPage (k : Z) (params : ProductListRequest)
    : ProductListRequest :=
  {| page := Some k; limit := limit params; search := search params;
     rarity := rarity params; series := series params;
     minPrice := minPrice params; maxPrice := maxPrice params;
     sortBy := sortBy params; sortOrder := sortOrder params |}.

Section Builtins.
Variable toLowerCase : string → string.
Variable Date_getTime : string → number.

(** The records that pass the filters a request switches on, in the
    order of the collection. *)
Definition filteredOf (params : ProductListRequest)
    (data : list Product.t) : list Product.t :=
  let search := default "" (search params) in
  let rarity := default [] (rarity params) in
  let series := default [] (series params) in
  let l := data in
  let l := if trimTruthy search
           then List.filter (matchesSearch toLowerCase (toLowerCase search)) l
           else l in
  let l := if 0 <? Z.of_nat (List.length rarity)
           then List.filter
                  (λ p, arrayIncludes rarity (Product.rarityLevel p)) l
           else l in
  let l := if 0 <? Z.of_nat (List.length series)
           then List.filter
                  (λ p, arrayIncludes series (Product.series p)) l
           else l in
  let l := match minPrice params with
           | Some m =>
               List.filter (λ p, num_le m (Fin (Product.currentPrice p))) l
           | None => l
           end in
  match maxPrice params with
  | Some m => List.filter (λ p, num_le (Fin (Product.currentPrice p)) m) l
  | None => l
  end.

(** Whether a record passes the filters a request switches on. *)
Definition passes (params : ProductListRequest) (p : Product.t) : bool :=
  let search := default "" (search params) in
  let rarity := default [] (rarity params) in
  let series := default [] (series params) in
  (if trimTruthy search
   then matchesSearch toLowerCase (toLowerCase search) p else true) &&
  (if 0 <? Z.of_nat (List.length rarity)
   then arrayIncludes rarity (Product.rarityLevel p) else true) &&
  (if 0 <? Z.of_nat (List.length series)
   then arrayIncludes series (Product.series p) else true) &&
  match minPrice params with
  | Some m => num_le m (Fin (Product.currentPrice p))
  | None => true
  end &&
  match maxPrice params with
  | Some m => num_le (Fin (Product.currentPrice p)) m
  | None => true
  end.

(** The comparator a request selects. *)
Definition comparatorOf (params : ProductListRequest)
    : Product.t → Product.t → Z :=
  compareFn toLowerCase Date_getTime
    (default "name" (sortBy params)) (default "asc" (sortOrder params)).

(** The sort keys of the records are comparable: when the sort is by
    release date every date parses, and when it is by rarity no rarity is
    a name that objects inherit. The comparator is then a consistent
    order, for which the language fixes what [sort] returns. The other
    keys, a price and a name in lower case, are always comparable. *)
Definition properKeys (params : ProductListRequest)
    (l : list Product.t) : Prop :=
  (default "name" (sortBy params) = "release_date" →
     Forall (λ p, ∃ z, Date_getTime (Product.releaseDate p) = Fin z) l) ∧
  (default "name" (sortBy params) = "rarity" →
     Forall (λ p, ofObjectPrototype (Product.rarityLevel p) = false) l).

(** The filtered records in sort order. *)
Definition ordered (params : ProductListRequest)
    (data : list Product.t) : list Product.t :=
  sort (comparatorOf params) (filteredOf params data).

(** The claim that a lookup by an identifier no record has ends in a
    returned value. *)
Definition absenceIsAValue (id : string) (data : list Product.t) : Prop :=
  (∀ p, p ∈ data → Product.id p ≠ id) →
  ∃ r, getProductById id data = Returns r.

(** The response to a request with page number [k]. *)
Definition pageOf (productsData : ref) (params : ProductListRequest)
    (h : heap) (k : Z) : ProductListResponse :=
  fst (getProducts toLowerCase Date_getTime productsData
         (withPage k params) h).
End Builtins.
End QuerySpec.

Module MutationSpec.
Import FieldManager.

(** What a callback makes of the text of a file. *)
Definition rewriteContent (cb : jsobject → jsobject) (c : content) : content :=
  match c with
  | Shard records => Shard (stringify <$> (cb <$> (parse <$> records)))
  | Corrupt => Corrupt
  end.

(** The files after one round of the loop on file [f]: rewritten when it
    holds an array and is writable, as they were otherwise. *)
Definition rewriteFile (cb : jsobject → jsobject) (ro : gset string)
    (f : string) (m : gmap string content) : gmap string content :=
  match m !! f with
  | Some (Shard records) =>
      if decide (f ∈ ro) then m
      else <[f := rewriteContent cb (Shard records)]> m
  | _ => m
  end.

(** Whether [createBackup] will succeed: the backup directory can be made
    and every listed file is still there to be copied. *)
Definition backupSucceeds (m : t) (s : fs) : bool :=
  backupDirWritable s &&
  forallb (λ f, bool_decide (is_Some (files s !! f))) (productFiles m).

(** The operations of [createBackup], and the successful writes. *)
Definition isBackupOp (o : op) : bool :=
  match o with
  | Mkdir | MkdirFailed | CopyFile _ | CopyFailed _ => true
  | _ => false
  end.

Definition isWriteOp (o : op) : bool :=
  match o with
  | WriteFile _ => true
  | _ => false
  end.

(** What [addField] is to make of a record: nothing when the record has
    the field, the field set to the default value otherwise. *)
Definition fillIn (fieldName : string) (defaultValue : value) (r : object)
    : object :=
  if hasOwnProperty fieldName r then r else r ++ [(fieldName, defaultValue)].





(** A store of one file of two records, the second without a price. *)
Definition oneShard : fs :=
  {| files := {[ "a.json" := Shard [[("id", VString "p1"); ("price", VNumber 100)];
                                    [("id", VString "p2")]] ]};
     readOnly := ∅;
     backupDirWritable := true;
     backups := [];
     trace := [] |}.

Definition oneFile : t := {| productFiles := ["a.json"] |}.

(** A manager that lists a file which is no longer there. *)
Definition staleFiles : t := {| productFiles := ["a.json"; "gone.json"] |}.

End MutationSpec.

Module Samples.
Import ProductService.

(** Lower case on the letters A to Z, for the examples. *)
Definition lowerAscii (c : ascii) : ascii :=
  let n := nat_of_ascii c in
  if ((65 <=? n) && (n <=? 90))%nat then ascii_of_nat (n + 32) else c.

Fixpoint lowerCase (s : string) : string :=
  match s with
  | EmptyString => EmptyString
  | String c s' => String (lowerAscii c) (lowerCase s')
  end.

(** A date parser for the examples: it knows no date. *)
Definition noDate (s : string) : number := NaN.

Definition sample (id name series rarityLevel : string) (price : Z)
    : Product.t :=
  {| Product.id := id; Product.name := name; Product.nameEn := None;
     Product.series := series; Product.rarityLevel := rarityLevel;
     Product.currentPrice := price; Product.originalPrice := price;
     Product.mainColor := "#000000"; Product.imageUrl := "";
     Product.releaseStatus := "active"; Product.releaseDate := "2024-01-01";
     Product.appearanceRate := None;
     Product.createdAt := "2024-01-01"; Product.updatedAt := "2024-01-01" |}.

Definition p1 : Product.t := sample "p1" "Alpha" "a" "rare" 100.
Definition p2 : Product.t := sample "p2" "Beta" "b" "normal" 50.
Definition p3 : Product.t := sample "p3" "Gamma" "b" "hidden" 70.

Definition noParams : ProductListRequest :=
  {| page := None; limit := None; search := None; rarity := None;
     series := None; minPrice := None; maxPrice := None;
     sortBy := None; sortOrder := None |}.

Definition byPrice : ProductListRequest :=
  {| page := Some 1; limit := Some 10; search := None; rarity := None;
     series := None; minPrice := None; maxPrice := None;
     sortBy := Some "price"; sortOrder := Some "asc" |}.

Definition byRarity : ProductListRequest :=
  {| page := Some 1; limit := Some 2; search := None; rarity := None;
     series := None; minPrice := None; maxPrice := None;
     sortBy := Some "rarity"; sortOrder := Some "asc" |}.

(** A loader store of two series of which the second is missing. *)
Definition twoSeries : ProductLoader.Store :=
  {| ProductLoader.indexFile :=
       Some {| ProductLoader.series :=
                 [ {| ProductLoader.key := "a"; ProductLoader.fileName := "a.json" |};
                   {| ProductLoader.key := "b"; ProductLoader.fileName := "b.json" |} ];
               ProductLoader.totalSeries := 2 |};
     ProductLoader.seriesFiles := {[ "a.json" := [p1] ]} |}.

End Samples.

Module AnalysisSpec.
Import FieldManager.

(** The records of a file that holds an array; none otherwise. *)
Definition recordsOf (s : fs) (f : string) : option (list object) :=
  match files s !! f with
  | Some (Shard records) => Some records
  | _ => None
  end.

(** The records of the listed files that hold an array, in order. *)
Definition scanned (m : t) (s : fs) : list object :=
  mjoin (omap (recordsOf s) (productFiles m)).

(** How many of the records have the field. *)
Definition having (fieldName : string) (l : list object) : Z :=
  Z.of_nat (List.length (List.filter (hasOwnProperty fieldName) l)).

(** A record names each field once, as every parsed object does. *)
Definition wellKeyed (r : object) : Prop := NoDup r.*1.



Fixpoint sumZ (l : list Z) : Z :=
  match l with
  | [] => 0
  | x :: l' => x + sumZ l'
  end.

End AnalysisSpec.

Module ResetSpec.
Import ProductLoader.

(** How many times a schedule resets the cache. *)
Fixpoint resets (evs : list event) : nat :=
  match evs with
  | [] => 0
  | ResetCache :: evs' => S (resets evs')
  | _ :: evs' => resets evs'
  end.

(** The states the loader can reach after [r] resets: every promise is
    pending or holds the collection [v], every result delivered is [v],
    at most [r + 1] loads were started, and only [r] if a call would now
    start another. *)
Definition reachable (s : Store) (v : list Product.t) (r : nat) (st : state)
    : Prop :=
  Forall (λ pr, pr = Pending ∨ pr = Settled (Fulfilled v)) (promises st) ∧
  Forall (λ c, ∀ x, c = Returned x → x = Fulfilled v) (callers st) ∧
  (allProducts st = None ∨ allProducts st = Some v) ∧
  (allProducts st = None → loadPromise st = None →
     (List.length (promises st) ≤ r)%nat) ∧
  (List.length (promises st) ≤ r + 1)%nat ∧
  imports st = mjoin (replicate (List.length (promises st)) (importsOf s)).

End ResetSpec.

Module CountSpec.

(** How many elements of [l] have the key [k]. *)
Definition countOf {A} (key : A → string) (k : string) (l : list A) : Z :=
  Z.of_nat (List.length (filter (λ x, key x = k) l)).

(** The number a counter holds under a name; text counts for nothing. *)
Definition weight (v : tally) : Z :=
  match v with Count n => n | Text => 0 end.

(** The sum of the counts an object holds. *)
Definition sumOf (o : gmap string tally) : Z :=
  map_fold (λ _ v acc, weight v + acc) 0 o.

(** What counting the elements of [l] by [key] leaves under the name
    [k]. *)
Definition tallyOf {A} (key : A → string) (l : list A) (k : string)
    : option tally :=
  if countOf key k l =? 0 then None
  else if String.eqb k "__proto__" then None
  else if ofObjectPrototype k then Some Text
  else Some (Count (countOf key k l)).

(** The object [o] counts the elements of [l] by [key]: under a name
    that is not inherited it holds the number of elements with that name,
    a name that no element has is missing, under an inherited name it
    never holds a number, and when no element has an inherited name the
    counts add up to the size of [l]. *)
Definition tallies {A} (key : A → string) (l : list A)
    (o : gmap string tally) : Prop :=
  (∀ k, ofObjectPrototype k = false → 0 < countOf key k l →
        o !! k = Some (Count (countOf key k l))) ∧
  (∀ k, (∀ x, x ∈ l → key x ≠ k) → o !! k = None) ∧
  (∀ k n, ofObjectPrototype k = true → o !! k ≠ Some (Count n)) ∧
  (Forall (λ x, ofObjectPrototype (key x) = false) l →
   sumOf o = Z.of_nat (List.length l)).

End CountSpec.

Module RouteSpec.
Import ProductRoute.

(** An id the route lets through to the service. *)
Definition wellFormed (id : string) : bool :=
  idRegex_test id && (Z.of_nat (String.length id) <=? 50).

End RouteSpec.

Module SplitSpec.
Import ProductService DataSplitter.

Section Builtins.
Variable SERIES_CONFIG : list Schema.SeriesConfig.
Variable safeFileName : string → string.
Variable Date_getTime : string → number.

(** The key of the group a product goes to. *)
Definition keyOf (p : Product.t) : string :=
  getSeriesKey SERIES_CONFIG safeFileName (Product.series p).

(** The group of a key: the products with that key, in the order of
    the source; none when no product has the key. *)
Definition groupOf (k : string) (l : list Product.t)
    : option (list Product.t) :=
  match filter (λ p, keyOf p = k) l with
  | [] => None
  | group => Some group
  end.

(** The release date of the product parses. *)
Definition dated (p : Product.t) : Prop :=
  ∃ z, Date_getTime (Product.releaseDate p) = Fin z.

(** [a] was released no later than [b]. *)
Definition releasedBy (a b : Product.t) : Prop :=
  num_le (Date_getTime (Product.releaseDate a))
         (Date_getTime (Product.releaseDate b)) = true.

(** The groups as [writeSeriesFiles] leaves them. *)
Definition sortedGroups (seriesGroups : list (string * list Product.t))
    : list (string * list Product.t) :=
  (λ entry : string * list Product.t,
     (entry.1, sort (byReleaseDate Date_getTime) entry.2)) <$> seriesGroups.

(** What the writes of the series files make of the files [files] of
    the directory, [ro] being the names that cannot be written. *)
Definition afterWrites (ro : gset string)
    (seriesGroups : list (string * list Product.t))
    (files : gmap string file) : gmap string file :=
  foldl (λ files (entry : string * list Product.t),
           if decide (String.append entry.1 ".json" ∈ ro) then files
           else <[String.append entry.1 ".json" :=
                    SeriesFile (sort (byReleaseDate Date_getTime) entry.2)]>
                  files)
        files seriesGroups.

(** What the loader finds for a group after [split]: the sorted group
    when its file could be written, otherwise what the file held. *)
Definition onDisk (ro : gset string) (files : gmap string file)
    (entry : string * list Product.t) : option (list Product.t) :=
  if decide (String.append entry.1 ".json" ∈ ro) then
    match files !! String.append entry.1 ".json" with
    | Some (SeriesFile products) => Some products
    | _ => None
    end
  else Some (sort (byReleaseDate Date_getTime) entry.2).

End Builtins.

(** The files of [PRODUCTS_DIR]; none when it does not exist. *)
Definition filesOf (d : disk) : gmap string file :=
  default ∅ (productsDir d).

(** The products of a file that holds an array of them. *)
Definition seriesOf (f : option file) : option (list Product.t) :=
  match f with
  | Some (SeriesFile products) => Some products
  | _ => None
  end.

(** [PRODUCTS_DIR] as [ProductLoader] sees it: the index when
    [_index.json] holds one, and the files that hold an array of
    products. It stands for a directory in which no entry of the index
    names [_index.json] itself. *)
Definition storeOf (d : disk) : ProductLoader.Store :=
  {| ProductLoader.indexFile :=
       match filesOf d !! "_index.json" with
       | Some (IndexFile indexData) =>
           Some {| ProductLoader.series :=
                     (λ e, {| ProductLoader.key := key e;
                              ProductLoader.fileName := fileName e |})
                     <$> series indexData;
                   ProductLoader.totalSeries := totalSeries indexData |}
       | _ => None
       end;
     ProductLoader.seriesFiles :=
       omap (λ f, seriesOf (Some f)) (filesOf d) |}.

End SplitSpec.

Module MoreSamples.
Import Samples.

(** A request for everything between the lowest and the highest price
    of the three sample products. *)
Definition withinRange : ProductService.ProductListRequest :=
  {| ProductService.page := None; ProductService.limit := None;
     ProductService.search := None; ProductService.rarity := None;
     ProductService.series := None;
     ProductService.minPrice := Some (Fin 50);
     ProductService.maxPrice := Some (Fin 100);
     ProductService.sortBy := None; ProductService.sortOrder := None |}.

(** A request for page 1 with a page size of -1. *)
Definition allButLast : ProductService.ProductListRequest :=
  {| ProductService.page := Some 1; ProductService.limit := Some (-1);
     ProductService.search := None; ProductService.rarity := None;
     ProductService.series := None;
     ProductService.minPrice := None; ProductService.maxPrice := None;
     ProductService.sortBy := Some "price";
     ProductService.sortOrder := Some "asc" |}.

(** A table that knows the series [a]. *)
Definition oneSeries : list Schema.SeriesConfig :=
  [ {| Schema.key := "series-a"; Schema.name := "a";
       Schema.nameEn := "A" |} ].

(** A source file of three products, and nothing split yet. *)
Definition unsplit : DataSplitter.disk :=
  {| DataSplitter.source := DataSplitter.Products [p3; p1; p2];
     DataSplitter.backupDirWritable := true;
     DataSplitter.backups := [];
     DataSplitter.productsDir := None;
     DataSplitter.productsDirCreatable := true;
     DataSplitter.readOnly := ∅ |}.

(** The splitter made from it. *)
Definition splitter : DataSplitter.t :=
  {| DataSplitter.products := [p3; p1; p2];
     DataSplitter.seriesGroups := [("b", [p3; p2]); ("series-a", [p1])] |}.

End MoreSamples.

(** * Properties of the loader *)

Section LoaderFacts.
Import ProductLoader LoaderSpec.

Lemma performLoad_value (s : Store) (index : Index) :
  indexFile s = Some index →
  snd (performLoad s) = Fulfilled (merged s index).
Proof.
  intros Hi. unfold performLoad, merged. rewrite Hi. simpl. f_equal.
  induction (series index) as [|info l IH]; [done|].
  rewrite !fmap_cons. cbn [mjoin list_join omap list_omap].
  unfold loadSeries at 1.
  destruct (seriesFiles s !! fileName info); cbn; [f_equal|]; exact IH.
Qed.

Lemma performLoad_warnings (s : Store) (index : Index) :
  indexFile s = Some index →
  fst (performLoad s) =
    key <$> filter (λ info, seriesFiles s !! fileName info = None)
              (series index).
Proof.
  intros Hi. unfold performLoad. rewrite Hi. simpl.
  induction (series index) as [|info l IH]; [done|].
  rewrite !fmap_cons, filter_cons. cbn [mjoin list_join].
  unfold loadSeries at 1.
  destruct (seriesFiles s !! fileName info) eqn:E.
  - rewrite decide_False; [exact IH|]. congruence.
  - rewrite decide_True; [|done]. rewrite fmap_cons. cbn. f_equal. exact IH.
Qed.

(** C9. When the index loads, [performLoad] fulfils: its value is the
    union, in index order, of exactly the series files that load; each
    series file that fails to load contributes no record and one warning
    naming it; every record of a series file that loads is in the value. *)
Theorem performLoad_skips_failed_shards (s : Store) (index : Index) :
  indexFile s = Some index →
  performLoad s =
    (key <$> filter (λ info, seriesFiles s !! fileName info = None)
               (series index),
     Fulfilled (mjoin (omap (λ info, seriesFiles s !! fileName info)
                         (series index)))) ∧
  (∀ info records p,
      info ∈ series index →
      seriesFiles s !! fileName info = Some records →
      p ∈ records →
      p ∈ merged s index).
Proof.
  intros Hi. split.
  - rewrite (surjective_pairing (performLoad s)).
    rewrite (performLoad_value _ _ Hi), (performLoad_warnings _ _ Hi). done.
  - intros info records p Hin Hf Hp. unfold merged.
    apply list_elem_of_join. exists records. split; [done|].
    apply list_elem_of_omap. by exists info.
Qed.

Ltac show_started pr :=
  exists pr; simpl; repeat split;
  first [ done | tauto
        | apply Forall_app; split; [done|]; apply Forall_singleton; tauto
        | apply Forall_insert; [done|tauto] ].

Lemma started_step (s : Store) (index : Index) (e : event) (st : state) :
  indexFile s = Some index →
  e ≠ ResetCache →
  started s (merged s index) st →
  started s (merged s index) (step s st e).
Proof.
  intros Hi He (pr & Hp & Hpr & Himp & Hcase & Hall).
  destruct e as [|p|c|]; [| | |done]; simpl.
  - unfold loadAllProducts.
    destruct Hcase as [[Ha Hl]|(Ha & Hl & Hs)]; rewrite Ha; [rewrite Hl|];
      show_started pr.
  - unfold settle. rewrite Hp.
    destruct p as [|p]; simpl; [|show_started pr].
    destruct pr as [|r]; [|show_started (Settled r)].
    rewrite (performLoad_value _ _ Hi).
    destruct Hcase as [?|(_ & _ & ?)]; [|done].
    show_started (Settled (Fulfilled (merged s index))).
  - unfold resume.
    destruct (callers st !! c) as [cl|] eqn:Hc; [|show_started pr].
    pose proof (Forall_lookup_1 _ _ _ _ Hall Hc) as [->|[->| ->]];
      [show_started pr| |]; rewrite Hp; simpl;
      (destruct Hpr as [->| ->]; [show_started Pending|]);
      show_started (Settled (Fulfilled (merged s index))).
Qed.

Lemma started_run (s : Store) (index : Index) (evs : list event) (st : state) :
  indexFile s = Some index →
  ResetCache ∉ evs →
  started s (merged s index) st →
  started s (merged s index) (run s evs st).
Proof.
  intros Hi. revert st. induction evs as [|e evs IH]; intros st Hn Hs; [done|].
  simpl. apply IH.
  - intros ?. apply Hn. by right.
  - eapply started_step; [done| |done]. intros ->. apply Hn. by left.
Qed.

Lemma started_waiting (s : Store) (v : list Product.t) (k : nat) :
  started s v (waiting s k).
Proof.
  exists Pending. simpl. repeat split; try tauto.
  apply Forall_cons. split; [tauto|]. apply Forall_replicate. tauto.
Qed.

Lemma initial_run (s : Store) (index : Index) (evs : list event) :
  indexFile s = Some index →
  ResetCache ∉ evs →
  ((Call ∉ evs) ∧ run s evs initial = initial) ∨
  started s (merged s index) (run s evs initial).
Proof.
  intros Hi. induction evs as [|e evs IH]; intros Hn.
  { left. split; [apply not_elem_of_nil|done]. }
  assert (ResetCache ∉ evs) as Hn' by (intros ?; apply Hn; by right).
  destruct e as [|p|c|]; simpl.
  - right. apply started_run; [done..|]. apply (started_waiting s _ 0).
  - destruct (IH Hn') as [[Hc Hr]|Hs]; [left|by right].
    split; [|done]. intros [?|?]%elem_of_cons; done.
  - destruct (IH Hn') as [[Hc Hr]|Hs]; [left|by right].
    split; [|done]. intros [?|?]%elem_of_cons; done.
  - exfalso. apply Hn. by left.
Qed.

Lemma calls_run (s : Store) (n k : nat) :
  run s (replicate n Call) (waiting s k) = waiting s (k + n).
Proof.
  revert k. induction n as [|n IH]; intros k.
  { simpl. by rewrite Nat.add_0_r. }
  simpl. unfold loadAllProducts. simpl.
  replace (k + S n)%nat with (S k + n)%nat by lia. rewrite <- IH.
  f_equal. unfold waiting. f_equal.
  f_equal. symmetry. apply replicate_S_end.
Qed.

Lemma resumes_run (s : Store) (v : list Product.t) (j k : nat) :
  run s (Resume <$> seq j k) (delivering s v j k) = delivering s v (j + k) 0.
Proof.
  revert j. induction k as [|k IH]; intros j.
  { simpl. by rewrite Nat.add_0_r. }
  simpl. unfold resume. simpl.
  rewrite lookup_app_r; rewrite length_replicate; [|lia].
  rewrite Nat.sub_diag. simpl.
  replace (j + S k)%nat with (S j + k)%nat by lia. rewrite <- IH.
  f_equal. unfold delivering. f_equal.
  rewrite insert_app_r_alt; rewrite length_replicate; [|lia].
  rewrite Nat.sub_diag. simpl.
  rewrite cons_middle, app_assoc, <- replicate_S_end. done.
Qed.

Lemma run_cons (s : Store) (e : event) (evs : list event) (st : state) :
  run s (e :: evs) st = run s evs (step s st e).
Proof. done. Qed.

Lemma run_app (s : Store) (evs1 evs2 : list event) (st : state) :
  run s (evs1 ++ evs2) st = run s evs2 (run s evs1 st).
Proof. apply foldl_app. Qed.

Lemma shared_run (s : Store) (index : Index) (n : nat) :
  indexFile s = Some index →
  run s (replicate (S n) Call ++ Settle 0 :: (Resume <$> seq 0 (S n))) initial
  = delivering s (merged s index) (S n) 0.
Proof.
  intros Hi. rewrite run_app.
  change (replicate (S n) Call) with (Call :: replicate n Call).
  rewrite (run_cons s Call).
  change (step s initial Call) with (waiting s 0).
  rewrite calls_run, (run_cons s (Settle 0)).
  change (seq 0 (S n)) with (0%nat :: seq 1 n).
  rewrite fmap_cons, (run_cons s (Resume 0)).
  assert (step s (step s (waiting s (0 + n)) (Settle 0)) (Resume 0)
          = delivering s (merged s index) 1 n) as ->.
  { simpl. unfold settle. simpl. rewrite (performLoad_value _ _ Hi).
    reflexivity. }
  apply (resumes_run s (merged s index) 1 n).
Qed.

(** C3. On a store whose index loads, whatever calls, completions and
    resumptions happen in whatever order (the cache not being reset), at
    most one [performLoad] is ever started, so each file is imported at
    most once, and every caller that has received a result has received
    the one merged collection; once the collection is cached a further
    call returns it at once, importing nothing. In particular N calls
    made before the load completes all receive that collection from the
    single load. *)
Theorem load_is_shared (s : Store) (index : Index) :
  indexFile s = Some index →
  (∀ evs : list event, ResetCache ∉ evs →
     let st := run s evs initial in
     (List.length (promises st) ≤ 1)%nat ∧
     (Call ∈ evs →
        List.length (promises st) = 1%nat ∧ imports st = importsOf s) ∧
     (∀ c r, callers st !! c = Some (Returned r) →
        r = Fulfilled (merged s index)) ∧
     (∀ v, allProducts st = Some v →
        v = merged s index ∧
        callers (loadAllProducts s st) =
          callers st ++ [Returned (Fulfilled (merged s index))] ∧
        promises (loadAllProducts s st) = promises st ∧
        imports (loadAllProducts s st) = imports st)) ∧
  (∀ N : nat, (0 < N)%nat →
     let st := run s (replicate N Call ++ Settle 0 :: (Resume <$> seq 0 N))
                 initial in
     callers st = replicate N (Returned (Fulfilled (merged s index))) ∧
     promises st = [Settled (Fulfilled (merged s index))] ∧
     imports st = importsOf s ∧
     allProducts st = Some (merged s index)).
Proof.
  intros Hi. split.
  - intros evs Hn st.
    destruct (initial_run s index evs Hi Hn) as [[Hc Hr]|Hs]; subst st.
    + rewrite Hr. simpl. repeat split; try done. lia.
    + destruct Hs as (pr & Hp & Hpr & Himp & Hcase & Hall).
      rewrite Hp. simpl. split; [lia|]. split; [done|]. split.
      * intros c r Hc.
        pose proof (Forall_lookup_1 _ _ _ _ Hall Hc) as [?|[?|?]]; congruence.
      * intros v Hv.
        destruct Hcase as [[Ha _]|(Ha & _ & _)]; [congruence|].
        assert (v = merged s index) as -> by congruence.
        unfold loadAllProducts. rewrite Ha. done.
  - intros N HN st. subst st.
    destruct N as [|n]; [lia|].
    rewrite (shared_run s index n Hi). unfold delivering. simpl.
    rewrite app_nil_r. done.
Qed.

End LoaderFacts.

(** * Properties of the query service *)

Section QueryFacts.
Import ProductService QuerySpec.

Variable toLowerCase : string → string.
Variable Date_getTime : string → number.

(** ** The heap *)

Lemma deref_alloc (h : heap) (a : list Product.t) :
  deref (List.length h) (h ++ [a]) = a.
Proof.
  unfold deref.
  assert ((h ++ [a]) !! List.length h = Some a) as ->; [|done].
  by apply list_lookup_middle.
Qed.

Lemma deref_old (h ext : heap) (r : ref) (a : list Product.t) :
  h !! r = Some a → deref r (h ++ ext) = a.
Proof. intros H. unfold deref. by rewrite (lookup_app_l_Some _ _ _ _ H). Qed.

Lemma sortInPlace_alloc (cmp : Product.t → Product.t → Z) (h : heap)
    (a : list Product.t) :
  sortInPlace cmp (List.length h) (h ++ [a]) = h ++ [sort cmp a].
Proof.
  unfold sortInPlace. rewrite deref_alloc.
  rewrite insert_app_r_alt; [|done]. by rewrite Nat.sub_diag.
Qed.

(** ** The sort *)

Section Sorting.
Context {A : Type} (cmp : A → A → Z).

Lemma insert_perm (x : A) (l : list A) : insert cmp x l ≡ₚ x :: l.
Proof.
  induction l as [|y l IH]; [done|]. simpl.
  destruct (0 <? cmp x y); [|done].
  rewrite IH. apply Permutation_swap.
Qed.

Lemma sort_perm (l : list A) : sort cmp l ≡ₚ l.
Proof.
  induction l as [|x l IH]; [done|]. simpl.
  rewrite insert_perm. by rewrite IH.
Qed.

Lemma length_sort (l : list A) : List.length (sort cmp l) = List.length l.
Proof. by rewrite sort_perm. Qed.

Lemma precedes_cons (a b y : A) (l : list A) :
  precedes a b (y :: l) ↔ (y = a ∧ b ∈ l) ∨ precedes a b l.
Proof.
  split.
  - intros (l1 & l2 & Heq & Ha & Hb).
    destruct l1 as [|z l1]; [by apply elem_of_nil in Ha|].
    simpl in Heq. injection Heq as -> ->.
    apply elem_of_cons in Ha as [->|Ha].
    + left. split; [done|]. apply elem_of_app. by right.
    + right. by exists l1, l2.
  - intros [[-> Hb]|(l1 & l2 & -> & Ha & Hb)].
    + exists [a], l. split; [done|]. split; [apply list_elem_of_singleton|]; done.
    + exists (y :: l1), l2. split; [done|]. split; [by right|done].
Qed.

Lemma precedes_nil (a b : A) : ¬ precedes a b [].
Proof.
  intros (l1 & l2 & Heq & Ha & _). symmetry in Heq.
  apply app_eq_nil in Heq as [-> _]. by apply elem_of_nil in Ha.
Qed.

Lemma precedes_insert_other (a b x : A) (l : list A) :
  precedes a b l → precedes a b (insert cmp x l).
Proof.
  induction l as [|y l IH]; intros Hp; [by apply precedes_nil in Hp|].
  simpl. destruct (0 <? cmp x y).
  - apply precedes_cons. apply precedes_cons in Hp as [[-> Hb]|Hp].
    + left. split; [done|]. rewrite insert_perm. by right.
    + right. by apply IH.
  - apply precedes_cons. by right.
Qed.

Lemma precedes_insert_new (a b : A) (l : list A) :
  b ∈ l → cmp a b ≤ 0 → precedes a b (insert cmp a l).
Proof.
  intros Hb Hc. induction l as [|y l IH]; [by apply elem_of_nil in Hb|].
  simpl. destruct (0 <? cmp a y) eqn:E.
  - apply precedes_cons. right. apply IH.
    apply elem_of_cons in Hb as [->|Hb]; [|done].
    apply Z.ltb_lt in E. lia.
  - apply precedes_cons. by left.
Qed.

(** Stability: an element that the comparator does not place after a later
    element stays before it. *)
Lemma sort_stable (a b : A) (l : list A) :
  precedes a b l → cmp a b ≤ 0 → precedes a b (sort cmp l).
Proof.
  intros Hp Hc. induction l as [|y l IH]; [by apply precedes_nil in Hp|].
  simpl. apply precedes_cons in Hp as [[-> Hb]|Hp].
  - apply precedes_insert_new; [|done]. by rewrite sort_perm.
  - apply precedes_insert_other. by apply IH.
Qed.

(** Order: when the comparator is positive exactly against a transitive,
    total relation [R], the result is sorted by [R]. *)
Lemma insert_sorted (R : A → A → Prop) (x : A) (l : list A) :
  (∀ a b c, R a b → R b c → R a c) →
  (∀ a b, 0 < cmp a b → R b a) →
  (∀ a b, ¬ 0 < cmp a b → R a b) →
  StronglySorted R l → StronglySorted R (insert cmp x l).
Proof.
  intros Htr Hpos Hneg Hs. induction Hs as [|y l Hs IH Hall].
  { simpl. by repeat constructor. }
  simpl. destruct (0 <? cmp x y) eqn:E.
  - apply Z.ltb_lt in E. constructor; [done|].
    rewrite insert_perm. constructor; [by apply Hpos|done].
  - apply Z.ltb_ge in E. assert (R x y) as Hxy by (apply Hneg; lia).
    constructor; [by constructor|].
    constructor; [done|].
    eapply Forall_impl; [exact Hall|]. intros z Hyz. by eapply Htr.
Qed.

Lemma sort_sorted (R : A → A → Prop) (l : list A) :
  (∀ a b c, R a b → R b c → R a c) →
  (∀ a b, 0 < cmp a b → R b a) →
  (∀ a b, ¬ 0 < cmp a b → R a b) →
  StronglySorted R (sort cmp l).
Proof.
  intros Htr Hpos Hneg. induction l as [|x l IH]; [constructor|].
  simpl. by apply insert_sorted.
Qed.

Lemma sort_sorted_on (R : A → A → Prop) (P : A → Prop) (l : list A) :
  (∀ a b c, P a → P b → P c → R a b → R b c → R a c) →
  (∀ a b, P a → P b → 0 < cmp a b → R b a) →
  (∀ a b, P a → P b → ¬ 0 < cmp a b → R a b) →
  Forall P l →
  StronglySorted R (sort cmp l).
Proof.
  intros Htr Hpos Hneg Hall.
  assert (∀ l' x, P x → Forall P l' → StronglySorted R l' →
            StronglySorted R (insert cmp x l')) as Hins.
  { intros l' x Hx Hl' Hs. induction Hs as [|y l' Hs IH Hy].
    { simpl. by repeat constructor. }
    apply Forall_cons in Hl' as [Hpy Hl']. simpl.
    destruct (0 <? cmp x y) eqn:E.
    - apply Z.ltb_lt in E. constructor; [by apply IH|].
      rewrite insert_perm. constructor; [by apply Hpos|done].
    - apply Z.ltb_ge in E. assert (R x y) as Hxy by (apply Hneg; [done..|lia]).
      constructor; [by constructor|]. constructor; [done|].
      apply Forall_forall. intros z Hz.
      apply (Htr x y z); [done|done| |done|].
      + by apply (proj1 (Forall_forall _ _) Hl').
      + by apply (proj1 (Forall_forall _ _) Hy). }
  induction Hall as [|x l Hx Hall IH]; [constructor|].
  simpl. apply Hins; [done| |done]. by rewrite sort_perm.
Qed.

Lemma sorted_precedes (R : A → A → Prop) (a b : A) (l : list A) :
  StronglySorted R l → precedes a b l → R a b.
Proof.
  intros Hs. induction Hs as [|y l Hs IH Hall]; intros Hp.
  { by apply precedes_nil in Hp. }
  apply precedes_cons in Hp as [[-> Hb]|Hp]; [|by apply IH].
  rewrite Forall_forall in Hall. by apply Hall.
Qed.

End Sorting.

(** What [getProducts] returns, and what it leaves behind: the arrays
    that existed are as they were, followed by freshly allocated ones. *)
Lemma getProducts_result (productsData : ref) (params : ProductListRequest)
    (h : heap) (data : list Product.t) :
  h !! productsData = Some data →
  let limit := default 20 (limit params) in
  let offset := (default 1 (page params) - 1) * limit in
  let sorted := ordered toLowerCase Date_getTime params data in
  ∃ ext,
    getProducts toLowerCase Date_getTime productsData params h =
      ({| products := slice offset (offset + limit) sorted;
          total := Z.of_nat (List.length sorted);
          page' := default 1 (page params);
          totalPages := ceilDiv (Z.of_nat (List.length sorted)) limit |},
       h ++ ext).
Proof.
  intros Hd. unfold getProducts, ordered, comparatorOf, filteredOf, alloc.
  cbv zeta.
  assert (deref productsData h = data) as -> by (unfold deref; by rewrite Hd).
  destruct (trimTruthy (default "" (search params)));
  destruct (0 <? Z.of_nat (List.length (default [] (rarity params))));
  destruct (0 <? Z.of_nat (List.length (default [] (series params))));
  destruct (minPrice params); destruct (maxPrice params);
  cbv beta iota;
  rewrite ?deref_alloc, ?sortInPlace_alloc, ?deref_alloc;
  rewrite <- ?app_assoc; eexists; reflexivity.
Qed.

Lemma filteredOf_passes (params : ProductListRequest) (data : list Product.t) :
  filteredOf toLowerCase params data =
  List.filter (passes toLowerCase params) data.
Proof.
  unfold filteredOf, passes. cbv zeta.
  destruct (trimTruthy (default "" (search params)));
  destruct (0 <? Z.of_nat (List.length (default [] (rarity params))));
  destruct (0 <? Z.of_nat (List.length (default [] (series params))));
  destruct (minPrice params); destruct (maxPrice params);
  (induction data as [|x l IH]; [done|]); simpl;
  repeat (match goal with
          | |- context [if ?c then _ else _] => destruct c eqn:?; simpl
          end);
  try discriminate; solve [exact IH | f_equal; exact IH].
Qed.

(** ** Pages *)

Lemma slice_window {A} (l : list A) (a n : Z) :
  0 ≤ a → 0 ≤ n →
  slice a (a + n) l = take (Z.to_nat n) (drop (Z.to_nat a) l).
Proof.
  intros Ha Hn. unfold slice.
  rewrite (proj2 (Z.ltb_ge a 0)), (proj2 (Z.ltb_ge (a + n) 0)) by lia.
  destruct (decide (Z.of_nat (List.length l) ≤ a)) as [Hge|Hlt].
  - rewrite (drop_ge l (Z.to_nat a)) by lia.
    rewrite take_nil, !Z.min_r, Z.sub_diag by lia. done.
  - replace (Z.to_nat (Z.min a (Z.of_nat (List.length l)))) with (Z.to_nat a)
      by lia.
    destruct (decide (a + n ≤ Z.of_nat (List.length l))) as [Hin|Hout].
    + f_equal. lia.
    + rewrite !take_ge; [done|rewrite length_drop; lia..].
Qed.

Lemma chunks_join {A} (l : list A) (size n : nat) :
  (List.length l ≤ n * size)%nat →
  mjoin ((λ i, take size (drop (i * size) l)) <$> seq 0 n) = l.
Proof.
  revert l. induction n as [|n IH]; intros l Hlen.
  { destruct l; [done|simpl in Hlen; lia]. }
  change (seq 0 (S n)) with (0%nat :: seq 1 n).
  rewrite fmap_cons, <- fmap_S_seq, <- list_fmap_compose.
  cbn [mjoin list_join]. rewrite drop_0.
  etrans; [|apply (take_drop size l)]. f_equal.
  rewrite <- (IH (drop size l)) by (rewrite length_drop; lia).
  f_equal. apply list_fmap_ext. intros _ i _. simpl.
  rewrite drop_drop. done.
Qed.

Lemma ceilDiv_pages (t l : Z) :
  0 ≤ t → 1 ≤ l →
  ∃ n, ceilDiv t l = Fin n ∧ 0 ≤ n ∧ t ≤ n * l.
Proof.
  intros Ht Hl. unfold ceilDiv.
  rewrite (proj2 (Z.eqb_neq l 0)) by lia.
  exists (- (- t / l)). split; [done|].
  pose proof (Z.div_mod (- t) l ltac:(lia)).
  pose proof (Z.mod_pos_bound (- t) l ltac:(lia)).
  nia.
Qed.

Lemma pageOf_result (productsData : ref) (params : ProductListRequest)
    (h : heap) (data : list Product.t) (k : Z) :
  h !! productsData = Some data →
  let limit := default 20 (limit params) in
  let sorted := ordered toLowerCase Date_getTime params data in
  pageOf toLowerCase Date_getTime productsData params h k =
    {| products := slice ((k - 1) * limit) ((k - 1) * limit + limit) sorted;
       total := Z.of_nat (List.length sorted);
       page' := k;
       totalPages := ceilDiv (Z.of_nat (List.length sorted)) limit |}.
Proof.
  intros Hd. unfold pageOf.
  destruct (getProducts_result productsData (withPage k params) h data Hd)
    as [ext ->].
  done.
Qed.

(** C4. With a page size of at least 1, the pages 1 to [totalPages] of a
    request, put end to end, are exactly the filtered records in sort
    order: a rearrangement of the records of the collection that pass the
    filters, none twice, none left out; [total] is their number on every
    page; and a page beyond [totalPages] holds no record. *)
Theorem pages_cover_the_filtered_records (productsData : ref)
    (params : ProductListRequest) (h : heap) (data : list Product.t) :
  h !! productsData = Some data →
  1 ≤ default 20 (limit params) →
  let query := pageOf toLowerCase Date_getTime productsData params h in
  let sorted := ordered toLowerCase Date_getTime params data in
  ∃ n : Z,
    0 ≤ n ∧
    (∀ k, totalPages (query k) = Fin n) ∧
    mjoin ((λ k, products (query k)) <$> seqZ 1 n) = sorted ∧
    sorted ≡ₚ List.filter (passes toLowerCase params) data ∧
    (∀ k, total (query k) =
          Z.of_nat (List.length (List.filter (passes toLowerCase params) data))) ∧
    (∀ k, n < k → products (query k) = []).
Proof.
  intros Hd Hl query sorted.
  assert (sorted ≡ₚ List.filter (passes toLowerCase params) data) as Hperm.
  { unfold sorted, ordered. rewrite sort_perm. by rewrite filteredOf_passes. }
  destruct (ceilDiv_pages (Z.of_nat (List.length sorted))
              (default 20 (limit params))) as (n & Hn & Hn0 & Hle);
    [lia|done|].
  assert (∀ k, query k =
    {| products := slice ((k - 1) * default 20 (limit params))
                     ((k - 1) * default 20 (limit params)
                      + default 20 (limit params)) sorted;
       total := Z.of_nat (List.length sorted);
       page' := k; totalPages := Fin n |}) as Hq.
  { intros k. unfold query. rewrite (pageOf_result _ _ _ _ _ Hd).
    fold sorted. by rewrite Hn. }
  exists n. split; [done|]. split; [intros k; by rewrite Hq|].
  split; [|split; [done|split]].
  - unfold seqZ. rewrite <- list_fmap_compose.
    etrans; [|apply (chunks_join sorted (Z.to_nat (default 20 (limit params)))
                       (Z.to_nat n)); nia].
    f_equal. apply list_fmap_ext. intros _ i _. simpl.
    rewrite Hq. simpl. rewrite slice_window by lia.
    repeat f_equal; nia.
  - intros k. rewrite Hq. simpl. by rewrite Hperm.
  - intros k Hk. rewrite Hq. simpl. rewrite slice_window by nia.
    rewrite drop_ge by nia. apply take_nil.
Qed.

(** ** The comparator on rarity *)

Lemma compareFn_rarity (sortOrder : string) (a b : Product.t) :
  ofObjectPrototype (Product.rarityLevel a) = false →
  ofObjectPrototype (Product.rarityLevel b) = false →
  compareFn toLowerCase Date_getTime "rarity" sortOrder a b =
    if rank a <? rank b then (if String.eqb sortOrder "asc" then -1 else 1)
    else if rank b <? rank a then (if String.eqb sortOrder "asc" then 1 else -1)
    else 0.
Proof.
  intros Ha Hb. unfold compareFn, sortValueOf, rank.
  change (String.eqb "rarity" "price") with false.
  change (String.eqb "rarity" "rarity") with true. cbv iota.
  rewrite Ha, Hb.
  by destruct (rarityOrder (Product.rarityLevel a)),
              (rarityOrder (Product.rarityLevel b)).
Qed.

Lemma rarity_ascending (l : list Product.t) :
  Forall (λ p, ofObjectPrototype (Product.rarityLevel p) = false) l →
  StronglySorted (λ a b, rank a ≤ rank b)
    (sort (compareFn toLowerCase Date_getTime "rarity" "asc") l).
Proof.
  apply sort_sorted_on.
  - intros a b c _ _ _. lia.
  - intros a b Ha Hb. rewrite compareFn_rarity by done. simpl.
    destruct (Z.ltb_spec (rank a) (rank b)); [lia|].
    destruct (Z.ltb_spec (rank b) (rank a)); lia.
  - intros a b Ha Hb. rewrite compareFn_rarity by done. simpl.
    destruct (Z.ltb_spec (rank a) (rank b)); [lia|].
    destruct (Z.ltb_spec (rank b) (rank a)); lia.
Qed.

Lemma rarity_descending (sortOrder : string) (l : list Product.t) :
  sortOrder ≠ "asc" →
  Forall (λ p, ofObjectPrototype (Product.rarityLevel p) = false) l →
  StronglySorted (λ a b, rank b ≤ rank a)
    (sort (compareFn toLowerCase Date_getTime "rarity" sortOrder) l).
Proof.
  intros Hd. apply String.eqb_neq in Hd.
  apply sort_sorted_on.
  - intros a b c _ _ _. lia.
  - intros a b Ha Hb. rewrite compareFn_rarity, Hd by done.
    destruct (Z.ltb_spec (rank a) (rank b)); [lia|].
    destruct (Z.ltb_spec (rank b) (rank a)); lia.
  - intros a b Ha Hb. rewrite compareFn_rarity, Hd by done.
    destruct (Z.ltb_spec (rank a) (rank b)); [lia|].
    destruct (Z.ltb_spec (rank b) (rank a)); lia.
Qed.

(** C5. Let the sort keys of the records that pass the filters be
    comparable: the release dates parse when the sort is by release
    date, and no rarity is a name that objects inherit when the sort is
    by rarity. Then the records a query returns are a window of the
    filtered records sorted by the comparator. Under the sort key
    [rarity] the sorted list is in the order of the rank table normal 1,
    rare 2, super_rare 3, hidden 4, sp 5 (non-decreasing rank when
    ascending, non-increasing otherwise), so that no hidden record comes
    before a rare one when ascending, although "hidden" is the smaller
    string. For every sort key and direction, a record that stands before
    another and compares equal to it still stands before it after the
    sort. *)
Theorem rarity_sorts_by_rank_and_sort_is_stable (productsData : ref)
    (params : ProductListRequest) (h : heap) (data : list Product.t) :
  h !! productsData = Some data →
  let cmp := comparatorOf toLowerCase Date_getTime params in
  let kept := List.filter (passes toLowerCase params) data in
  let limit := default 20 (limit params) in
  let offset := (default 1 (page params) - 1) * limit in
  properKeys Date_getTime params kept →
  products (fst (getProducts toLowerCase Date_getTime productsData params h))
    = slice offset (offset + limit) (sort cmp kept) ∧
  rarityOrder <$> ["normal"; "rare"; "super_rare"; "hidden"; "sp"]
    = Some <$> [1; 2; 3; 4; 5] ∧
  String.ltb "hidden" "rare" = true ∧
  (sortBy params = Some "rarity" →
     (default "asc" (sortOrder params) = "asc" →
        StronglySorted (λ a b, rank a ≤ rank b) (sort cmp kept) ∧
        ∀ a b, Product.rarityLevel a = "rare" →
               Product.rarityLevel b = "hidden" →
               ¬ precedes b a (sort cmp kept)) ∧
     (default "asc" (sortOrder params) ≠ "asc" →
        StronglySorted (λ a b, rank b ≤ rank a) (sort cmp kept))) ∧
  (∀ a b, precedes a b kept → cmp a b = 0 → precedes a b (sort cmp kept)).
Proof.
  intros Hd cmp kept limit offset [_ Hkeys].
  split.
  { destruct (getProducts_result productsData params h data Hd) as [ext ->].
    simpl. unfold ordered. by rewrite filteredOf_passes. }
  split; [done|]. split; [done|]. split.
  - intros Hby. unfold cmp, comparatorOf. rewrite Hby in Hkeys |- *.
    specialize (Hkeys eq_refl). simpl.
    split.
    + intros ->. split; [by apply rarity_ascending|].
      intros a b Ha Hb Hp.
      apply (sorted_precedes _ _ _ _ (rarity_ascending kept Hkeys)) in Hp.
      unfold rank in Hp. rewrite Ha, Hb in Hp. simpl in Hp. lia.
    + intros Hne. by apply rarity_descending.
  - intros a b Hp Hc. apply sort_stable; [done|lia].
Qed.

(** ** The collection is not written *)

(** C10. [getProducts] leaves every array that existed before the call,
    the module-level collection among them, with the same elements in the
    same order; and a second query with the same parameters returns the
    same records in the same order, the same [total] and the same
    [totalPages]. *)
Theorem getProducts_leaves_the_collection (productsData : ref)
    (params : ProductListRequest) (h : heap) (data : list Product.t) :
  h !! productsData = Some data →
  let first := getProducts toLowerCase Date_getTime productsData params h in
  let second :=
    getProducts toLowerCase Date_getTime productsData params (snd first) in
  snd first !! productsData = Some data ∧
  (∀ r a, h !! r = Some a → snd first !! r = Some a) ∧
  snd second !! productsData = Some data ∧
  fst second = fst first.
Proof.
  intros Hd first second.
  destruct (getProducts_result productsData params h data Hd) as [ext Hf].
  assert (∀ r a, h !! r = Some a → first.2 !! r = Some a) as Hframe.
  { intros r a Hr. unfold first. rewrite Hf. simpl.
    by apply lookup_app_l_Some. }
  pose proof (Hframe _ _ Hd) as Hd1.
  destruct (getProducts_result productsData params (snd first) data Hd1)
    as [ext' Hs].
  repeat split; try done.
  - unfold second. rewrite Hs. simpl. by apply lookup_app_l_Some.
  - unfold second. rewrite Hs. unfold first. rewrite Hf. done.
Qed.

(** ** Lookup by identifier *)

Lemma find_id_Some (id : string) (data : list Product.t) (p : Product.t) :
  List.find (λ p, String.eqb (Product.id p) id) data = Some p →
  p ∈ data ∧ Product.id p = id.
Proof.
  intros H. apply find_some in H as [Hin Heq].
  split; [by apply list_elem_of_In|]. by apply String.eqb_eq.
Qed.

Lemma find_id_None (id : string) (data : list Product.t) :
  List.find (λ p, String.eqb (Product.id p) id) data = None ↔
  ∀ p, p ∈ data → Product.id p ≠ id.
Proof.
  split.
  - intros H p Hin. apply list_elem_of_In in Hin.
    apply (find_none _ _ H) in Hin. by apply String.eqb_neq.
  - intros H. destruct (List.find _ data) as [p|] eqn:E; [|done].
    apply find_id_Some in E as [Hin Heq]. by apply H in Hin.
Qed.

Lemma find_id_first (id : string) (data : list Product.t) (p : Product.t) :
  List.find (λ p, String.eqb (Product.id p) id) data = Some p →
  ∃ before after,
    data = before ++ p :: after ∧ ∀ q, q ∈ before → Product.id q ≠ id.
Proof.
  induction data as [|x data IH]; [done|]. cbn [List.find].
  destruct (String.eqb_spec (Product.id x) id) as [Hx|Hx].
  - intros [= ->]. exists [], data. split; [done|].
    intros q Hq. by apply elem_of_nil in Hq.
  - intros H. destruct (IH H) as (before & after & -> & Hb).
    exists (x :: before), after. split; [done|].
    intros q Hq. apply elem_of_cons in Hq as [->|Hq]; [done|by apply Hb].
Qed.

Lemma message_is_recognised :
  includes "找不到指定的產品" "找不到" = true.
Proof. vm_compute. reflexivity. Qed.

Lemma GET_cases (id : string) (productsData : list Product.t) :
  ProductRoute.GET id productsData =
  if RouteSpec.wellFormed id then
    match List.find (λ p, String.eqb (Product.id p) id) productsData with
    | Some _ =>
        match getProductById id productsData with
        | Returns result =>
            {| ProductRoute.status := 200; ProductRoute.success := true;
               ProductRoute.error := None;
               ProductRoute.data := Some result |}
        | Throws _ => ProductRoute.failure 404 "找不到指定的產品"
        end
    | None => ProductRoute.failure 404 "找不到指定的產品"
    end
  else if String.eqb id EmptyString then ProductRoute.failure 400 "無效的產品ID"
  else ProductRoute.failure 400 "產品ID格式不正確".
Proof.
  unfold ProductRoute.GET, RouteSpec.wellFormed.
  destruct id as [|c id']; [done|].
  cbn [String.eqb ProductRoute.idRegex_test].
  destruct (ProductRoute.allChars ProductRoute.idChar (String c id'));
    cbn [negb orb andb]; [|done].
  destruct (Z.ltb_spec 50 (Z.of_nat (String.length (String c id'))));
    destruct (Z.leb_spec (Z.of_nat (String.length (String c id'))) 50);
    try lia; [done|].
  unfold getProductById.
  destruct (List.find _ productsData); [done|].
  by rewrite message_is_recognised.
Qed.

(** C8, as the code has it. A lookup by an identifier that some record
    has returns the first record of the collection with that identifier,
    with the first four other records of its series; a lookup by an
    identifier that no record has throws the error "product not found"
    and returns no value, and the route, given an identifier that passes
    its format check, catches the error and answers 404. *)
Theorem getProductById_returns_or_throws (id : string)
    (data : list Product.t) :
  ((∃ p, p ∈ data ∧ Product.id p = id) →
     ∃ r, getProductById id data = Returns r ∧
          product r ∈ data ∧ Product.id (product r) = id ∧
          (∃ before after,
             data = before ++ product r :: after ∧
             ∀ q, q ∈ before → Product.id q ≠ id) ∧
          relatedProducts r =
            take 4 (List.filter
                      (λ q, String.eqb (Product.series q)
                                       (Product.series (product r))
                            && negb (String.eqb (Product.id q) id))
                      data) ∧
          (∀ q, q ∈ relatedProducts r →
                q ∈ data ∧ Product.series q = Product.series (product r) ∧
                Product.id q ≠ id) ∧
          (List.length (relatedProducts r) ≤ 4)%nat) ∧
  ((∀ p, p ∈ data → Product.id p ≠ id) →
     getProductById id data = Throws "找不到指定的產品" ∧
     (RouteSpec.wellFormed id = true →
      ProductRoute.GET id data =
        {| ProductRoute.status := 404; ProductRoute.success := false;
           ProductRoute.error := Some "找不到指定的產品";
           ProductRoute.data := None |})).
Proof.
  split.
  - unfold getProductById. intros (p & Hin & Hid).
    destruct (List.find _ data) as [p'|] eqn:E.
    + pose proof (find_id_first _ _ _ E) as Hfirst.
      apply find_id_Some in E as [Hin' Hid'].
      eexists. split; [done|]. simpl.
      split; [done|]. split; [done|]. split; [exact Hfirst|].
      split; [done|]. split.
      * intros q H. split_and!.
        -- apply list_elem_of_In. apply elem_of_take in H as (i & H & _).
           apply list_elem_of_lookup_2 in H. apply list_elem_of_In in H.
           by apply filter_In in H as [? _].
        -- apply elem_of_take in H as (i & H & _).
           apply list_elem_of_lookup_2 in H. apply list_elem_of_In in H.
           apply filter_In in H as [_ H]. apply andb_prop in H as [H _].
           by apply String.eqb_eq.
        -- apply elem_of_take in H as (i & H & _).
           apply list_elem_of_lookup_2 in H. apply list_elem_of_In in H.
           apply filter_In in H as [_ H]. apply andb_prop in H as [_ H].
           apply negb_true_iff in H. by apply String.eqb_neq.
      * rewrite length_take. lia.
    + exfalso. by eapply find_id_None in E.
  - intros Hnone. apply find_id_None in Hnone. split.
    + unfold getProductById. by rewrite Hnone.
    + intros Hw. by rewrite GET_cases, Hw, Hnone.
Qed.

(** C8, as the specification has it, fails: on the empty collection no
    identifier is present, and the lookup returns no value. *)
Lemma absence_is_not_a_value : ¬ absenceIsAValue "p1" [].
Proof.
  intros H. destruct H as [r Hr].
  - intros p Hp. by apply elem_of_nil in Hp.
  - discriminate Hr.
Qed.

End QueryFacts.


(** * Properties of the field manager *)

Section ObjectFacts.
Import FieldManager MutationSpec.

Lemma stringify_parse (o : object) : stringify (parse o) = o.
Proof.
  unfold stringify, parse. induction o as [|[k v] o IH]; [done|].
  cbn. f_equal. exact IH.
Qed.

Lemma hasOwnProperty_parse (k : string) (o : object) :
  hasOwnProperty k (parse o) = hasOwnProperty k o.
Proof.
  unfold hasOwnProperty, parse. induction o as [|[k' v] o IH]; [done|].
  cbn. f_equal. exact IH.
Qed.

Lemma index_parse (k : string) (o : object) : index k (parse o) = get k o.
Proof.
  unfold index, get, parse. induction o as [|[k' v] o IH]; [done|].
  cbn. destruct (String.eqb k' k); [done|]. exact IH.
Qed.

Lemma set_parse (k : string) (v : value) (o : object) :
  set k (Some v) (parse o) = parse (set k v o).
Proof.
  unfold parse. induction o as [|[k' w] o IH]; [done|].
  cbn. destruct (String.eqb k' k); [done|].
  cbn. f_equal. exact IH.
Qed.

Lemma rest_parse (k : string) (o : object) :
  rest k (parse o) = parse (rest k o).
Proof.
  unfold rest, parse. induction o as [|[k' w] o IH]; [done|].
  cbn. destruct (String.eqb k' k); cbn; [exact IH|].
  f_equal. exact IH.
Qed.

Section Props.
Context {V : Type}.
Implicit Types (o : list (string * V)) (k : string) (v : V).

Lemma get_hasOwnProperty k o :
  hasOwnProperty k o = true ↔ is_Some (get k o).
Proof.
  unfold hasOwnProperty, get. induction o as [|[k' w] o IH]; simpl.
  - split; [done|]. by intros [? ?].
  - destruct (String.eqb k' k); simpl; [|exact IH].
    split; [by eexists|done].
Qed.

Lemma get_None k o : hasOwnProperty k o = false ↔ get k o = None.
Proof.
  rewrite <- not_true_iff_false, get_hasOwnProperty.
  split; [apply eq_None_not_Some|]. intros -> [? ?]. done.
Qed.

Lemma set_present k v o : get k o = Some v → set k v o = o.
Proof.
  unfold get. induction o as [|[k' w] o IH]; simpl; [done|].
  destruct (String.eqb k' k); simpl.
  - by intros [= ->].
  - intros H. f_equal. by apply IH.
Qed.

Lemma set_absent k v o : hasOwnProperty k o = false → set k v o = o ++ [(k, v)].
Proof.
  unfold hasOwnProperty. induction o as [|[k' w] o IH]; simpl; [done|].
  destruct (String.eqb k' k); simpl; [done|].
  intros H. f_equal. by apply IH.
Qed.

Lemma get_app k o1 o2 :
  get k (o1 ++ o2) = match get k o1 with Some v => Some v | None => get k o2 end.
Proof.
  unfold get. induction o1 as [|[k' w] o1 IH]; simpl; [done|].
  destruct (String.eqb k' k); simpl; [done|]. exact IH.
Qed.

Lemma get_rest k k' o :
  get k (rest k' o) = if String.eqb k' k then None else get k o.
Proof.
  unfold get, rest. induction o as [|[k0 w] o IH]; simpl.
  - by destruct (String.eqb k' k).
  - destruct (String.eqb k0 k') eqn:E1; simpl.
    + apply String.eqb_eq in E1 as ->.
      destruct (String.eqb k' k) eqn:E2; [exact IH|]. by rewrite <- IH.
    + destruct (String.eqb k0 k) eqn:E2; simpl; [|exact IH].
      apply String.eqb_eq in E2 as ->.
      rewrite String.eqb_sym, E1. done.
Qed.

Lemma hasOwnProperty_rest k o : hasOwnProperty k (rest k o) = false.
Proof. apply get_None. by rewrite get_rest, String.eqb_refl. Qed.

Lemma rest_absent k o : hasOwnProperty k o = false → rest k o = o.
Proof.
  unfold hasOwnProperty, rest. induction o as [|[k' w] o IH]; simpl; [done|].
  destruct (String.eqb k' k); simpl; [done|].
  intros H. f_equal. by apply IH.
Qed.

Lemma rest_app k o1 o2 : rest k (o1 ++ o2) = rest k o1 ++ rest k o2.
Proof. apply List.filter_app. Qed.

End Props.

(** What the callbacks make of a record of a file. *)

Lemma addField_record (f : string) (d : value) (r : object) :
  stringify (addFieldTo f d (parse r)) =
    if hasOwnProperty f r then r else r ++ [(f, d)].
Proof.
  unfold addFieldTo. rewrite hasOwnProperty_parse, index_parse.
  destruct (hasOwnProperty f r) eqn:E.
  - apply get_hasOwnProperty in E as [v Hv]. rewrite Hv.
    rewrite set_parse, stringify_parse. by apply set_present.
  - rewrite set_parse, stringify_parse. by apply set_absent.
Qed.

Lemma renameField_record (o n : string) (r : object) :
  stringify (renameFieldIn o n (parse r)) =
    match get o r with
    | Some v => set n v (rest o r)
    | None => r
    end.
Proof.
  unfold renameFieldIn. rewrite hasOwnProperty_parse, index_parse.
  destruct (hasOwnProperty o r) eqn:E.
  - apply get_hasOwnProperty in E as [v Hv]. rewrite Hv.
    by rewrite rest_parse, set_parse, stringify_parse.
  - apply get_None in E. rewrite E. apply stringify_parse.
Qed.

Lemma removeField_record (f : string) (r : object) :
  stringify (removeFieldFrom f (parse r)) = rest f r.
Proof. unfold removeFieldFrom. by rewrite rest_parse, stringify_parse. Qed.

Lemma addField_record_idempotent (f : string) (d : value) (r : object) :
  stringify (addFieldTo f d (parse (stringify (addFieldTo f d (parse r))))) =
  stringify (addFieldTo f d (parse r)).
Proof.
  rewrite !addField_record.
  destruct (hasOwnProperty f r) eqn:E; [by rewrite E|].
  assert (hasOwnProperty f (r ++ [(f, d)]) = true) as ->; [|done].
  apply get_hasOwnProperty. rewrite get_app.
  destruct (get f r); [by eexists|]. unfold get. simpl.
  rewrite String.eqb_refl. by eexists.
Qed.


End ObjectFacts.

Section StoreFacts.
Import FieldManager MutationSpec.

(** The constructor lists each file once. *)
Lemma initializeFiles_NoDup (s : fs) : NoDup (productFiles (initializeFiles s)).
Proof. apply NoDup_fst_map_to_list. Qed.

Lemma perform_batch (mu : mutation) (m : t) (s : fs) :
  perform mu m s = batch (callback mu) m s.
Proof. by destruct mu. Qed.

(** ** One round of the loop *)

Lemma processFile_spec (cb : jsobject → jsobject) (r : report) (s : fs)
    (f : string) :
  let s' := snd (processFile cb (r, s) f) in
  files s' = rewriteFile cb (readOnly s) f (files s) ∧
  readOnly s' = readOnly s ∧
  backupDirWritable s' = backupDirWritable s ∧
  backups s' = backups s ∧
  ∃ t, trace s' = trace s ++ t ∧ Forall (λ o, isBackupOp o = false) t.
Proof.
  unfold processFile, readProductFile, writeProductFile, rewriteFile.
  simpl. destruct (files s !! f) as [[records|]|]; simpl.
  - destruct (decide (f ∈ readOnly s)); simpl; repeat split; try done.
    + exists [ReadFile f; WriteFailed f]. rewrite <- app_assoc.
      split; [done|]. by repeat constructor.
    + exists [ReadFile f; WriteFile f]. rewrite <- app_assoc.
      split; [done|]. by repeat constructor.
  - repeat split; try done. exists [ReadFile f]. split; [done|].
    by repeat constructor.
  - repeat split; try done. exists [ReadFile f]. split; [done|].
    by repeat constructor.
Qed.

Lemma processAll_spec (cb : jsobject → jsobject) (paths : list string)
    (r : report) (s : fs) :
  let s' := snd (foldl (processFile cb) (r, s) paths) in
  files s' = foldl (λ m f, rewriteFile cb (readOnly s) f m) (files s) paths ∧
  readOnly s' = readOnly s ∧
  backupDirWritable s' = backupDirWritable s ∧
  backups s' = backups s ∧
  ∃ t, trace s' = trace s ++ t ∧ Forall (λ o, isBackupOp o = false) t.
Proof.
  cbv zeta. revert r s. induction paths as [|f paths IH]; intros r s.
  { simpl. repeat split; try done. exists []. by rewrite app_nil_r. }
  cbn [foldl].
  pose proof (processFile_spec cb r s f) as (Hf & Hro & Hb & Hbk & t1 & Ht1 & Hn1).
  destruct (processFile cb (r, s) f) as [r1 s1]. cbn [snd] in *.
  destruct (IH r1 s1) as (Hf' & Hro' & Hb' & Hbk' & t2 & Ht2 & Hn2).
  rewrite Hf', Hro', Hb', Hbk', Ht2, Hf, Hro, Hb, Hbk, Ht1.
  repeat split; try done.
  exists (t1 ++ t2). rewrite app_assoc. split; [done|]. by apply Forall_app.
Qed.

(** ** The files after the loop, file by file *)

Lemma lookup_rewriteFile (cb : jsobject → jsobject) (ro : gset string)
    (f q : string) (m : gmap string content) :
  rewriteFile cb ro f m !! q =
    if decide (q = f ∧ f ∉ ro) then rewriteContent cb <$> m !! q else m !! q.
Proof.
  unfold rewriteFile. destruct (m !! f) as [[records|]|] eqn:E.
  - destruct (decide (f ∈ ro)).
    + rewrite decide_False; [done|]. tauto.
    + destruct (decide (q = f)) as [->|Hne].
      * rewrite decide_True by done. by rewrite lookup_insert_eq, E.
      * rewrite decide_False by tauto. by rewrite lookup_insert_ne.
  - case_decide as H; [|done]. destruct H as [-> _]. by rewrite E.
  - case_decide as H; [|done]. destruct H as [-> _]. by rewrite E.
Qed.

Lemma lookup_rewriteAll (cb : jsobject → jsobject) (ro : gset string)
    (paths : list string) (q : string) (m : gmap string content) :
  NoDup paths ∨ (∀ c, rewriteContent cb (rewriteContent cb c) = rewriteContent cb c) →
  foldl (λ m f, rewriteFile cb ro f m) m paths !! q =
    if decide (q ∈ paths ∧ q ∉ ro) then rewriteContent cb <$> m !! q
    else m !! q.
Proof.
  intros Hyp. revert m. induction paths as [|f paths IH]; intros m.
  { cbn [foldl]. rewrite decide_False; [done|].
    intros [H _]. by apply elem_of_nil in H. }
  cbn [foldl]. rewrite IH, lookup_rewriteFile.
  2:{ destruct Hyp as [Hnd|Hid]; [left|by right]. by apply NoDup_cons in Hnd as [_ ?]. }
  destruct (decide (q = f)) as [->|Hne].
  - destruct (decide (f ∈ ro)) as [Hro|Hro].
    + rewrite !decide_False; [done|tauto..].
    + rewrite (decide_True (P := f = f ∧ f ∉ ro)) by done.
      rewrite (decide_True (P := f ∈ f :: paths ∧ f ∉ ro))
        by (split; [by left|done]).
      case_decide as Hin; [|done].
      destruct Hyp as [Hnd|Hid].
      * apply NoDup_cons in Hnd as [Hnot _]. tauto.
      * destruct (m !! f); simpl; [|done]. by rewrite Hid.
  - rewrite (decide_False (P := q = f ∧ f ∉ ro)) by tauto.
    apply decide_ext. rewrite elem_of_cons. tauto.
Qed.

Lemma is_Some_rewriteAll (cb : jsobject → jsobject) (ro : gset string)
    (paths : list string) (q : string) (m : gmap string content) :
  is_Some (foldl (λ m f, rewriteFile cb ro f m) m paths !! q) ↔ is_Some (m !! q).
Proof.
  revert m. induction paths as [|f paths IH]; intros m; [done|].
  cbn [foldl]. rewrite IH, lookup_rewriteFile.
  case_decide; [|done]. apply fmap_is_Some.
Qed.

(** ** The backup *)

Lemma forEach_copy (paths : list string) (s : fs)
    (snapshot : gmap string content) (older : list (gmap string content)) :
  backups s = snapshot :: older →
  match forEach copyFileSync paths s with
  | Done _ s' =>
      forallb (λ f, bool_decide (is_Some (files s !! f))) paths = true ∧
      files s' = files s ∧ readOnly s' = readOnly s ∧
      backupDirWritable s' = backupDirWritable s ∧
      (∃ snapshot', backups s' = snapshot' :: older ∧
         ∀ g, snapshot' !! g =
              if decide (g ∈ paths) then files s !! g else snapshot !! g) ∧
      trace s' = trace s ++ (CopyFile <$> paths)
  | Failed s' =>
      forallb (λ f, bool_decide (is_Some (files s !! f))) paths = false ∧
      files s' = files s ∧ readOnly s' = readOnly s ∧
      backupDirWritable s' = backupDirWritable s ∧
      ∃ t, trace s' = trace s ++ t ∧ Forall (λ o, isWriteOp o = false) t
  end.
Proof.
  revert s snapshot. induction paths as [|f paths IH]; intros s snapshot Hb.
  { cbn [forEach forallb]. repeat split; try done.
    - exists snapshot. split; [done|]. intros g.
      rewrite decide_False; [done|]. apply not_elem_of_nil.
    - rewrite fmap_nil. by rewrite app_nil_r. }
  cbn [forEach forallb]. unfold copyFileSync at 1. rewrite Hb.
  destruct (files s !! f) as [c|] eqn:Ef.
  - rewrite bool_decide_eq_true_2 by done. rewrite andb_true_l.
    match goal with |- context [forEach _ _ ?s1] =>
      specialize (IH s1 (<[f := c]> snapshot) eq_refl); cbn [files readOnly backupDirWritable backups trace] in IH;
      destruct (forEach copyFileSync paths s1) as [[] s'|s']
    end.
    + destruct IH as (Hall & Hf & Hro & Hbd & (sn & Hsn & Hlook) & Ht).
      repeat split; try done.
      * exists sn. split; [done|]. intros g. rewrite Hlook.
        destruct (decide (g = f)) as [->|Hne].
        -- rewrite (decide_True (P := f ∈ f :: paths)) by by left.
           case_decide; [done|]. by rewrite lookup_insert_eq.
        -- rewrite lookup_insert_ne by done.
           apply decide_ext. rewrite elem_of_cons. tauto.
      * rewrite Ht, <- app_assoc. done.
    + destruct IH as (Hall & Hf & Hro & Hbd & t & Ht & Hn).
      repeat split; try done.
      exists (CopyFile f :: t). rewrite Ht, <- app_assoc. split; [done|].
      by constructor.
  - rewrite bool_decide_eq_false_2 by (intros [? ?]; done).
    rewrite andb_false_l.
    repeat split; try done. exists [CopyFailed f]. split; [done|].
    by repeat constructor.
Qed.

Lemma createBackup_spec (m : t) (s : fs) :
  match createBackup m s with
  | Done _ s' =>
      backupSucceeds m s = true ∧
      files s' = files s ∧ readOnly s' = readOnly s ∧
      backupDirWritable s' = backupDirWritable s ∧
      (∃ snapshot, backups s' = snapshot :: backups s ∧
         ∀ g, snapshot !! g =
              if decide (g ∈ productFiles m) then files s !! g else None) ∧
      trace s' = trace s ++ Mkdir :: (CopyFile <$> productFiles m)
  | Failed s' =>
      backupSucceeds m s = false ∧
      files s' = files s ∧ readOnly s' = readOnly s ∧
      backupDirWritable s' = backupDirWritable s ∧
      ∃ t, trace s' = trace s ++ t ∧ Forall (λ o, isWriteOp o = false) t
  end.
Proof.
  unfold createBackup, mkdirSync, backupSucceeds.
  destruct (backupDirWritable s) eqn:Ew.
  - rewrite andb_true_l.
    match goal with |- context [forEach _ _ ?s1] =>
      pose proof (forEach_copy (productFiles m) s1 ∅ (backups s) eq_refl) as H;
      cbn [files readOnly backupDirWritable backups trace] in H;
      destruct (forEach copyFileSync (productFiles m) s1) as [[] s'|s']
    end.
    + destruct H as (Hall & Hf & Hro & Hbd & (sn & Hsn & Hlook) & Ht).
      repeat split; try done; try congruence.
      * exists sn. split; [done|]. intros g. rewrite Hlook.
        case_decide; [done|]. apply lookup_empty.
      * rewrite Ht, <- app_assoc. done.
    + destruct H as (Hall & Hf & Hro & Hbd & t & Ht & Hn).
      repeat split; try done; try congruence.
      exists (Mkdir :: t). rewrite Ht, <- app_assoc. split; [done|].
      by constructor.
  - rewrite andb_false_l.
    repeat split; try done. exists [MkdirFailed]. split; [done|].
    by repeat constructor.
Qed.

(** ** A whole operation *)

Lemma batch_spec (cb : jsobject → jsobject) (m : t) (s : fs) :
  match batch cb m s with
  | Done _ s' =>
      backupSucceeds m s = true ∧
      files s' =
        foldl (λ fm f, rewriteFile cb (readOnly s) f fm) (files s)
          (productFiles m) ∧
      readOnly s' = readOnly s ∧
      backupDirWritable s' = backupDirWritable s ∧
      (∃ snapshot, backups s' = snapshot :: backups s ∧
         ∀ g, snapshot !! g =
              if decide (g ∈ productFiles m) then files s !! g else None) ∧
      ∃ t, trace s' = trace s ++ (Mkdir :: (CopyFile <$> productFiles m)) ++ t ∧
           Forall (λ o, isBackupOp o = false) t
  | Failed s' =>
      backupSucceeds m s = false ∧
      files s' = files s ∧ readOnly s' = readOnly s ∧
      backupDirWritable s' = backupDirWritable s ∧
      ∃ t, trace s' = trace s ++ t ∧ Forall (λ o, isWriteOp o = false) t
  end.
Proof.
  unfold batch. pose proof (createBackup_spec m s) as H.
  destruct (createBackup m s) as [[] s1|s1]; [|done].
  destruct H as (Hok & Hf & Hro & Hbd & Hsn & Ht).
  unfold processAll.
  pose proof (processAll_spec cb (productFiles m)
                {| totalProducts := 0; processedFiles := 0 |} s1)
    as (Hf' & Hro' & Hbd' & Hbk' & t & Ht' & Hn).
  destruct (foldl _ _ (productFiles m)) as [r s2]. simpl in *.
  rewrite Hf', Hro', Hbd', Hbk', Ht', Hf, Hro, Hbd, Ht.
  repeat split; try done.
  exists t. rewrite <- app_assoc. done.
Qed.

Lemma backupSucceeds_ext (m : t) (s1 s2 : fs) :
  backupDirWritable s1 = backupDirWritable s2 →
  (∀ q, is_Some (files s1 !! q) ↔ is_Some (files s2 !! q)) →
  backupSucceeds m s1 = backupSucceeds m s2.
Proof.
  intros Hb Hf. unfold backupSucceeds. rewrite Hb. f_equal.
  induction (productFiles m) as [|f l IH]; [done|].
  cbn [forallb]. f_equal; [apply bool_decide_ext, Hf|exact IH].
Qed.

(** The state an operation leaves, file by file. *)
Lemma after_batch (cb : jsobject → jsobject) (m : t) (s : fs) :
  NoDup (productFiles m) ∨
  (∀ c, rewriteContent cb (rewriteContent cb c) = rewriteContent cb c) →
  let s' := stateOf (batch cb m s) in
  (∀ q, files s' !! q =
        if decide (backupSucceeds m s = true ∧ q ∈ productFiles m ∧
                   q ∉ readOnly s)
        then rewriteContent cb <$> files s !! q
        else files s !! q) ∧
  readOnly s' = readOnly s ∧
  backupSucceeds m s' = backupSucceeds m s.
Proof.
  intros Hyp. cbv zeta. pose proof (batch_spec cb m s) as H.
  destruct (batch cb m s) as [r s'|s']; cbn [stateOf].
  - destruct H as (Hok & Hf & Hro & Hbd & _ & _).
    split; [|split; [done|]].
    + intros q. rewrite Hf, lookup_rewriteAll by done.
      apply decide_ext. tauto.
    + apply backupSucceeds_ext; [done|]. intros q.
      rewrite Hf. apply is_Some_rewriteAll.
  - destruct H as (Hok & Hf & Hro & Hbd & _).
    split; [|split; [done|]].
    + intros q. rewrite Hf, decide_False; [done|].
      intros [? _]. congruence.
    + apply backupSucceeds_ext; [done|]. by rewrite Hf.
Qed.

Lemma backupSucceeds_present (m : t) (s : fs) (f : string) :
  backupSucceeds m s = true → f ∈ productFiles m → is_Some (files s !! f).
Proof.
  unfold backupSucceeds. intros [_ H]%andb_prop Hin.
  rewrite forallb_forall in H. apply list_elem_of_In in Hin.
  apply H in Hin. by apply bool_decide_eq_true in Hin.
Qed.

(** ** C1 *)



(** ** C2 *)

(** C2. A batch mutation that returns has first made a backup directory
    and copied every listed file into it, each as it was before the
    mutation, and only then read or written any file: in the trace the
    [Mkdir] and the copies come first and no backup operation follows
    them. A batch mutation fails exactly when [createBackup] fails, and
    then every file is as it was and no write has been performed. *)
Theorem backup_comes_before_every_write (mu : mutation) (m : t) (s : fs) :
  match perform mu m s with
  | Done _ s' =>
      (∃ snapshot, backups s' = snapshot :: backups s ∧
         ∀ f, f ∈ productFiles m →
              is_Some (files s !! f) ∧ snapshot !! f = files s !! f) ∧
      (∃ t, trace s' = trace s ++ (Mkdir :: (CopyFile <$> productFiles m)) ++ t ∧
            Forall (λ o, isBackupOp o = false) t) ∧
      ∃ s1, createBackup m s = Done tt s1
  | Failed s' =>
      createBackup m s = Failed s' ∧
      files s' = files s ∧
      ∃ t, trace s' = trace s ++ t ∧ Forall (λ o, isWriteOp o = false) t
  end.
Proof.
  rewrite perform_batch. pose proof (batch_spec (callback mu) m s) as H.
  unfold batch in *.
  destruct (createBackup m s) as [[] s1|s1] eqn:Eb.
  - destruct (processAll (callback mu) m s1) as [r s2].
    destruct H as (Hok & _ & _ & _ & (snapshot & Hsn & Hlook) & Ht).
    split; [|split; [done|by exists s1]].
    exists snapshot. split; [done|]. intros f Hin.
    split; [by eapply backupSucceeds_present|].
    by rewrite Hlook, decide_True.
  - destruct H as (_ & Hf & _ & _ & Ht). done.
Qed.

(** ** C6 *)

Lemma addField_content_idempotent (f : string) (d : value) (c : content) :
  rewriteContent (addFieldTo f d) (rewriteContent (addFieldTo f d) c) =
  rewriteContent (addFieldTo f d) c.
Proof.
  destruct c as [records|]; [|done]. simpl. f_equal.
  rewrite <- !list_fmap_compose. apply list_fmap_ext. intros _ r _.
  apply addField_record_idempotent.
Qed.

(** C6. [addField] leaves a record that has the field as it is, and
    gives a record that lacks it the field with the default value: so on
    each record, and so in every listed file that it rewrites. Running
    [addField] a second time with the same arguments leaves every file as
    the first run left it. *)
Theorem addField_fills_only_and_is_idempotent (m : t) (fieldName : string)
    (defaultValue : value) (s : fs) :
  let s1 := stateOf (addField m fieldName defaultValue s) in
  let s2 := stateOf (addField m fieldName defaultValue s1) in
  (∀ r : object,
     stringify (addFieldTo fieldName defaultValue (parse r)) =
       fillIn fieldName defaultValue r ∧
     (hasOwnProperty fieldName r = true →
        fillIn fieldName defaultValue r = r) ∧
     (hasOwnProperty fieldName r = false →
        get fieldName (fillIn fieldName defaultValue r) = Some defaultValue ∧
        ∀ k, k ≠ fieldName →
             get k (fillIn fieldName defaultValue r) = get k r)) ∧
  (∀ q records,
     backupSucceeds m s = true → q ∈ productFiles m → q ∉ readOnly s →
     files s !! q = Some (Shard records) →
     files s1 !! q = Some (Shard (fillIn fieldName defaultValue <$> records))) ∧
  files s2 = files s1.
Proof.
  intros s1 s2. unfold addField in *.
  pose proof (after_batch (addFieldTo fieldName defaultValue) m s
                (or_intror (addField_content_idempotent _ _)))
    as (Hf1 & Hro1 & Hok1).
  pose proof (after_batch (addFieldTo fieldName defaultValue) m s1
                (or_intror (addField_content_idempotent _ _)))
    as (Hf2 & _ & _).
  fold s1 in Hf1, Hro1, Hok1. fold s2 in Hf2.
  split; [|split].
  - intros r. split; [apply addField_record|]. unfold fillIn. split.
    + by intros ->.
    + intros Hno. rewrite Hno. split.
      * rewrite get_app. apply get_None in Hno. rewrite Hno.
        unfold get. simpl. by rewrite String.eqb_refl.
      * intros k Hk. rewrite get_app. destruct (get k r); [done|].
        unfold get. simpl. apply String.eqb_neq in Hk.
        by rewrite String.eqb_sym, Hk.
  - intros q records Hok Hin Hro Hq.
    rewrite Hf1, decide_True, Hq by tauto. simpl. do 2 f_equal.
    rewrite <- !list_fmap_compose. apply list_fmap_ext. intros _ r _.
    apply addField_record.
  - apply map_eq. intros q. rewrite Hf2, Hok1, Hro1, Hf1.
    destruct (decide _); [|done].
    destruct (files s !! q) as [c|]; [|done]. simpl.
    by rewrite addField_content_idempotent.
Qed.

(** ** C7 *)



End StoreFacts.


(** * Instances *)

Section Instances.
Import Samples.

(** The loader on a store whose second series is missing. *)
Lemma performLoad_skips_failed_shards_witness :
  ProductLoader.performLoad twoSeries = (["b"], ProductLoader.Fulfilled [p1]).
Proof.
  pose proof (performLoad_skips_failed_shards twoSeries _ eq_refl) as [H _].
  exact H.
Defined.

(** Three callers before the load completes. *)
Lemma load_is_shared_witness :
  let st := ProductLoader.run twoSeries
              (replicate 3 ProductLoader.Call ++
               ProductLoader.Settle 0 ::
               (ProductLoader.Resume <$> seq 0 3))
              ProductLoader.initial in
  ProductLoader.callers st =
    replicate 3 (ProductLoader.Returned (ProductLoader.Fulfilled [p1])) ∧
  ProductLoader.imports st = ["_index.json"; "a.json"; "b.json"].
Proof.
  pose proof (load_is_shared twoSeries _ eq_refl) as [_ H].
  destruct (H 3%nat ltac:(lia)) as (Hc & _ & Hi & _).
  split; [exact Hc|exact Hi].
Defined.

(** The scenario of the specification: two records, sorted by price. *)
Example query_by_price :
  fst (ProductService.getProducts lowerCase noDate 0 byPrice [[p1; p2]]) =
    {| ProductService.products := [p2; p1]; ProductService.total := 2;
       ProductService.page' := 1; ProductService.totalPages := Fin 1 |}.
Proof. reflexivity. Qed.

Example query_by_rarity :
  ProductService.products
    (fst (ProductService.getProducts lowerCase noDate 0 byRarity
            [[p3; p1; p2]])) = [p2; p1].
Proof. reflexivity. Qed.

Example query_second_page :
  ProductService.products
    (QuerySpec.pageOf lowerCase noDate 0 byRarity [[p3; p1; p2]] 2) = [p3].
Proof. reflexivity. Qed.

(** Sorting the collection itself would have written it. *)
Example sort_writes_in_place :
  ProductService.sortInPlace
    (ProductService.compareFn lowerCase noDate "price" "asc") 0 [[p1; p2]]
  = [[p2; p1]].
Proof. reflexivity. Qed.

Lemma pages_cover_the_filtered_records_witness :
  [[p3; p1; p2]] !! 0%nat = Some [p3; p1; p2] ∧
  1 ≤ default 20 (ProductService.limit byRarity) ∧
  ∃ n : Z,
    mjoin ((λ k, ProductService.products
                   (QuerySpec.pageOf lowerCase noDate 0 byRarity
                      [[p3; p1; p2]] k)) <$> seqZ 1 n) =
    QuerySpec.ordered lowerCase noDate byRarity [p3; p1; p2].
Proof.
  split; [reflexivity|]. split; [vm_compute; discriminate|].
  destruct (pages_cover_the_filtered_records lowerCase noDate 0 byRarity
              [[p3; p1; p2]] [p3; p1; p2] eq_refl)
    as (n & _ & _ & Hjoin & _).
  - vm_compute. discriminate.
  - exists n. exact Hjoin.
Defined.

Lemma rarity_sorts_by_rank_and_sort_is_stable_witness :
  [[p3; p1; p2]] !! 0%nat = Some [p3; p1; p2] ∧
  QuerySpec.properKeys noDate byRarity
    (List.filter (QuerySpec.passes lowerCase byRarity) [p3; p1; p2]) ∧
  ¬ QuerySpec.precedes p3 p1
      (ProductService.sort (QuerySpec.comparatorOf lowerCase noDate byRarity)
         (List.filter (QuerySpec.passes lowerCase byRarity) [p3; p1; p2])).
Proof.
  assert (QuerySpec.properKeys noDate byRarity
            (List.filter (QuerySpec.passes lowerCase byRarity) [p3; p1; p2]))
    as Hkeys.
  { split; [intros H; discriminate H|]. intros _.
    repeat constructor. }
  split; [reflexivity|]. split; [exact Hkeys|].
  pose proof (rarity_sorts_by_rank_and_sort_is_stable lowerCase noDate 0
                byRarity [[p3; p1; p2]] [p3; p1; p2] eq_refl Hkeys)
    as (_ & _ & _ & Hr & _).
  destruct (Hr eq_refl) as [Hasc _].
  destruct (Hasc eq_refl) as [_ Hrare].
  apply Hrare; reflexivity.
Defined.

Lemma getProducts_leaves_the_collection_witness :
  [[p3; p1; p2]] !! 0%nat = Some [p3; p1; p2] ∧
  snd (ProductService.getProducts lowerCase noDate 0 byRarity [[p3; p1; p2]])
    !! 0%nat = Some [p3; p1; p2].
Proof.
  split; [reflexivity|].
  pose proof (getProducts_leaves_the_collection lowerCase noDate 0 byRarity
                [[p3; p1; p2]] [p3; p1; p2] eq_refl) as (H & _).
  exact H.
Defined.

Lemma getProductById_returns_or_throws_witness :
  ProductService.getProductById "p9" [p1; p2] = Throws "找不到指定的產品" ∧
  ProductRoute.status (ProductRoute.GET "p9" [p1; p2]) = 404 ∧
  ∃ r, ProductService.getProductById "p2" [p1; p2] = Returns r ∧
       Product.id (ProductService.product r) = "p2".
Proof.
  pose proof (getProductById_returns_or_throws "p9" [p1; p2]) as [_ Habsent].
  pose proof (getProductById_returns_or_throws "p2" [p1; p2]) as [Hpresent _].
  destruct Habsent as [Hthrows Hroute].
  { intros p Hp.
    apply elem_of_cons in Hp as [->|Hp]; [discriminate|].
    apply list_elem_of_singleton in Hp as ->. discriminate. }
  split; [exact Hthrows|]. split.
  - rewrite (Hroute eq_refl). reflexivity.
  - destruct Hpresent as (r & Hr & _ & Hid & _).
    + exists p2. split; [|reflexivity]. right. by left.
    + exists r. split; [exact Hr|exact Hid].
Defined.



(** The scenario of the specification: [addField] then [removeField]
    restores every file. *)
Example add_then_remove :
  let s1 := FieldManager.stateOf
              (FieldManager.addField MutationSpec.oneFile "tag"
                 (FieldManager.VString "new") MutationSpec.oneShard) in
  let s2 := FieldManager.stateOf
              (FieldManager.removeField MutationSpec.oneFile "tag" s1) in
  FieldManager.files s1 !! "a.json" =
    Some (FieldManager.Shard
            [[("id", FieldManager.VString "p1");
              ("price", FieldManager.VNumber 100);
              ("tag", FieldManager.VString "new")];
             [("id", FieldManager.VString "p2");
              ("tag", FieldManager.VString "new")]]) ∧
  FieldManager.files s2 = FieldManager.files MutationSpec.oneShard.
Proof. split; vm_compute; reflexivity. Qed.

(** Renaming there and back puts the field last: the record has its
    fields and values again, in another order. *)
Example rename_back_moves_the_field_last :
  let r := [("price", FieldManager.VNumber 100); ("id", FieldManager.VString "p1")] in
  let r1 := FieldManager.stringify
              (FieldManager.renameFieldIn "price" "cost" (FieldManager.parse r)) in
  FieldManager.stringify
    (FieldManager.renameFieldIn "cost" "price" (FieldManager.parse r1))
  = [("id", FieldManager.VString "p1"); ("price", FieldManager.VNumber 100)].
Proof. reflexivity. Qed.

(** A listed file that is gone makes the backup fail: nothing is written. *)
Example stale_file_aborts :
  ∃ s', FieldManager.removeField MutationSpec.staleFiles "id"
          MutationSpec.oneShard = FieldManager.Failed s' ∧
        FieldManager.files s' = FieldManager.files MutationSpec.oneShard ∧
        FieldManager.trace s' =
          [FieldManager.Mkdir; FieldManager.CopyFile "a.json";
           FieldManager.CopyFailed "gone.json"].
Proof. eexists. split; [vm_compute; reflexivity|]. split; reflexivity. Qed.

End Instances.


(** * Properties of the other queries *)

Section OrderFacts.

Lemma string_compare_Lt_trans (a b c : string) :
  String.compare a b = Lt → String.compare b c = Lt → String.compare a c = Lt.
Proof.
  revert b c. induction a as [|x a IH]; intros [|y b] [|z c]; simpl; try done.
  unfold Ascii.compare.
  destruct (N.compare_spec (N_of_ascii x) (N_of_ascii y)) as [Hxy|Hxy|Hxy];
    destruct (N.compare_spec (N_of_ascii y) (N_of_ascii z)) as [Hyz|Hyz|Hyz];
    destruct (N.compare_spec (N_of_ascii x) (N_of_ascii z)) as [Hxz|Hxz|Hxz];
    try done; try lia.
  apply IH.
Qed.

Lemma string_ltb_leb (a b : string) :
  String.ltb a b = true ↔ String.leb a b = true ∧ a ≠ b.
Proof.
  unfold String.ltb, String.leb.
  destruct (String.compare a b) eqn:E; split; try done.
  - intros [_ H]. by apply String.compare_eq_iff in E.
  - intros _. split; [done|]. intros ->.
    pose proof E as E'. rewrite String.compare_antisym, E in E'. done.
  - by intros [? _].
Qed.

Lemma string_leb_trans (a b c : string) :
  String.leb a b = true → String.leb b c = true → String.leb a c = true.
Proof.
  unfold String.leb.
  destruct (String.compare a b) eqn:Eab; [|intros _|done].
  - apply String.compare_eq_iff in Eab as ->. done.
  - destruct (String.compare b c) eqn:Ebc; [|intros _|done].
    + apply String.compare_eq_iff in Ebc as ->. by rewrite Eab.
    + by rewrite (string_compare_Lt_trans a b c).
Qed.

Lemma string_ltb_flip (a b : string) :
  String.ltb b a = false → String.leb a b = true.
Proof.
  unfold String.ltb, String.leb. rewrite (String.compare_antisym a b).
  by destruct (String.compare b a).
Qed.

Lemma defaultCompare_sorted (l : list string) :
  StronglySorted (λ a b, String.leb a b = true)
    (ProductService.sort ProductService.defaultCompare l).
Proof.
  apply sort_sorted.
  - apply string_leb_trans.
  - intros a b. unfold ProductService.defaultCompare.
    destruct (String.ltb a b) eqn:E1; [lia|].
    destruct (String.ltb b a) eqn:E2; [|lia].
    intros _. apply string_ltb_leb in E2. tauto.
  - intros a b. unfold ProductService.defaultCompare.
    destruct (String.ltb a b) eqn:E1.
    + intros _. apply string_ltb_leb in E1. tauto.
    + destruct (String.ltb b a) eqn:E2; [lia|].
      intros _. by apply string_ltb_flip.
Qed.

Lemma sorted_distinct_strict (l : list string) :
  StronglySorted (λ a b, String.leb a b = true) l → NoDup l →
  StronglySorted (λ a b, String.ltb a b = true) l.
Proof.
  induction 1 as [|x l Hs IH Hall]; intros Hnd; [constructor|].
  apply NoDup_cons in Hnd as [Hx Hnd]. constructor; [by apply IH|].
  rewrite Forall_forall in *. intros y Hy. apply string_ltb_leb.
  split; [by apply Hall|]. intros ->. done.
Qed.

Lemma existsb_eqb_elem (x : string) (l : list string) :
  existsb (String.eqb x) l = true ↔ x ∈ l.
Proof.
  rewrite existsb_exists. split.
  - intros (y & Hy & ->%String.eqb_eq). by apply list_elem_of_In.
  - intros H. exists x. split; [by apply list_elem_of_In|apply String.eqb_refl].
Qed.

Lemma from_set_acc (l acc : list string) :
  NoDup acc →
  let r := foldl (λ set x, if existsb (String.eqb x) set then set
                           else set ++ [x]) acc l in
  NoDup r ∧ ∀ x, x ∈ r ↔ x ∈ acc ∨ x ∈ l.
Proof.
  revert acc. induction l as [|y l IH]; intros acc Hnd; cbn [foldl].
  { split; [done|]. intros x. rewrite elem_of_nil. tauto. }
  destruct (existsb (String.eqb y) acc) eqn:E.
  - apply existsb_eqb_elem in E. destruct (IH acc Hnd) as [H1 H2].
    split; [done|]. intros x. rewrite H2, elem_of_cons.
    split; [tauto|]. intros [?|[->|?]]; tauto.
  - assert (y ∉ acc) as Hy.
    { intros H. apply existsb_eqb_elem in H. congruence. }
    destruct (IH (acc ++ [y])) as [H1 H2].
    { apply NoDup_app. split; [done|]. split; [|apply NoDup_singleton].
      intros x Hx ->%list_elem_of_singleton. done. }
    split; [done|]. intros x.
    rewrite H2, elem_of_app, list_elem_of_singleton, elem_of_cons. tauto.
Qed.

Lemma Array_from_Set_spec (l : list string) :
  NoDup (ProductService.Array_from_Set l) ∧
  ∀ x, x ∈ ProductService.Array_from_Set l ↔ x ∈ l.
Proof.
  destruct (from_set_acc l [] (NoDup_nil_2)) as [H1 H2].
  split; [exact H1|]. intros x. unfold ProductService.Array_from_Set.
  rewrite H2, elem_of_nil. tauto.
Qed.

End OrderFacts.

Section CountFacts.
Import CountSpec.
Context {A : Type} (key : A → string).

Lemma countOf_snoc (k : string) (l : list A) (x : A) :
  countOf key k (l ++ [x]) =
  countOf key k l + (if decide (key x = k) then 1 else 0).
Proof.
  unfold countOf. rewrite filter_app, length_app, filter_cons, filter_nil.
  destruct (decide (key x = k)); cbn [List.length]; lia.
Qed.

Lemma countOf_zero (k : string) (l : list A) :
  countOf key k l = 0 ↔ ∀ x, x ∈ l → key x ≠ k.
Proof.
  unfold countOf. induction l as [|x l IH].
  { split; [|done]. intros _ x Hx. by apply elem_of_nil in Hx. }
  rewrite filter_cons. destruct (decide (key x = k)) as [Hk|Hk].
  - cbn [List.length]. split; [lia|]. intros H. destruct (H x); [by left|done].
  - rewrite IH. split.
    + intros H y Hy. apply elem_of_cons in Hy as [->|Hy]; [done|by apply H].
    + intros H y Hy. apply H. by right.
Qed.

Lemma ordinary_not_proto (k : string) :
  ofObjectPrototype k = false → String.eqb k "__proto__" = false.
Proof.
  intros H. destruct (String.eqb_spec k "__proto__") as [->|]; [|done].
  vm_compute in H. discriminate.
Qed.

Lemma bump_lookup_ne (k k' : string) (o : gmap string tally) :
  k' ≠ k → bump k' o !! k = o !! k.
Proof.
  intros Hne. unfold bump.
  destruct (o !! k') as [[n|]|]; [by rewrite lookup_insert_ne..|].
  destruct (String.eqb k' "__proto__"); [done|].
  destruct (ofObjectPrototype k'); by rewrite lookup_insert_ne.
Qed.

Lemma bump_lookup_eq (k : string) (o : gmap string tally) :
  bump k o !! k =
  match o !! k with
  | Some (Count n) => Some (Count (n + 1))
  | Some Text => Some Text
  | None =>
      if String.eqb k "__proto__" then None
      else if ofObjectPrototype k then Some Text
      else Some (Count 1)
  end.
Proof.
  unfold bump. destruct (o !! k) as [[n|]|] eqn:E;
    [by rewrite lookup_insert_eq..|].
  destruct (String.eqb k "__proto__"); [done|].
  destruct (ofObjectPrototype k); by rewrite lookup_insert_eq.
Qed.

Lemma bump_fold_lookup (l : list A) (k : string) :
  foldl (λ o x, bump (key x) o) ∅ l !! k = tallyOf key l k.
Proof.
  induction l as [|x l IH] using rev_ind; [done|].
  rewrite foldl_app. cbn [foldl].
  unfold tallyOf in *. rewrite countOf_snoc.
  assert (0 ≤ countOf key k l) as Hpos by (unfold countOf; lia).
  destruct (decide (key x = k)) as [Hk|Hk].
  - rewrite Hk, bump_lookup_eq, IH.
    destruct (Z.eqb_spec (countOf key k l + 1) 0) as [?|_]; [lia|].
    destruct (Z.eqb_spec (countOf key k l) 0) as [E|E].
    + by rewrite E.
    + destruct (String.eqb k "__proto__"); [done|].
      by destruct (ofObjectPrototype k).
  - rewrite bump_lookup_ne by done. rewrite IH. by rewrite Z.add_0_r.
Qed.

Lemma sumOf_insert_fresh (k : string) (v : tally) (o : gmap string tally) :
  o !! k = None → sumOf (<[k := v]> o) = weight v + sumOf o.
Proof.
  intros H. unfold sumOf.
  apply (map_fold_insert_L (λ (_ : string) v acc, weight v + acc));
    [|done]. intros. lia.
Qed.

Lemma sumOf_bump (k : string) (o : gmap string tally) :
  ofObjectPrototype k = false →
  (∀ v, o !! k = Some v → ∃ n, v = Count n) →
  sumOf (bump k o) = sumOf o + 1.
Proof.
  intros Hk Hnum. unfold bump. destruct (o !! k) as [w|] eqn:E.
  - destruct (Hnum w eq_refl) as [n ->].
    rewrite <- (insert_delete_eq o k (Count (n + 1))).
    rewrite sumOf_insert_fresh by apply lookup_delete_eq.
    rewrite <- (insert_id o k (Count n) E) at 2.
    rewrite <- (insert_delete_eq o k (Count n)).
    rewrite sumOf_insert_fresh by apply lookup_delete_eq. cbn [weight]. lia.
  - rewrite (ordinary_not_proto k Hk), Hk.
    rewrite sumOf_insert_fresh by done. cbn [weight]. lia.
Qed.

Lemma bump_numeric (k : string) (o : gmap string tally) :
  ofObjectPrototype k = false →
  (∀ k' v, o !! k' = Some v → ∃ n, v = Count n) →
  ∀ k' v, bump k o !! k' = Some v → ∃ n, v = Count n.
Proof.
  intros Hk Hnum k' v. destruct (decide (k = k')) as [<-|Hne].
  - unfold bump. destruct (o !! k) as [w|] eqn:E.
    + destruct (Hnum k w E) as [n ->]. rewrite lookup_insert_eq.
      intros [= <-]. by eexists.
    + rewrite (ordinary_not_proto k Hk), Hk, lookup_insert_eq.
      intros [= <-]. by eexists.
  - rewrite bump_lookup_ne by done. apply Hnum.
Qed.

Lemma bump_fold_sum (l : list A) (o : gmap string tally) :
  Forall (λ x, ofObjectPrototype (key x) = false) l →
  (∀ k v, o !! k = Some v → ∃ n, v = Count n) →
  sumOf (foldl (λ o x, bump (key x) o) o l) =
  sumOf o + Z.of_nat (List.length l).
Proof.
  intros Hall. revert o. induction Hall as [|x l Hx Hall IH]; intros o Hnum.
  { cbn. lia. }
  cbn [foldl]. rewrite IH by (by apply bump_numeric).
  rewrite sumOf_bump by (done || apply Hnum). cbn [List.length]. lia.
Qed.

Lemma tallies_fold (l : list A) :
  tallies key l (foldl (λ o x, bump (key x) o) ∅ l).
Proof.
  unfold tallies. split_and!.
  - intros k Hk Hpos. rewrite bump_fold_lookup. unfold tallyOf.
    destruct (Z.eqb_spec (countOf key k l) 0) as [?|_]; [lia|].
    by rewrite (ordinary_not_proto k Hk), Hk.
  - intros k Hno. rewrite bump_fold_lookup. unfold tallyOf.
    by rewrite (proj2 (Z.eqb_eq _ _) (proj2 (countOf_zero k l) Hno)).
  - intros k n Hk. rewrite bump_fold_lookup. unfold tallyOf.
    destruct (_ =? _); [done|]. destruct (String.eqb _ _); [done|].
    by rewrite Hk.
  - intros Hall. rewrite bump_fold_sum; [|done|].
    + unfold sumOf. rewrite map_fold_empty. lia.
    + intros k v. by rewrite lookup_empty.
Qed.

Lemma tallied_is_Some (l : list A) (k : string) :
  is_Some (foldl (λ o x, bump (key x) o) ∅ l !! k) ↔
  (∃ x, x ∈ l ∧ key x = k) ∧ k ≠ "__proto__".
Proof.
  rewrite bump_fold_lookup. unfold tallyOf.
  destruct (Z.eqb_spec (countOf key k l) 0) as [E|E].
  - split; [by intros [? ?]|]. intros [(x & Hx & Hk) _].
    by destruct (proj1 (countOf_zero k l) E x Hx).
  - assert (∃ x, x ∈ l ∧ key x = k) as Hex.
    { destruct (decide (Exists (λ x, key x = k) l)) as [Hex|Hno].
      - by apply Exists_exists in Hex.
      - destruct E. apply countOf_zero. intros x Hx Hk. apply Hno.
        apply Exists_exists. by exists x. }
    destruct (String.eqb_spec k "__proto__") as [->|Hne].
    + split; [by intros [? ?]|]. by intros [_ ?].
    + split; [done|]. intros _. by destruct (ofObjectPrototype k).
Qed.

End CountFacts.

Section MoreQueryFacts.
Import ProductService QuerySpec CountSpec.

Variable toLowerCase : string → string.
Variable Date_getTime : string → number.

Lemma getSeries_distinct_and_sorted_aux (productsData : list Product.t) :
  StronglySorted (λ a b, String.ltb a b = true) (getSeries productsData) ∧
  NoDup (getSeries productsData) ∧
  ∀ x, x ∈ getSeries productsData ↔
       ∃ p, p ∈ productsData ∧ Product.series p = x.
Proof.
  unfold getSeries.
  destruct (Array_from_Set_spec (Product.series <$> productsData)) as [Hnd Hin].
  assert (NoDup (sort defaultCompare
                   (Array_from_Set (Product.series <$> productsData)))) as Hnd'.
  { by rewrite sort_perm. }
  split; [|split; [done|]].
  - apply sorted_distinct_strict; [apply defaultCompare_sorted|done].
  - intros x. rewrite sort_perm, Hin, list_elem_of_fmap.
    split; [intros (p & -> & Hp); by exists p|intros (p & Hp & <-); by exists p].
Qed.

(** X1. [getSeries] returns the series labels of the collection, each
    once, in strictly increasing code-unit order. *)
Theorem getSeries_distinct_and_sorted (productsData : list Product.t) :
  StronglySorted (λ a b, String.ltb a b = true) (getSeries productsData) ∧
  NoDup (getSeries productsData) ∧
  ∀ x, x ∈ getSeries productsData ↔
       ∃ p, p ∈ productsData ∧ Product.series p = x.
Proof. apply getSeries_distinct_and_sorted_aux. Qed.

Lemma foldl_min_spec (x : Z) (l : list Z) :
  foldl Z.min x l ≤ x ∧ Forall (λ y, foldl Z.min x l ≤ y) l ∧
  foldl Z.min x l ∈ x :: l.
Proof.
  revert x. induction l as [|y l IH]; intros x; cbn [foldl].
  { split; [lia|]. split; [constructor|by left]. }
  destruct (IH (Z.min x y)) as (H1 & H2 & H3).
  split; [lia|]. split; [constructor; [lia|done]|].
  apply elem_of_cons in H3 as [H3|H3]; [|by do 2 right].
  rewrite H3. destruct (Z.min_spec x y) as [[_ ->]|[_ ->]]; [by left|right; by left].
Qed.

Lemma foldl_max_spec (x : Z) (l : list Z) :
  x ≤ foldl Z.max x l ∧ Forall (λ y, y ≤ foldl Z.max x l) l ∧
  foldl Z.max x l ∈ x :: l.
Proof.
  revert x. induction l as [|y l IH]; intros x; cbn [foldl].
  { split; [lia|]. split; [constructor|by left]. }
  destruct (IH (Z.max x y)) as (H1 & H2 & H3).
  split; [lia|]. split; [constructor; [lia|done]|].
  apply elem_of_cons in H3 as [H3|H3]; [|by do 2 right].
  rewrite H3. destruct (Z.max_spec x y) as [[_ ->]|[_ ->]]; [right; by left|by left].
Qed.

(** X2. On the empty collection [getPriceRange] returns 0 and 1000. On
    any other it returns the lowest and the highest current price: both
    are prices of records of the collection and every price lies between
    them. *)
Theorem getPriceRange_bounds (productsData : list Product.t) :
  (productsData = [] →
     getPriceRange productsData = {| min := Fin 0; max := Fin 1000 |}) ∧
  (productsData ≠ [] →
     ∃ lo hi,
       getPriceRange productsData = {| min := Fin lo; max := Fin hi |} ∧
       (∀ p, p ∈ productsData → lo ≤ Product.currentPrice p ≤ hi) ∧
       (∃ p, p ∈ productsData ∧ Product.currentPrice p = lo) ∧
       (∃ p, p ∈ productsData ∧ Product.currentPrice p = hi)).
Proof.
  split; [by intros ->|]. intros Hne.
  destruct productsData as [|q data]; [done|].
  unfold getPriceRange. rewrite fmap_cons. cbn [List.length Math_min Math_max].
  rewrite (proj2 (Z.eqb_neq _ 0)) by lia.
  destruct (foldl_min_spec (Product.currentPrice q)
              (Product.currentPrice <$> data)) as (Hm1 & Hm2 & Hm3).
  destruct (foldl_max_spec (Product.currentPrice q)
              (Product.currentPrice <$> data)) as (HM1 & HM2 & HM3).
  eexists _, _. split; [done|].
  rewrite Forall_forall in Hm2, HM2.
  rewrite <- fmap_cons in Hm3, HM3.
  apply list_elem_of_fmap in Hm3 as (pm & Hpm & Hinm).
  apply list_elem_of_fmap in HM3 as (pM & HpM & HinM).
  split; [|split; [by exists pm|by exists pM]].
  intros p [->|Hp]%elem_of_cons; [lia|].
  assert (Product.currentPrice p ∈ Product.currentPrice <$> data) as Hin
    by (apply list_elem_of_fmap; by exists p).
  split; [by apply Hm2|by apply HM2].
Qed.

Lemma filter_all {A} (f : A → bool) (l : list A) :
  (∀ x, x ∈ l → f x = true) → List.filter f l = l.
Proof.
  induction l as [|x l IH]; intros H; [done|]. simpl.
  rewrite (H x) by by left. f_equal. apply IH. intros y Hy. apply H. by right.
Qed.

(** X3. A query whose only filters are the bounds that [getPriceRange]
    returns for the collection filters nothing out: [total] is the size of
    the collection. *)
Theorem price_range_bounds_keep_everything (productsData : ref)
    (params : ProductListRequest) (h : heap) (data : list Product.t) :
  h !! productsData = Some data →
  search params = None → rarity params = None → series params = None →
  minPrice params = Some (min (getPriceRange data)) →
  maxPrice params = Some (max (getPriceRange data)) →
  total (fst (getProducts toLowerCase Date_getTime productsData params h)) =
    Z.of_nat (List.length data).
Proof.
  intros Hd Hs Hr Hse Hmin Hmax.
  destruct (getProducts_result toLowerCase Date_getTime productsData params
              h data Hd) as [ext ->].
  cbn [fst total]. unfold ordered. rewrite length_sort, filteredOf_passes.
  rewrite filter_all; [done|].
  intros p Hp. unfold passes. rewrite Hs, Hr, Hse, Hmin, Hmax. simpl.
  destruct (getPriceRange_bounds data) as [_ H].
  destruct H as (lo & hi & -> & Hall & _); [by intros ->; apply elem_of_nil in Hp|].
  apply Hall in Hp. simpl.
  rewrite (proj2 (Z.leb_le _ _)), (proj2 (Z.leb_le _ _)) by lia. done.
Qed.

Lemma getStats_fields (data : list Product.t) (st : Stats) :
  let r := foldl
    (λ stats product,
       {| statsTotal := statsTotal stats;
          byRarity := bump (Product.rarityLevel product) (byRarity stats);
          byStatus := bump (Product.releaseStatus product) (byStatus stats) |})
    st data in
  statsTotal r = statsTotal st ∧
  byRarity r = foldl (λ o p, bump (Product.rarityLevel p) o) (byRarity st) data ∧
  byStatus r = foldl (λ o p, bump (Product.releaseStatus p) o) (byStatus st) data.
Proof.
  cbv zeta. revert st. induction data as [|p data IH]; intros st; [done|].
  cbn [foldl]. destruct (IH
    {| statsTotal := statsTotal st;
       byRarity := bump (Product.rarityLevel p) (byRarity st);
       byStatus := bump (Product.releaseStatus p) (byStatus st) |})
    as (H1 & H2 & H3).
  rewrite H1, H2, H3. done.
Qed.

(** X4. [getStats] counts every record once under its rarity and once
    under its release status. [total] is the size of the collection.
    Under a name that objects do not inherit, the count is the number of
    records with that name; a name that no record has is missing from the
    object; an inherited name such as [constructor] never gets a number;
    and when no record has an inherited name the counts of the object add
    up to [total]. *)
Theorem getStats_counts (productsData : list Product.t) :
  let stats := getStats productsData in
  statsTotal stats = Z.of_nat (List.length productsData) ∧
  tallies Product.rarityLevel productsData (byRarity stats) ∧
  tallies Product.releaseStatus productsData (byStatus stats).
Proof.
  intros stats. subst stats. unfold getStats.
  destruct (getStats_fields productsData
              {| statsTotal := Z.of_nat (List.length productsData);
                 byRarity := ∅; byStatus := ∅ |}) as (H1 & H2 & H3).
  cbn [statsTotal byRarity byStatus] in *. rewrite H1, H2, H3.
  split; [done|]. split; apply tallies_fold.
Qed.

(** X5. [getSeriesStats] counts the records by series as [getStats]
    counts them by rarity. A series it has an entry for is one that
    [getAllSeries] lists, and every series that [getAllSeries] lists has
    an entry, except the series [__proto__]. [getAllSeries] is in
    ascending order. *)
Theorem getSeriesStats_agrees_with_getAllSeries (products : list Product.t) :
  tallies Product.series products (LoaderAccessors.getSeriesStats products) ∧
  (∀ k, is_Some (LoaderAccessors.getSeriesStats products !! k) ↔
        k ∈ LoaderAccessors.getAllSeries products ∧ k ≠ "__proto__") ∧
  StronglySorted (λ a b, String.ltb a b = true)
    (LoaderAccessors.getAllSeries products).
Proof.
  unfold LoaderAccessors.getSeriesStats. split; [|split].
  - apply tallies_fold.
  - intros k. rewrite tallied_is_Some.
    change (LoaderAccessors.getAllSeries products) with (getSeries products).
    destruct (getSeries_distinct_and_sorted_aux products) as (_ & _ & ->).
    done.
  - change (LoaderAccessors.getAllSeries products) with (getSeries products).
    apply getSeries_distinct_and_sorted_aux.
Qed.

Lemma take_nonpos {A} (n : Z) (l : list A) : n ≤ 0 → take (Z.to_nat n) l = [].
Proof. intros H. replace (Z.to_nat n) with 0%nat by lia. done. Qed.

(** X6. Page numbers and page sizes out of range are answered, never
    refused. With a page size of at least 1, page 0 is empty, and a
    negative page [-j] holds the records of a window counted from the end
    of the sorted list; with page size 0 every page is empty and
    [totalPages] is infinite, or NaN when nothing matches; and when
    nothing matches, [total] and [totalPages] are 0. *)
Theorem pages_out_of_range (productsData : ref) (params : ProductListRequest)
    (h : heap) (data : list Product.t) :
  h !! productsData = Some data →
  let query := pageOf toLowerCase Date_getTime productsData params h in
  let sorted := ordered toLowerCase Date_getTime params data in
  let limit := default 20 (limit params) in
  let len := Z.of_nat (List.length sorted) in
  (1 ≤ limit → products (query 0) = []) ∧
  (1 ≤ limit → ∀ j, 1 ≤ j → (j + 1) * limit ≤ len →
     products (query (- j)) =
       take (Z.to_nat limit) (drop (Z.to_nat (len - (j + 1) * limit)) sorted)) ∧
  (limit = 0 → ∀ k,
     products (query k) = [] ∧
     totalPages (query k) = if len =? 0 then NaN else PosInf) ∧
  (1 ≤ limit → sorted = [] → ∀ k,
     products (query k) = [] ∧ total (query k) = 0 ∧
     totalPages (query k) = Fin 0).
Proof.
  intros Hd query sorted limit len.
  assert (∀ k, query k =
    {| products := slice ((k - 1) * limit) ((k - 1) * limit + limit) sorted;
       total := len; page' := k; totalPages := ceilDiv len limit |}) as Hq.
  { intros k. unfold query. by rewrite (pageOf_result _ _ _ _ _ _ _ Hd). }
  split_and!.
  - intros Hl. rewrite Hq. cbn [products]. unfold slice. fold len.
    destruct (Z.ltb_spec ((0 - 1) * limit) 0); [|lia].
    destruct (Z.ltb_spec ((0 - 1) * limit + limit) 0); [lia|].
    apply take_nonpos. lia.
  - intros Hl j Hj Hfit. rewrite Hq. cbn [products]. unfold slice. fold len.
    destruct (Z.ltb_spec ((- j - 1) * limit) 0); [|nia].
    destruct (Z.ltb_spec ((- j - 1) * limit + limit) 0); [|nia].
    f_equal; [|f_equal]; nia.
  - intros Hl k. rewrite Hq. cbn [products totalPages]. rewrite Hl.
    split.
    + replace ((k - 1) * 0) with 0 by lia. unfold slice.
      change (0 + 0 <? 0) with false. change (0 <? 0) with false.
      apply take_nonpos. lia.
    + unfold ceilDiv. simpl (0 =? 0).
      destruct (Z.eqb_spec len 0); [done|].
      rewrite (proj2 (Z.ltb_lt 0 len)) by lia. done.
  - intros Hl Hnil k. rewrite Hq. cbn [products total totalPages].
    subst len. split_and!.
    + unfold slice. rewrite Hnil, drop_nil. apply take_nil.
    + by rewrite Hnil.
    + rewrite Hnil. unfold ceilDiv. simpl.
      by rewrite (proj2 (Z.eqb_neq limit 0)) by lia.
Qed.

End MoreQueryFacts.

(** * The loader under resets *)

Section ResetFacts.
Import ProductLoader LoaderSpec ResetSpec.

Ltac reach_one :=
  first
    [ done | by left | by right | lia
    | apply Forall_app; split; [done|]; apply Forall_singleton;
      first [ done | by left | by intros ? [= <-] ]
    | apply Forall_insert; [done|];
      first [ by right | by intros ? [= <-] ]
    | rewrite length_app; simpl; lia ].

Ltac reach := split_and!; cbn; rewrite ?length_insert; try reach_one.

Lemma reachable_step (s : Store) (index : Index) (e : event) (r : nat)
    (st : state) :
  indexFile s = Some index →
  reachable s (merged s index) r st →
  reachable s (merged s index) (r + resets [e]) (step s st e).
Proof.
  intros Hi (Hp & Hc & Ha & Hfree & Hbound & Himp).
  destruct e as [|p|c|]; cbn [resets step].
  - rewrite Nat.add_0_r. unfold loadAllProducts.
    destruct (allProducts st) as [v0|] eqn:Ea.
    + destruct Ha as [?|Ha]; [done|]. injection Ha as ->. reach.
    + destruct (loadPromise st) as [q|] eqn:El.
      * reach.
      * specialize (Hfree eq_refl eq_refl). reach.
        rewrite Himp, length_app. simpl.
        rewrite Nat.add_1_r, replicate_S_end, join_app. simpl.
        by rewrite app_nil_r.
  - rewrite Nat.add_0_r. unfold settle.
    destruct (promises st !! p) as [[|x]|] eqn:Ep; try (by reach).
    rewrite (performLoad_value _ _ Hi). reach.
  - rewrite Nat.add_0_r. unfold resume.
    destruct (callers st !! c) as [[x|p|p]|] eqn:Ec; try (by reach).
    + destruct (promises st !! p) as [[|[v0|m]]|] eqn:Ep; try (by reach).
      * pose proof (Forall_lookup_1 _ _ _ _ Hp Ep) as [?|[= ->]]; [done|].
        reach.
      * by pose proof (Forall_lookup_1 _ _ _ _ Hp Ep) as [?|?].
    + destruct (promises st !! p) as [[|x]|] eqn:Ep; try (by reach).
      pose proof (Forall_lookup_1 _ _ _ _ Hp Ep) as [?|[= ->]]; [done|].
      reach.
  - reach.
Qed.

Lemma resets_app (evs1 evs2 : list event) :
  resets (evs1 ++ evs2) = (resets evs1 + resets evs2)%nat.
Proof.
  induction evs1 as [|e evs1 IH]; [done|].
  destruct e; simpl; rewrite IH; lia.
Qed.

Lemma reachable_run (s : Store) (index : Index) (evs : list event) (r : nat)
    (st : state) :
  indexFile s = Some index →
  reachable s (merged s index) r st →
  reachable s (merged s index) (r + resets evs) (run s evs st).
Proof.
  intros Hi. revert r st. induction evs as [|e evs IH]; intros r st Hr.
  { simpl. by rewrite Nat.add_0_r. }
  rewrite run_cons. change (e :: evs) with ([e] ++ evs).
  rewrite resets_app, Nat.add_assoc. apply IH. by eapply reachable_step.
Qed.

(** X7. On a store whose index loads, under any schedule of calls,
    completions, resumptions and resets, the number of loads started is at
    most the number of resets plus one, the imports issued are those of
    that many loads, and every caller that has received a result has
    received the merged collection. *)
Theorem resets_bound_the_loads (s : Store) (index : Index)
    (evs : list event) :
  indexFile s = Some index →
  let st := run s evs initial in
  (List.length (promises st) ≤ resets evs + 1)%nat ∧
  imports st = mjoin (replicate (List.length (promises st)) (importsOf s)) ∧
  ∀ c x, callers st !! c = Some (Returned x) → x = Fulfilled (merged s index).
Proof.
  intros Hi st.
  assert (reachable s (merged s index) 0 initial) as H0.
  { split_and!; cbn; try done; [by left|lia]. }
  pose proof (reachable_run s index evs 0 initial Hi H0)
    as (Hp & Hc & _ & _ & Hb & Himp).
  fold st in Hp, Hc, Hb, Himp. split_and!; [lia|done|].
  intros c x Hcx. by apply (Forall_lookup_1 _ _ _ _ Hc Hcx).
Qed.

(** X8. A reset issued while a load is in flight does not cancel the
    load: when it completes and the first caller resumes, the collection
    it read is cached, and a later call returns it at once without a
    second load. *)
Theorem reset_in_flight_is_undone (s : Store) (index : Index) :
  indexFile s = Some index →
  let st := run s [Call; ResetCache; Settle 0; Resume 0; Call] initial in
  allProducts st = Some (merged s index) ∧
  callers st = [Returned (Fulfilled (merged s index));
                Returned (Fulfilled (merged s index))] ∧
  promises st = [Settled (Fulfilled (merged s index))] ∧
  imports st = importsOf s.
Proof.
  intros Hi st. subst st. unfold run. cbn [foldl step].
  unfold settle. cbn. rewrite (performLoad_value _ _ Hi). done.
Qed.

(** X9. After a load has completed, a reset followed by a call starts a
    second load, which issues the imports again; when it completes the
    merged collection is cached again. *)
Theorem reset_then_call_loads_again (s : Store) (index : Index) (n : nat) :
  indexFile s = Some index →
  let loaded := run s (replicate (S n) Call ++
                       Settle 0 :: (Resume <$> seq 0 (S n))) initial in
  let st := run s [ResetCache; Call; Settle 1; Resume (S n)] loaded in
  allProducts (resetCache loaded) = None ∧
  allProducts st = Some (merged s index) ∧
  callers st !! S n = Some (Returned (Fulfilled (merged s index))) ∧
  List.length (promises st) = 2%nat ∧
  imports st = importsOf s ++ importsOf s.
Proof.
  intros Hi loaded st. subst st loaded.
  rewrite (shared_run s index n Hi).
  split; [done|].
  change [ResetCache; Call; Settle 1; Resume (S n)]
    with ([ResetCache; Call; Settle 1] ++ [Resume (S n)]).
  rewrite run_app.
  assert (run s [ResetCache; Call; Settle 1]
            (delivering s (merged s index) (S n) 0) =
          {| allProducts := None; loadPromise := Some 1%nat;
             promises := [Settled (Fulfilled (merged s index));
                          Settled (Fulfilled (merged s index))];
             callers := replicate (S n) (Returned (Fulfilled (merged s index)))
                        ++ [AwaitingOwn 1];
             imports := importsOf s ++ importsOf s |}) as ->.
  { unfold run, delivering. cbn [foldl step].
    unfold resetCache, loadAllProducts, settle.
    cbn [allProducts loadPromise promises callers imports].
    cbn [List.length app lookup list_lookup].
    rewrite (performLoad_value _ _ Hi).
    cbn [replicate]. rewrite app_nil_r. reflexivity. }
  unfold run. cbn [foldl step]. unfold resume. cbn [callers promises].
  assert ((replicate (S n) (Returned (Fulfilled (merged s index))) ++
           [AwaitingOwn 1]) !! S n = Some (AwaitingOwn 1)) as Hl.
  { rewrite lookup_app_r; rewrite length_replicate; [|lia].
    by rewrite Nat.sub_diag. }
  rewrite Hl. cbn [lookup list_lookup allProducts callers promises imports].
  split_and!; try done.
  rewrite insert_app_r_alt; rewrite length_replicate; [|lia].
  rewrite lookup_app_r; rewrite length_replicate; [|lia].
  by rewrite Nat.sub_diag.
Qed.

End ResetFacts.

(** * More properties of the field manager *)

Section AnalysisFacts.
Import FieldManager MutationSpec AnalysisSpec CountSpec.

Lemma keys_parse (r : object) : Object_keys (parse r) = r.*1.
Proof.
  unfold Object_keys, parse. induction r as [|[k v] r IH]; [done|].
  cbn. f_equal. exact IH.
Qed.

Lemma analyzeProduct_fold (records : list object) (a : analysis) :
  foldl analyzeProduct a records =
    {| fieldStats := foldl (λ stats k, bump k stats) (fieldStats a)
                       (mjoin ((λ r : object, r.*1) <$> records));
       analysed := analysed a + Z.of_nat (List.length records) |}.
Proof.
  revert a. induction records as [|r records IH]; intros a.
  { destruct a. cbn. f_equal. lia. }
  cbn [foldl]. rewrite IH. unfold analyzeProduct at 1 2.
  cbn [fieldStats analysed]. rewrite keys_parse, fmap_cons.
  cbn [mjoin list_join]. rewrite foldl_app. f_equal.
  cbn [List.length]. lia.
Qed.

Lemma recordsOf_ext (s s' : fs) (f : string) :
  files s' = files s → recordsOf s' f = recordsOf s f.
Proof. unfold recordsOf. by intros ->. Qed.

Lemma scanned_ext (paths : list string) (s s' : fs) :
  files s' = files s →
  scanned {| productFiles := paths |} s' = scanned {| productFiles := paths |} s.
Proof.
  intros H. unfold scanned. cbn [productFiles]. f_equal.
  induction paths as [|f paths IH]; [done|].
  cbn [omap list_omap]. rewrite (recordsOf_ext _ _ _ H).
  destruct (recordsOf s f); [f_equal|]; exact IH.
Qed.

Lemma analyzeFile_step (a : analysis) (s : fs) (f : string) :
  analyzeFile (a, s) f =
    (match recordsOf s f with
     | Some records => foldl analyzeProduct a records
     | None => a
     end, log (ReadFile f) s).
Proof.
  unfold analyzeFile, readProductFile, recordsOf.
  by destruct (files s !! f) as [[records|]|].
Qed.

Lemma analyze_loop (paths : list string) (a : analysis) (s : fs) :
  let r := foldl analyzeFile (a, s) paths in
  let records := scanned {| productFiles := paths |} s in
  files (snd r) = files s ∧ readOnly (snd r) = readOnly s ∧
  backupDirWritable (snd r) = backupDirWritable s ∧
  backups (snd r) = backups s ∧
  trace (snd r) = trace s ++ (ReadFile <$> paths) ∧
  fieldStats (fst r) =
    foldl (λ stats k, bump k stats) (fieldStats a)
      (mjoin ((λ r : object, r.*1) <$> records)) ∧
  analysed (fst r) = analysed a + Z.of_nat (List.length records).
Proof.
  cbv zeta. revert a s. induction paths as [|f paths IH]; intros a s.
  { cbn. rewrite app_nil_r. split_and!; try done. lia. }
  cbn [foldl]. rewrite analyzeFile_step.
  match goal with |- context [foldl analyzeFile (?a1, ?s1) paths] =>
    destruct (IH a1 s1) as (H1 & H2 & H3 & H4 & H5 & H6 & H7)
  end.
  rewrite (scanned_ext paths s (log (ReadFile f) s) eq_refl) in H6, H7.
  split_and!; try done.
  - rewrite H5. cbn [trace log]. by rewrite <- app_assoc.
  - rewrite H6. unfold scanned. cbn [productFiles omap list_omap].
    destruct (recordsOf s f) as [records|]; [|done].
    rewrite analyzeProduct_fold. cbn [fieldStats mjoin list_join].
    by rewrite fmap_app, join_app, foldl_app.
  - rewrite H7. unfold scanned. cbn [productFiles omap list_omap].
    destruct (recordsOf s f) as [records|]; [|done].
    rewrite analyzeProduct_fold. cbn [analysed mjoin list_join].
    by rewrite length_app, Nat2Z.inj_add, Z.add_assoc.
Qed.

(** X10. [analyzeFields] only reads: it reads each listed file once, in
    order, makes no backup and writes nothing, so every file is as it
    was. *)
Theorem analyzeFields_only_reads (m : t) (s : fs) :
  let s' := snd (analyzeFields m s) in
  files s' = files s ∧ backups s' = backups s ∧
  trace s' = trace s ++ (ReadFile <$> productFiles m).
Proof.
  destruct (analyze_loop (productFiles m)
              {| fieldStats := ∅; analysed := 0 |} s)
    as (H1 & _ & _ & H4 & H5 & _). done.
Qed.

Lemma countOf_app {A} (key : A → string) (k : string) (l1 l2 : list A) :
  countOf key k (l1 ++ l2) = countOf key k l1 + countOf key k l2.
Proof. unfold countOf. rewrite filter_app, length_app. lia. Qed.

Lemma countOf_absent (k : string) (l : list string) :
  k ∉ l → countOf id k l = 0.
Proof.
  unfold countOf. induction l as [|x l IH]; intros H; [done|].
  rewrite filter_cons. rewrite decide_False.
  - apply IH. intros ?. apply H. by right.
  - intros Hx. apply H. unfold id in Hx. subst. by left.
Qed.

Lemma hasOwnProperty_keys {V} (k : string) (r : list (string * V)) :
  hasOwnProperty k r = true ↔ k ∈ r.*1.
Proof.
  unfold hasOwnProperty. induction r as [|[k' v] r IH]; cbn.
  - split; [done|]. intros H. by apply elem_of_nil in H.
  - rewrite orb_true_iff, IH, elem_of_cons, String.eqb_eq.
    split; (intros [?|?]; [left|right]); done.
Qed.

Lemma countOf_cons (k x : string) (l : list string) :
  countOf id k (x :: l) = (if String.eqb x k then 1 else 0) + countOf id k l.
Proof.
  unfold countOf. rewrite filter_cons. unfold id at 1.
  destruct (String.eqb_spec x k) as [->|Hne].
  - rewrite decide_True by done. cbn [List.length]. lia.
  - rewrite decide_False by done. lia.
Qed.

Lemma countOf_keys (k : string) (r : object) :
  wellKeyed r →
  countOf id k r.*1 = if hasOwnProperty k r then 1 else 0.
Proof.
  unfold wellKeyed, hasOwnProperty.
  induction r as [|[k' v] r IH]; intros Hnd; [done|].
  rewrite fmap_cons in Hnd. apply NoDup_cons in Hnd as [Hk Hnd].
  rewrite fmap_cons, countOf_cons. cbn [existsb fst].
  destruct (String.eqb_spec k' k) as [->|Hne]; cbn [orb].
  - rewrite countOf_absent by done. lia.
  - rewrite IH by done. lia.
Qed.

Lemma having_cons (k : string) (r : object) (records : list object) :
  having k (r :: records) =
  (if hasOwnProperty k r then 1 else 0) + having k records.
Proof.
  unfold having. cbn [List.filter].
  destruct (hasOwnProperty k r); cbn [List.length]; lia.
Qed.

Lemma countOf_records (k : string) (records : list object) :
  Forall wellKeyed records →
  countOf id k (mjoin ((λ r : object, r.*1) <$> records)) = having k records.
Proof.
  induction 1 as [|r records Hr Hall IH]; [done|].
  rewrite fmap_cons, having_cons, <- IH, <- countOf_keys by done.
  cbn [mjoin list_join]. apply countOf_app.
Qed.

Lemma analyzeFields_counts_aux (m : t) (s : fs) :
  Forall wellKeyed (scanned m s) →
  let a := fst (analyzeFields m s) in
  analysed a = Z.of_nat (List.length (scanned m s)) ∧
  (∀ fieldName, ofObjectPrototype fieldName = false →
     0 < having fieldName (scanned m s) →
     fieldStats a !! fieldName =
       Some (Count (having fieldName (scanned m s)))) ∧
  (∀ fieldName,
     (∀ r, r ∈ scanned m s → hasOwnProperty fieldName r = false) →
     fieldStats a !! fieldName = None) ∧
  (∀ fieldName n, fieldStats a !! fieldName = Some (Count n) →
     ofObjectPrototype fieldName = false ∧ 0 < n ≤ analysed a).
Proof.
  intros Hwk a. subst a.
  destruct (analyze_loop (productFiles m)
              {| fieldStats := ∅; analysed := 0 |} s)
    as (_ & _ & _ & _ & _ & H6 & H7).
  fold (analyzeFields m s) in H6, H7. destruct m as [paths].
  cbn [productFiles fieldStats analysed] in *.
  rewrite H6, H7. clear H6 H7. split; [lia|].
  set (records := scanned {| productFiles := paths |} s) in *.
  set (keys := mjoin ((λ r : object, r.*1) <$> records)).
  destruct (tallies_fold id keys) as (Hcount & Hnone & Hinh & _).
  assert (∀ f, countOf id f keys = having f records) as Hc.
  { intros f. by apply countOf_records. }
  split_and!.
  - intros f Hf Hpos. rewrite <- Hc in Hpos |- *. by apply Hcount.
  - intros f Hall. apply Hnone. intros k Hk Hid. unfold id in Hid. subst k.
    apply list_elem_of_join in Hk as (ks & Hk & Hks).
    apply list_elem_of_fmap in Hks as (r & -> & Hr).
    apply hasOwnProperty_keys in Hk. rewrite (Hall r Hr) in Hk. done.
  - intros f n Hn.
    destruct (ofObjectPrototype f) eqn:Ef; [by destruct (Hinh f n Ef)|].
    split; [done|].
    rewrite (bump_fold_lookup id) in Hn. unfold tallyOf in Hn.
    destruct (Z.eqb_spec (countOf id f keys) 0) as [?|Hne]; [done|].
    rewrite (ordinary_not_proto f Ef), Ef in Hn. injection Hn as <-.
    rewrite Hc in Hne |- *. unfold having in *.
    pose proof (List.filter_length_le (hasOwnProperty f) records). lia.
Qed.

(** X11. [analyzeFields] counts the records of the listed files that
    hold an array: [totalProducts] is their number and, each record naming
    a field once, the count of a field whose name objects do not inherit
    is the number of records that have it; a field no record has is
    missing from the report; and a count in the report is at least 1 and
    at most [totalProducts]. Files that cannot be read are passed over. *)
Theorem analyzeFields_counts (m : t) (s : fs) :
  Forall wellKeyed (scanned m s) →
  let a := fst (analyzeFields m s) in
  analysed a = Z.of_nat (List.length (scanned m s)) ∧
  (∀ fieldName, ofObjectPrototype fieldName = false →
     0 < having fieldName (scanned m s) →
     fieldStats a !! fieldName =
       Some (Count (having fieldName (scanned m s)))) ∧
  (∀ fieldName,
     (∀ r, r ∈ scanned m s → hasOwnProperty fieldName r = false) →
     fieldStats a !! fieldName = None) ∧
  (∀ fieldName n, fieldStats a !! fieldName = Some (Count n) →
     ofObjectPrototype fieldName = false ∧ 0 < n ≤ analysed a).
Proof. apply analyzeFields_counts_aux. Qed.

End AnalysisFacts.

Section MoreStoreFacts.
Import FieldManager MutationSpec AnalysisSpec CountSpec.

Lemma get_set {V} (k k' : string) (v : V) (o : list (string * V)) :
  get k (set k' v o) = if String.eqb k' k then Some v else get k o.
Proof.
  unfold get. induction o as [|[k0 w] o IH]; cbn.
  - by destruct (String.eqb k' k).
  - destruct (String.eqb_spec k0 k') as [->|Hne]; cbn.
    + by destruct (String.eqb k' k).
    + destruct (String.eqb_spec k0 k) as [->|Hne2]; cbn.
      * destruct (String.eqb_spec k' k) as [->|?]; done.
      * exact IH.
Qed.

Lemma rest_content_idempotent (f : string) (c : content) :
  rewriteContent (removeFieldFrom f) (rewriteContent (removeFieldFrom f) c) =
  rewriteContent (removeFieldFrom f) c.
Proof.
  destruct c as [records|]; [|done]. simpl. f_equal.
  rewrite <- !list_fmap_compose. apply list_fmap_ext. intros _ r _. simpl.
  rewrite !removeField_record. apply rest_absent, hasOwnProperty_rest.
Qed.

(** X13. [removeField] leaves no record of a file it rewrites with the
    field, whether the record had it or not, and leaves the other fields
    of the record as they were; running it a second time changes nothing. *)
Theorem removeField_removes_and_is_idempotent (m : t) (fieldName : string)
    (s : fs) :
  let s1 := stateOf (removeField m fieldName s) in
  let s2 := stateOf (removeField m fieldName s1) in
  (∀ r : object,
     stringify (removeFieldFrom fieldName (parse r)) = rest fieldName r ∧
     get fieldName (rest fieldName r) = None ∧
     ∀ k, k ≠ fieldName → get k (rest fieldName r) = get k r) ∧
  (∀ q records,
     backupSucceeds m s = true → q ∈ productFiles m → q ∉ readOnly s →
     files s !! q = Some (Shard records) →
     files s1 !! q = Some (Shard (rest fieldName <$> records))) ∧
  files s2 = files s1.
Proof.
  intros s1 s2. unfold removeField in *.
  pose proof (after_batch (removeFieldFrom fieldName) m s
                (or_intror (rest_content_idempotent _)))
    as (Hf1 & Hro1 & Hok1).
  pose proof (after_batch (removeFieldFrom fieldName) m s1
                (or_intror (rest_content_idempotent _)))
    as (Hf2 & _ & _).
  fold s1 in Hf1, Hro1, Hok1. fold s2 in Hf2.
  split_and!.
  - intros r. split_and!.
    + apply removeField_record.
    + rewrite get_rest. by rewrite String.eqb_refl.
    + intros k Hk. rewrite get_rest.
      apply not_eq_sym, String.eqb_neq in Hk. by rewrite Hk.
  - intros q records Hok Hin Hro Hq.
    rewrite Hf1, decide_True, Hq by tauto. simpl. do 2 f_equal.
    rewrite <- !list_fmap_compose. apply list_fmap_ext. intros _ r _.
    apply removeField_record.
  - apply map_eq. intros q. rewrite Hf2, Hok1, Hro1, Hf1.
    destruct (decide _); [|done].
    destruct (files s !! q) as [c|]; [|done]. simpl.
    by rewrite rest_content_idempotent.
Qed.

(** X14. When no record of any file has the field, [addField] followed
    by [removeField] of the same field leaves every file holding what it
    held. *)
Theorem addField_then_removeField_restores (m : t) (fieldName : string)
    (defaultValue : value) (s : fs) :
  (∀ q records r, files s !! q = Some (Shard records) → r ∈ records →
                  hasOwnProperty fieldName r = false) →
  let s1 := stateOf (addField m fieldName defaultValue s) in
  let s2 := stateOf (removeField m fieldName s1) in
  files s2 = files s.
Proof.
  intros Hno s1 s2. unfold addField, removeField in *.
  pose proof (after_batch (addFieldTo fieldName defaultValue) m s
                (or_intror (addField_content_idempotent _ _)))
    as (Hf1 & Hro1 & Hok1).
  pose proof (after_batch (removeFieldFrom fieldName) m s1
                (or_intror (rest_content_idempotent _)))
    as (Hf2 & _ & _).
  fold s1 in Hf1, Hro1, Hok1. fold s2 in Hf2.
  apply map_eq. intros q. rewrite Hf2, Hok1, Hro1, Hf1.
  destruct (decide _); [|done].
  destruct (files s !! q) as [[records|]|] eqn:Eq; [|done..].
  simpl. do 2 f_equal. rewrite <- !list_fmap_compose.
  etrans; [|apply list_fmap_id]. apply list_fmap_ext. intros i r Hr. simpl.
  rewrite addField_record, removeField_record.
  assert (hasOwnProperty fieldName r = false) as Hr'.
  { eapply Hno; [done|]. by eapply list_elem_of_lookup_2. }
  rewrite Hr', rest_app, (rest_absent _ _ Hr'). simpl.
  rewrite String.eqb_refl. simpl. apply app_nil_r.
Qed.

(** X15. [renameField] on a record that has [oldName] gives [newName]
    the value [oldName] had, also when the record already had [newName]
    with another value, which is lost; [oldName] is gone, the other fields
    are as they were. A record without [oldName] is not changed. *)
Theorem renameField_overwrites (oldName newName : string) (r : object) :
  let r' := stringify (renameFieldIn oldName newName (parse r)) in
  (∀ v, get oldName r = Some v →
        get newName r' = Some v ∧
        (oldName ≠ newName → get oldName r' = None) ∧
        ∀ k, k ≠ oldName → k ≠ newName → get k r' = get k r) ∧
  (get oldName r = None → r' = r).
Proof.
  intros r'. subst r'. rewrite renameField_record. split.
  - intros v Hv. rewrite Hv. split_and!.
    + by rewrite get_set, String.eqb_refl.
    + intros Hne. rewrite get_set, get_rest, String.eqb_refl.
      apply not_eq_sym, String.eqb_neq in Hne. by rewrite Hne.
    + intros k Hk1 Hk2. rewrite get_set, get_rest.
      apply not_eq_sym, String.eqb_neq in Hk1.
      apply not_eq_sym, String.eqb_neq in Hk2. by rewrite Hk1, Hk2.
  - by intros ->.
Qed.

Lemma set_undefined_parse (f : string) (r : object) :
  hasOwnProperty f r = false → stringify (set f None (parse r)) = r.
Proof.
  intros H. rewrite set_absent by by rewrite hasOwnProperty_parse.
  unfold stringify. rewrite omap_app. cbn.
  rewrite app_nil_r. apply stringify_parse.
Qed.

Lemma stringify_cons (k : string) (u : option value)
    (o : list (string * option value)) :
  stringify ((k, u) :: o) =
    match u with Some v => (k, v) :: stringify o | None => stringify o end.
Proof. by destruct u. Qed.

Lemma get_cons {V} (k k0 : string) (w : V) (o : list (string * V)) :
  get k ((k0, w) :: o) = if String.eqb k0 k then Some w else get k o.
Proof. unfold get. cbn. by destruct (String.eqb k0 k). Qed.

Lemma get_stringify_set_other (f k : string) (u : option value) (r : object) :
  k ≠ f → get k (stringify (set f u (parse r))) = get k r.
Proof.
  intros Hk. apply not_eq_sym, String.eqb_neq in Hk.
  induction r as [|[k0 w] r IH].
  - change (set f u (parse [])) with [(f, u)].
    rewrite stringify_cons. destruct u; [|done]. by rewrite get_cons, Hk.
  - change (parse ((k0, w) :: r)) with ((k0, Some w) :: parse r).
    cbn [set]. destruct (String.eqb_spec k0 f) as [->|Hne].
    + rewrite stringify_cons, stringify_parse, get_cons, Hk.
      destruct u; [by rewrite get_cons, Hk|done].
    + rewrite stringify_cons, !get_cons. by rewrite IH.
Qed.

Lemma update_identity_record (f : string) (r : object) :
  stringify (updateFieldIn f (λ currentValue _, currentValue) (parse r)) = r.
Proof.
  unfold updateFieldIn. rewrite index_parse.
  destruct (get f r) as [v|] eqn:E.
  - rewrite set_parse, stringify_parse. by apply set_present.
  - apply set_undefined_parse. by apply get_None.
Qed.

Lemma update_identity_content (f : string) (c : content) :
  rewriteContent (updateFieldIn f (λ currentValue _, currentValue)) c = c.
Proof.
  destruct c as [records|]; [|done]. simpl. f_equal.
  rewrite <- !list_fmap_compose. etrans; [|apply list_fmap_id].
  apply list_fmap_ext. intros _ r _. apply update_identity_record.
Qed.

(** X16. For a field whose name is not one that objects inherit,
    [updateField] gives every record of a file it rewrites the value the
    updater returns for the field, also a record that lacked the field,
    which the updater then sees as undefined; the other fields are as
    they were. An updater that returns the current value leaves every
    file holding what it held. *)
Theorem updateField_sets_the_field (m : t) (fieldName : string)
    (updater : option value → list (string * option value) → option value)
    (s : fs) :
  ofObjectPrototype fieldName = false →
  (∀ r : object,
     let r' := stringify (updateFieldIn fieldName updater (parse r)) in
     (∀ v, updater (get fieldName r) (parse r) = Some v →
           get fieldName r' = Some v) ∧
     (∀ k, k ≠ fieldName → get k r' = get k r)) ∧
  (∀ q records,
     NoDup (productFiles m) → backupSucceeds m s = true →
     q ∈ productFiles m → q ∉ readOnly s →
     files s !! q = Some (Shard records) →
     files (stateOf (updateField m fieldName updater s)) !! q =
       Some (rewritten (UpdateField fieldName updater) records)) ∧
  files (stateOf (updateField m fieldName (λ currentValue _, currentValue) s))
    = files s.
Proof.
  intros _. split_and!.
  - intros r r'. subst r'. unfold updateFieldIn. rewrite index_parse. split.
    + intros v ->. rewrite set_parse, stringify_parse.
      by rewrite get_set, String.eqb_refl.
    + intros k Hk. by apply get_stringify_set_other.
  - intros q records Hnd Hok Hin Hro Hq. unfold updateField.
    pose proof (after_batch (updateFieldIn fieldName updater) m s
                  (or_introl Hnd)) as (Hf & _ & _).
    rewrite Hf, decide_True, Hq by tauto. done.
  - unfold updateField.
    pose proof (after_batch
                  (updateFieldIn fieldName (λ currentValue _, currentValue))
                  m s (or_intror (λ c, eq_trans
                         (f_equal _ (update_identity_content fieldName c))
                         (eq_refl _)))) as (Hf & _ & _).
    apply map_eq. intros q. rewrite Hf. destruct (decide _); [|done].
    destruct (files s !! q) as [c|]; [|done]. simpl.
    by rewrite update_identity_content.
Qed.

(** ** Analysis after a mutation *)

Lemma recordsOf_after (cb : list (string * option value) → list (string * option value))
    (q : string) (s s1 : fs) :
  files s1 !! q = rewriteContent cb <$> files s !! q →
  recordsOf s1 q =
    (λ records : list (list (string * value)),
       (λ r, stringify (cb (parse r))) <$> records) <$> recordsOf s q.
Proof.
  unfold recordsOf. intros ->.
  destruct (files s !! q) as [[records|]|]; cbn; [|done..].
  by rewrite <- !list_fmap_compose.
Qed.

Lemma scanned_after (cb : list (string * option value) → list (string * option value))
    (paths : list string) (s s1 : fs) :
  (∀ q, q ∈ paths → files s1 !! q = rewriteContent cb <$> files s !! q) →
  scanned {| productFiles := paths |} s1 =
    (λ r, stringify (cb (parse r))) <$> scanned {| productFiles := paths |} s.
Proof.
  unfold scanned. cbn [productFiles].
  induction paths as [|q paths IH]; intros H; [done|].
  cbn [omap list_omap].
  rewrite (recordsOf_after cb q s s1) by (apply H; by left).
  assert (mjoin (omap (recordsOf s1) paths) =
          (λ r, stringify (cb (parse r))) <$> mjoin (omap (recordsOf s) paths))
    as IH'.
  { apply IH. intros q' Hq'. apply H. by right. }
  destruct (recordsOf s q) as [records|]; cbn [fmap option_fmap option_map
    mjoin list_join]; [|exact IH'].
  rewrite fmap_app. f_equal. exact IH'.
Qed.

Lemma fillIn_wellKeyed (f : string) (d : value) (r : object) :
  wellKeyed r → wellKeyed (fillIn f d r).
Proof.
  unfold wellKeyed, fillIn. intros Hnd.
  destruct (hasOwnProperty f r) eqn:E; [done|].
  rewrite fmap_app. apply NoDup_app. split; [done|].
  split; [|apply NoDup_singleton].
  intros k Hk Hk'. cbn in Hk'. apply list_elem_of_singleton in Hk' as ->.
  apply hasOwnProperty_keys in Hk. congruence.
Qed.

Lemma fillIn_has (f : string) (d : value) (r : object) :
  hasOwnProperty f (fillIn f d r) = true.
Proof.
  unfold fillIn. destruct (hasOwnProperty f r) eqn:E; [done|].
  apply hasOwnProperty_keys. rewrite fmap_app. apply elem_of_app. right.
  cbn. by left.
Qed.

Lemma having_all (f : string) (l : list object) :
  Forall (λ r, hasOwnProperty f r = true) l →
  having f l = Z.of_nat (List.length l).
Proof.
  induction 1 as [|r l Hr Hall IH]; [done|].
  rewrite having_cons, Hr, IH. cbn [List.length]. lia.
Qed.

(** X12. When the backup succeeds, every listed file can be written,
    each record names a field once and the field's name is not one that
    objects inherit, the analysis that follows [addField] finds the field
    in every record: its count equals [totalProducts], which is the
    number of records there were. *)
Theorem addField_then_analyzeFields_full_coverage (m : t)
    (fieldName : string) (defaultValue : value) (s : fs) :
  backupSucceeds m s = true →
  (∀ q, q ∈ productFiles m → q ∉ readOnly s) →
  Forall wellKeyed (scanned m s) →
  ofObjectPrototype fieldName = false →
  let s1 := stateOf (addField m fieldName defaultValue s) in
  let a := fst (analyzeFields m s1) in
  analysed a = Z.of_nat (List.length (scanned m s)) ∧
  (0 < analysed a → fieldStats a !! fieldName = Some (Count (analysed a))).
Proof.
  intros Hok Hw Hwk Hord s1 a. unfold addField in s1.
  pose proof (after_batch (addFieldTo fieldName defaultValue) m s
                (or_intror (addField_content_idempotent _ _)))
    as (Hf1 & _ & _).
  fold s1 in Hf1.
  assert (scanned m s1 = fillIn fieldName defaultValue <$> scanned m s) as Hsc.
  { destruct m as [paths]. cbn [productFiles] in *.
    rewrite (scanned_after (addFieldTo fieldName defaultValue) paths s s1).
    - apply list_fmap_ext. intros _ r _. apply addField_record.
    - intros q Hq. rewrite Hf1, decide_True; [done|].
      split_and!; [done..|]. by apply Hw. }
  assert (Forall wellKeyed (scanned m s1)) as Hwk1.
  { rewrite Hsc. apply Forall_fmap. eapply Forall_impl; [exact Hwk|].
    intros r Hr. by apply fillIn_wellKeyed. }
  destruct (analyzeFields_counts_aux m s1 Hwk1) as (Hn & Hc & _).
  fold a in Hn, Hc.
  assert (having fieldName (scanned m s1) = analysed a) as Hall.
  { rewrite Hn. apply having_all. rewrite Hsc.
    apply Forall_fmap, Forall_true. intros r. apply fillIn_has. }
  split; [by rewrite Hn, Hsc, length_fmap|].
  intros Hpos. rewrite <- Hall in Hpos |- *. by apply Hc.
Qed.

(** ** The report of an operation *)





End MoreStoreFacts.

(** * The product detail route *)

Section RouteFacts.
Import ProductService ProductRoute RouteSpec.

(** X18. The detail route answers 400, 404 or 200 and nothing else. It
    answers 400, without looking at the collection, exactly when the id
    is empty, has a character other than a letter, a digit, [-] or [_],
    or is longer than 50; 404 exactly when the id is well formed and no
    product has it; and 200 exactly when the id is well formed and a
    product has it, with what [getProductById] returns as data. Only a
    200 carries data or reports success. *)
Theorem detail_route_answers (id : string) (productsData : list Product.t) :
  let r := GET id productsData in
  (status r = 400 ∨ status r = 404 ∨ status r = 200) ∧
  (status r = 400 ↔ wellFormed id = false) ∧
  (wellFormed id = false → ∀ other, GET id other = r) ∧
  (status r = 404 ↔
     wellFormed id = true ∧ ∀ p, p ∈ productsData → Product.id p ≠ id) ∧
  (status r = 200 ↔
     wellFormed id = true ∧ ∃ p, p ∈ productsData ∧ Product.id p = id) ∧
  (status r = 200 →
     ∃ result, getProductById id productsData = Returns result ∧
               data r = Some result ∧ Product.id (product result) = id) ∧
  (success r = true ↔ status r = 200) ∧
  (is_Some (data r) ↔ status r = 200).
Proof.
  intros r. subst r.
  assert (wellFormed id = false → ∀ other, GET id other = GET id productsData)
    as Hsame.
  { intros Hw other. rewrite !GET_cases. by rewrite Hw. }
  pose proof (GET_cases id productsData) as Hc.
  pose proof (find_id_None id productsData) as Hnone.
  unfold getProductById in *.
  destruct (wellFormed id) eqn:Ew.
  - destruct (List.find _ productsData) as [p|] eqn:E.
    + apply find_id_Some in E as [Hp Hid]. rewrite Hc. cbn.
      split_and!.
      * by right; right.
      * done.
      * done.
      * split; [done|]. intros [_ Hno]. by destruct (Hno p Hp).
      * split; [|done]. intros _. split; [done|]. by exists p.
      * intros _. by eexists.
      * done.
      * split; [done|]. intros _. by eexists.
    + rewrite Hc. cbn. split_and!.
      * by right; left.
      * done.
      * done.
      * split; [|done]. intros _. split; [done|]. by apply Hnone.
      * split; [done|]. intros [_ (p & Hp & Hid)].
        by destruct (proj1 Hnone eq_refl p Hp).
      * done.
      * done.
      * split; [by intros [? ?]|done].
  - assert (status (GET id productsData) = 400 ∧
            success (GET id productsData) = false ∧
            data (GET id productsData) = None) as (Hs & Hok & Hd).
    { rewrite Hc. by destruct (String.eqb id EmptyString). }
    rewrite Hs, Hok, Hd. split_and!.
    + by left.
    + done.
    + exact Hsame.
    + split; [done|]. by intros [? _].
    + split; [done|]. by intros [? _].
    + done.
    + done.
    + split; [by intros [? ?]|done].
Qed.

End RouteFacts.

(** * The splitter *)

Section PropsFacts.
Import FieldManager.
Context {V : Type}.

Lemma get_app_fresh (k : string) (o1 o2 : list (string * V)) :
  k ∉ o1.*1 → get k (o1 ++ o2) = get k o2.
Proof.
  unfold get. induction o1 as [|[k' w] o1 IH]; intros Hk; [done|].
  rewrite fmap_cons in Hk. apply not_elem_of_cons in Hk as [Hne Hk].
  cbn. destruct (String.eqb_spec k' k) as [->|_]; [done|]. by apply IH.
Qed.

Lemma get_None_keys (k : string) (o : list (string * V)) :
  get k o = None ↔ k ∉ o.*1.
Proof.
  unfold get. induction o as [|[k' w] o IH]; cbn.
  - split; [|done]. intros _ H. by apply elem_of_nil in H.
  - destruct (String.eqb_spec k' k) as [->|Hne]; cbn.
    + split; [done|]. intros H. destruct H. by left.
    + rewrite IH. rewrite not_elem_of_cons. split; [|tauto].
      intros H. split; [|done]. by intros ->.
Qed.

Lemma get_Some_split (k : string) (v : V) (o : list (string * V)) :
  get k o = Some v →
  ∃ o1 o2, o = o1 ++ (k, v) :: o2 ∧ k ∉ o1.*1.
Proof.
  unfold get. induction o as [|[k' w] o IH]; cbn; [done|].
  destruct (String.eqb_spec k' k) as [->|Hne]; cbn.
  - intros [= ->]. exists [], o. split; [done|]. apply not_elem_of_nil.
  - intros H. destruct (IH H) as (o1 & o2 & -> & Hk).
    exists ((k', w) :: o1), o2. split; [done|].
    rewrite fmap_cons. apply not_elem_of_cons. split; [|done].
    by intros ->.
Qed.

Lemma set_app_fresh (k : string) (v w : V) (o1 o2 : list (string * V)) :
  k ∉ o1.*1 → set k v (o1 ++ (k, w) :: o2) = o1 ++ (k, v) :: o2.
Proof.
  induction o1 as [|[k' u] o1 IH]; intros Hk; cbn.
  - by rewrite String.eqb_refl.
  - rewrite fmap_cons in Hk. apply not_elem_of_cons in Hk as [Hne Hk].
    destruct (String.eqb_spec k' k) as [->|_]; [done|].
    f_equal. by apply IH.
Qed.

Lemma set_fresh (k : string) (v : V) (o : list (string * V)) :
  k ∉ o.*1 → set k v o = o ++ [(k, v)].
Proof.
  induction o as [|[k' u] o IH]; intros Hk; cbn; [done|].
  rewrite fmap_cons in Hk. apply not_elem_of_cons in Hk as [Hne Hk].
  destruct (String.eqb_spec k' k) as [->|_]; [done|].
  f_equal. by apply IH.
Qed.

Lemma defineIndex_split (n : N) (k : string) (v : V) (o : list (string * V)) :
  ∃ o1 o2, o = o1 ++ o2 ∧ defineIndex n k v o = o1 ++ (k, v) :: o2.
Proof.
  induction o as [|[k' w] o IH]; cbn [defineIndex].
  { by exists [], []. }
  destruct (arrayIndex k') as [n'|]; [|by exists [], ((k', w) :: o)].
  destruct (n' <? n)%N; [|by exists [], ((k', w) :: o)].
  destruct IH as (o1 & o2 & -> & ->). by exists ((k', w) :: o1), o2.
Qed.

Lemma define_split (k : string) (v : V) (o : list (string * V)) :
  ∃ o1 o2, o = o1 ++ o2 ∧ define k v o = o1 ++ (k, v) :: o2.
Proof.
  unfold define. destruct (arrayIndex k) as [n|].
  - apply defineIndex_split.
  - exists o, []. by rewrite app_nil_r.
Qed.

Lemma get_define (k k' : string) (v : V) (o : list (string * V)) :
  k ∉ o.*1 →
  get k' (define k v o) = if String.eqb k k' then Some v else get k' o.
Proof.
  intros Hk. destruct (define_split k v o) as (o1 & o2 & -> & ->).
  rewrite fmap_app, not_elem_of_app in Hk. destruct Hk as [Hk1 Hk2].
  destruct (String.eqb_spec k k') as [<-|Hne].
  - rewrite get_app_fresh by done. unfold get. cbn.
    by rewrite String.eqb_refl.
  - destruct (decide (k' ∈ o1.*1)) as [Hin|Hnin].
    + apply not_eq_sym in Hne. clear Hk1.
      induction o1 as [|[k0 w] o1 IH]; [by apply elem_of_nil in Hin|].
      unfold get in *. cbn. destruct (String.eqb_spec k0 k'); [done|].
      apply IH. rewrite fmap_cons in Hin.
      by apply elem_of_cons in Hin as [?|?].
    + rewrite !get_app_fresh by done. unfold get. cbn.
      apply String.eqb_neq in Hne. by rewrite Hne.
Qed.

Lemma define_perm (k : string) (v : V) (o : list (string * V)) :
  define k v o ≡ₚ (k, v) :: o.
Proof.
  destruct (define_split k v o) as (o1 & o2 & -> & ->).
  by rewrite Permutation_middle.
Qed.

Lemma get_elem_of (k : string) (v : V) (o : list (string * V)) :
  NoDup o.*1 → get k o = Some v ↔ (k, v) ∈ o.
Proof.
  intros Hnd. split.
  - intros H. apply get_Some_split in H as (o1 & o2 & -> & _).
    apply elem_of_app. right. by left.
  - intros H. apply list_elem_of_split in H as (o1 & o2 & ->).
    rewrite fmap_app, fmap_cons in Hnd.
    apply NoDup_app in Hnd as (_ & Hdis & _).
    rewrite get_app_fresh.
    + unfold get. cbn. by rewrite String.eqb_refl.
    + intros Hk. apply (Hdis k Hk). by left.
Qed.

End PropsFacts.

Section SplitFacts.
Import ProductService DataSplitter SplitSpec.

Variable SERIES_CONFIG : list Schema.SeriesConfig.
Variable safeFileName : string → string.
Variable Date_getTime : string → number.

Local Abbreviation keyOf := (SplitSpec.keyOf SERIES_CONFIG safeFileName).
Local Abbreviation groupOf := (SplitSpec.groupOf SERIES_CONFIG safeFileName).
Local Abbreviation groupProductsBySeries :=
  (DataSplitter.groupProductsBySeries SERIES_CONFIG safeFileName).

Lemma groupOf_snoc (k : string) (l : list Product.t) (x : Product.t) :
  filter (λ p, keyOf p = k) (l ++ [x]) =
  filter (λ p, keyOf p = k) l ++ (if decide (keyOf x = k) then [x] else []).
Proof.
  rewrite filter_app, filter_cons, filter_nil.
  by destruct (decide (keyOf x = k)).
Qed.

Lemma groupOf_Some (k : string) (l group : list Product.t) :
  groupOf k l = Some group →
  group = filter (λ p, keyOf p = k) l ∧ group ≠ [].
Proof.
  unfold SplitSpec.groupOf.
  destruct (filter _ l) as [|p f]; [done|]. by intros [= <-].
Qed.

Lemma groupOf_None (k : string) (l : list Product.t) :
  groupOf k l = None → filter (λ p, keyOf p = k) l = [].
Proof. unfold SplitSpec.groupOf. by destruct (filter _ l). Qed.

Lemma groupOf_nonempty (k : string) (l : list Product.t) :
  filter (λ p, keyOf p = k) l ≠ [] →
  groupOf k l = Some (filter (λ p, keyOf p = k) l).
Proof. unfold SplitSpec.groupOf. by destruct (filter _ l). Qed.

Lemma group_fold (l : list Product.t) :
  match groupProductsBySeries l with
  | Some g =>
      Forall (λ p, ofObjectPrototype (keyOf p) = false) l ∧
      NoDup g.*1 ∧
      (∀ k, FieldManager.get k g = groupOf k l) ∧
      mjoin g.*2 ≡ₚ l
  | None => Exists (λ p, ofObjectPrototype (keyOf p) = true) l
  end.
Proof.
  induction l as [|x l IH] using rev_ind.
  { cbn. split_and!; [done|constructor|done|done]. }
  unfold DataSplitter.groupProductsBySeries. rewrite foldl_app. cbn [foldl].
  fold (groupProductsBySeries l).
  destruct (groupProductsBySeries l) as [g|]; [|apply Exists_app; by left].
  destruct IH as (Hord & Hnd & Hget & Hperm).
  unfold groupProduct. fold (keyOf x).
  destruct (FieldManager.get (keyOf x) g) as [group|] eqn:E.
  - pose proof E as E'. rewrite Hget in E'.
    apply groupOf_Some in E' as [Hgroup Hne].
    assert (ofObjectPrototype (keyOf x) = false) as Hx.
    { destruct group as [|p group]; [done|].
      assert (p ∈ filter (λ p, keyOf p = keyOf x) l) as Hp
        by (rewrite <- Hgroup; by left).
      apply list_elem_of_filter in Hp as [Hkp Hp].
      rewrite <- Hkp. by apply (proj1 (Forall_forall _ _) Hord). }
    split_and!.
    + apply Forall_app. split; [done|]. by constructor.
    + apply get_Some_split in E as (o1 & o2 & -> & Hk).
      rewrite set_app_fresh by done.
      by rewrite fmap_app, fmap_cons in *.
    + intros k. rewrite get_set.
      destruct (String.eqb_spec (keyOf x) k) as [<-|Hne'].
      * unfold SplitSpec.groupOf.
        rewrite groupOf_snoc, decide_True, <- Hgroup by done.
        by destruct group.
      * rewrite Hget. unfold SplitSpec.groupOf.
        by rewrite groupOf_snoc, decide_False, app_nil_r.
    + apply get_Some_split in E as (o1 & o2 & -> & Hk).
      rewrite set_app_fresh by done.
      rewrite fmap_app, fmap_cons, join_app in *. cbn in *.
      rewrite <- Hperm. rewrite <- !app_assoc.
      apply Permutation_app_head. apply Permutation_app_head.
      apply Permutation_app_comm.
  - rewrite Hget in E. apply groupOf_None in E.
    destruct (ofObjectPrototype (keyOf x)) eqn:Hx.
    { apply Exists_app. right. by constructor. }
    assert (keyOf x ∉ g.*1) as Hfresh.
    { apply get_None_keys. rewrite Hget. unfold SplitSpec.groupOf.
      by rewrite E. }
    split_and!.
    + apply Forall_app. split; [done|]. by constructor.
    + rewrite (define_perm (keyOf x) [x] g). rewrite fmap_cons.
      by apply NoDup_cons.
    + intros k. rewrite get_define by done.
      destruct (String.eqb_spec (keyOf x) k) as [<-|Hne'].
      * unfold SplitSpec.groupOf.
        by rewrite groupOf_snoc, decide_True, E.
      * rewrite Hget. unfold SplitSpec.groupOf.
        by rewrite groupOf_snoc, decide_False, app_nil_r.
    + rewrite (define_perm (keyOf x) [x] g), fmap_cons. cbn.
      rewrite Hperm. apply Permutation_cons_append.
Qed.

(** X19. [groupProductsBySeries] throws exactly when the key of some
    product is a name that objects inherit. Otherwise it cuts the
    collection into groups: the keys of the groups are distinct, the group
    of a key holds the products with that key in the order of the source,
    no group is empty, and the groups together hold every product
    once. *)
Theorem groupProductsBySeries_partitions (products : list Product.t) :
  (groupProductsBySeries products = None ↔
     ∃ p, p ∈ products ∧ ofObjectPrototype (keyOf p) = true) ∧
  ∀ seriesGroups, groupProductsBySeries products = Some seriesGroups →
    NoDup seriesGroups.*1 ∧
    (∀ k, FieldManager.get k seriesGroups = groupOf k products) ∧
    (∀ k group, (k, group) ∈ seriesGroups →
       group ≠ [] ∧ group = filter (λ p, keyOf p = k) products) ∧
    mjoin seriesGroups.*2 ≡ₚ products.
Proof.
  pose proof (group_fold products) as H.
  destruct (groupProductsBySeries products) as [g|].
  - destruct H as (Hord & Hnd & Hget & Hperm). split.
    + split; [done|]. intros (p & Hp & Hk).
      rewrite (proj1 (Forall_forall _ _) Hord p Hp) in Hk. done.
    + intros ? [= <-]. split_and!; try done.
      intros k group Hin. apply (get_elem_of _ _ _ Hnd) in Hin.
      rewrite Hget in Hin. by apply groupOf_Some in Hin as [? ?].
  - split; [|done]. split; [|done]. intros _.
    by apply Exists_exists in H.
Qed.

(** ** Writing the files *)

Lemma string_length_app (s1 s2 : string) :
  String.length (String.append s1 s2) =
  (String.length s1 + String.length s2)%nat.
Proof.
  induction s1 as [|c s1 IH]; [done|].
  change (S (String.length (String.append s1 s2)) =
          S (String.length s1 + String.length s2)).
  by rewrite IH.
Qed.

Lemma string_app_inj_l (s1 s2 t : string) :
  String.append s1 t = String.append s2 t → s1 = s2.
Proof.
  revert s2. induction s1 as [|c s1 IH]; intros [|c' s2] H.
  - done.
  - apply (f_equal String.length) in H.
    rewrite !string_length_app in H. cbn in H. lia.
  - apply (f_equal String.length) in H.
    rewrite !string_length_app in H. cbn in H. lia.
  - cbn in H. injection H as -> H. f_equal. by apply IH.
Qed.

Lemma withProductsDir_id (d : disk) (files : gmap string file) :
  productsDir d = Some files → withProductsDir files d = d.
Proof. destruct d. cbn. by intros ->. Qed.

Local Abbreviation cmp := (byReleaseDate Date_getTime).
Local Abbreviation afterWrites := (SplitSpec.afterWrites Date_getTime).
Local Abbreviation sortedGroups := (SplitSpec.sortedGroups Date_getTime).

Lemma writeSeriesFile_fold (es g : list (string * list Product.t))
    (d : disk) (files : gmap string file) :
  productsDir d = Some files →
  foldl (writeSeriesFile Date_getTime) (g, d) es =
    (foldl (λ g (e : string * list Product.t),
              FieldManager.set e.1 (sort cmp e.2) g) g es,
     withProductsDir (afterWrites (readOnly d) es files) d).
Proof.
  revert g d files. induction es as [|[k l] es IH]; intros g d files Hd.
  { cbn. by rewrite withProductsDir_id. }
  cbn [foldl writeSeriesFile]. unfold writeFileSync. rewrite Hd.
  unfold SplitSpec.afterWrites. cbn [foldl fst snd].
  destruct (decide (String.append k ".json" ∈ readOnly d)).
  - cbn [stateOf]. by rewrite (IH _ d files Hd).
  - cbn [stateOf].
    rewrite (IH _ (withProductsDir _ d) _ eq_refl). done.
Qed.

Lemma sorted_in_place (pre es : list (string * list Product.t)) :
  NoDup (pre ++ es).*1 →
  foldl (λ g (e : string * list Product.t),
           FieldManager.set e.1 (sort cmp e.2) g) (pre ++ es) es =
  pre ++ sortedGroups es.
Proof.
  revert pre. induction es as [|[k l] es IH]; intros pre Hnd; [done|].
  cbn [foldl fst snd].
  assert (k ∉ pre.*1) as Hk.
  { rewrite fmap_app in Hnd. apply NoDup_app in Hnd as (_ & Hdis & _).
    intros Hin. apply (Hdis k Hin). rewrite fmap_cons. by left. }
  rewrite set_app_fresh by done.
  change (pre ++ (k, sort cmp l) :: es)
    with (pre ++ [(k, sort cmp l)] ++ es).
  rewrite app_assoc, IH.
  - by rewrite <- app_assoc.
  - rewrite <- app_assoc. cbn.
    rewrite !fmap_app, !fmap_cons in *. done.
Qed.

Lemma sorted_in_place_all (es : list (string * list Product.t)) :
  NoDup es.*1 →
  foldl (λ g (e : string * list Product.t),
           FieldManager.set e.1 (sort cmp e.2) g) es es =
  sortedGroups es.
Proof. intros Hnd. exact (sorted_in_place [] es Hnd). Qed.

Lemma afterWrites_cons (ro : gset string) (k : string)
    (l : list Product.t) (es : list (string * list Product.t))
    (files : gmap string file) :
  afterWrites ro ((k, l) :: es) files =
  afterWrites ro es
    (if decide (String.append k ".json" ∈ ro) then files
     else <[String.append k ".json" := SeriesFile (sort cmp l)]> files).
Proof. done. Qed.

Lemma afterWrites_other (ro : gset string)
    (es : list (string * list Product.t)) (files : gmap string file)
    (q : string) :
  q ∈ ro ∨ (∀ k, k ∈ es.*1 → String.append k ".json" ≠ q) →
  afterWrites ro es files !! q = files !! q.
Proof.
  revert files. induction es as [|[k l] es IH]; intros files H; [done|].
  rewrite afterWrites_cons, IH.
  - destruct (decide _) as [|Hw]; [done|].
    apply lookup_insert_ne. destruct H as [H|H].
    + intros Heq. by subst q.
    + apply H. rewrite fmap_cons. by left.
  - destruct H as [H|H]; [by left|right].
    intros k' Hk'. apply H. rewrite fmap_cons. by right.
Qed.

Lemma afterWrites_written (ro : gset string)
    (es : list (string * list Product.t)) (files : gmap string file)
    (k : string) (l : list Product.t) :
  NoDup es.*1 → (k, l) ∈ es → String.append k ".json" ∉ ro →
  afterWrites ro es files !! String.append k ".json" =
    Some (SeriesFile (sort cmp l)).
Proof.
  revert files. induction es as [|[k' l'] es IH]; intros files Hnd Hin Hw.
  { by apply elem_of_nil in Hin. }
  rewrite fmap_cons in Hnd. apply NoDup_cons in Hnd as [Hk' Hnd].
  rewrite afterWrites_cons.
  apply elem_of_cons in Hin as [[= <- <-]|Hin].
  - rewrite afterWrites_other.
    + rewrite decide_False by done. apply lookup_insert_eq.
    + right. intros k2 Hk2 Heq. apply string_app_inj_l in Heq.
      by subst k2.
  - by apply IH.
Qed.

Lemma createBackup_cases (d : disk) :
  match createBackup d with
  | Done _ d1 =>
      backupDirWritable d = true ∧ source d ≠ Missing ∧
      source d1 = source d ∧ backups d1 = source d :: backups d ∧
      readOnly d1 = readOnly d ∧ productsDir d1 = productsDir d ∧
      productsDirCreatable d1 = productsDirCreatable d
  | Failed d1 =>
      d1 = d ∧ (backupDirWritable d = false ∨ source d = Missing)
  end.
Proof.
  unfold createBackup. destruct (backupDirWritable d); [|by split; [|left]].
  destruct (source d) eqn:E; cbn; rewrite ?E; split_and!; try done.
  by right.
Qed.

Lemma ensureDirectories_cases (d : disk) :
  match ensureDirectories d with
  | Done _ d1 =>
      source d1 = source d ∧ backups d1 = backups d ∧
      readOnly d1 = readOnly d ∧ productsDir d1 = Some (filesOf d) ∧
      (is_Some (productsDir d) ∨ productsDirCreatable d = true)
  | Failed d1 =>
      d1 = d ∧ productsDir d = None ∧ productsDirCreatable d = false
  end.
Proof.
  unfold ensureDirectories, filesOf.
  destruct (productsDir d) as [files|] eqn:E; cbn.
  - rewrite E. split_and!; try done. by left.
  - destruct (productsDirCreatable d); cbn; split_and!; try done. by right.
Qed.

Lemma writeSeriesFiles_cases (x : t) (d : disk) (files : gmap string file) :
  productsDir d = Some files →
  writeSeriesFiles Date_getTime x d =
    ({| products := products x;
        seriesGroups :=
          foldl (λ g (e : string * list Product.t),
                   FieldManager.set e.1 (sort cmp e.2) g)
                (seriesGroups x) (seriesGroups x) |},
     withProductsDir (afterWrites (readOnly d) (seriesGroups x) files) d).
Proof.
  intros Hd. unfold writeSeriesFiles.
  by rewrite (writeSeriesFile_fold _ _ d files Hd).
Qed.

Lemma createSeriesIndex_cases (x : t) (d : disk) (files : gmap string file) :
  productsDir d = Some files →
  createSeriesIndex x d =
    withProductsDir
      (if decide ("_index.json" ∈ readOnly d) then files
       else <["_index.json" := IndexFile (indexData x)]> files) d.
Proof.
  intros Hd. unfold createSeriesIndex, writeFileSync. rewrite Hd.
  destruct (decide _); cbn [stateOf]; [|done].
  by rewrite withProductsDir_id.
Qed.

Lemma split_cases (x : t) (d : disk) :
  let groups := foldl (λ g (e : string * list Product.t),
                         FieldManager.set e.1 (sort cmp e.2) g)
                      (seriesGroups x) (seriesGroups x) in
  let x' := {| products := products x; seriesGroups := groups |} in
  let written := afterWrites (readOnly d) (seriesGroups x) (filesOf d) in
  match split Date_getTime x d with
  | Done x'' d' =>
      backupDirWritable d = true ∧ source d ≠ Missing ∧
      (is_Some (productsDir d) ∨ productsDirCreatable d = true) ∧
      x'' = x' ∧
      source d' = source d ∧ backups d' = source d :: backups d ∧
      readOnly d' = readOnly d ∧
      productsDir d' =
        Some (if decide ("_index.json" ∈ readOnly d) then written
              else <["_index.json" := IndexFile (indexData x')]> written)
  | Failed d' =>
      (backupDirWritable d = false ∨ source d = Missing ∨
       (productsDir d = None ∧ productsDirCreatable d = false)) ∧
      source d' = source d ∧ productsDir d' = productsDir d ∧
      readOnly d' = readOnly d ∧
      (backupDirWritable d = false ∨ source d = Missing → d' = d)
  end.
Proof.
  cbv zeta. unfold split.
  pose proof (createBackup_cases d) as Hb.
  destruct (createBackup d) as [[] d1|d1].
  - destruct Hb as (Hw & Hsrc & Hs1 & Hb1 & Hro1 & Hd1 & Hc1).
    pose proof (ensureDirectories_cases d1) as He.
    destruct (ensureDirectories d1) as [[] d2|d2].
    + destruct He as (Hs2 & Hb2 & Hro2 & Hd2 & Hex).
      rewrite (writeSeriesFiles_cases x d2 _ Hd2).
      rewrite (createSeriesIndex_cases _ (withProductsDir _ d2) _ eq_refl).
      cbn [source backups readOnly productsDir withProductsDir].
      rewrite Hs2, Hb2, Hro2, Hs1, Hb1, Hro1.
      assert (filesOf d1 = filesOf d) as -> by (unfold filesOf; by rewrite Hd1).
      split_and!; try done. by rewrite <- Hd1, <- Hc1.
    + destruct He as (-> & Hnone & Hcr).
      rewrite Hs1, Hro1, Hd1. split_and!; try done.
      * right. right. by rewrite <- Hd1, <- Hc1.
      * intros [?|?]; congruence.
  - destruct Hb as (-> & H). split_and!; try done.
    destruct H; [by left|by right; left].
Qed.

Local Abbreviation new := (DataSplitter.new SERIES_CONFIG safeFileName).
Local Abbreviation split := (DataSplitter.split Date_getTime).
Local Abbreviation onDisk := (SplitSpec.onDisk Date_getTime).

Lemma new_spec (d0 : disk) (x : t) :
  new d0 = Some x →
  source d0 = Products (products x) ∧
  groupProductsBySeries (products x) = Some (seriesGroups x).
Proof.
  unfold DataSplitter.new, loadSourceData.
  destruct (source d0) as [| |l]; [done..|].
  destruct (groupProductsBySeries l) as [g|] eqn:E; [|done].
  by intros [= <-].
Qed.

(** X20. [split] makes the backup first. When the backup directory
    cannot be written or the source file is gone, it throws and leaves
    everything as it was. Whenever it throws, no file of the products
    directory has been written. When it returns, the newest backup is a
    copy of the source file, which is as it was, and the splitter holds
    the same products. It returns exactly when the backup can be made
    and the products directory exists or can be created: a series file or
    an index that cannot be written does not make it throw. *)
Theorem split_backs_up_first (x : t) (d : disk) :
  (backupDirWritable d = false ∨ source d = Missing → split x d = Failed d) ∧
  (∀ d', split x d = Failed d' →
     productsDir d' = productsDir d ∧ source d' = source d ∧
     (backupDirWritable d = false ∨ source d = Missing ∨
      (productsDir d = None ∧ productsDirCreatable d = false))) ∧
  (∀ x' d', split x d = Done x' d' →
     backups d' = source d :: backups d ∧ source d' = source d ∧
     products x' = products x ∧ is_Some (productsDir d')) ∧
  (backupDirWritable d = true → source d ≠ Missing →
   is_Some (productsDir d) ∨ productsDirCreatable d = true →
   ∃ x' d', split x d = Done x' d').
Proof.
  pose proof (split_cases x d) as H. cbv zeta in H.
  destruct (split x d) as [x' d'|d'].
  - destruct H as (Hw & Hsrc & Hdir & -> & Hs & Hb & Hro & Hp).
    split_and!.
    + intros [?|?]; congruence.
    + done.
    + intros ? ? [= <- <-]. split_and!; first [done|by rewrite Hp].
    + intros _ _ _. by eexists _, _.
  - destruct H as (Hwhy & Hs & Hp & Hro & Hsame). split_and!.
    + intros Hf. by rewrite (Hsame Hf).
    + by intros ? [= <-].
    + done.
    + intros Hw Hsrc Hdir. exfalso.
      destruct Hwhy as [?|[?|[Hn Hc]]]; [congruence|done|].
      destruct Hdir as [[? ?]|?]; congruence.
Qed.

Lemma sumZ_lengths (g : list (string * list Product.t)) :
  AnalysisSpec.sumZ ((λ e : string * list Product.t,
                        Z.of_nat (List.length e.2)) <$> g) =
  Z.of_nat (List.length (mjoin g.*2)).
Proof.
  induction g as [|[k l] g IH]; [done|].
  cbn [fmap list_fmap AnalysisSpec.sumZ snd mjoin list_join].
  change (list_fmap _ _ ?f ?l) with (f <$> l) in *.
  by rewrite IH, length_app, Nat2Z.inj_add.
Qed.

Lemma sortedGroups_keys (g : list (string * list Product.t)) :
  (sortedGroups g).*1 = g.*1.
Proof.
  unfold SplitSpec.sortedGroups. rewrite <- list_fmap_compose.
  by apply list_fmap_ext.
Qed.

Lemma byReleaseDate_sorted (l : list Product.t) :
  Forall (dated Date_getTime) l →
  StronglySorted (releasedBy Date_getTime) (sort cmp l).
Proof.
  intros Hall.
  assert (∀ l', Forall (dated Date_getTime) l' →
            StronglySorted (releasedBy Date_getTime) l' →
            ∀ x, dated Date_getTime x →
            StronglySorted (releasedBy Date_getTime) (insert cmp x l') ∧
            Forall (dated Date_getTime) (insert cmp x l')) as Hins.
  { intros l' Hd Hs x Hx. split.
    - induction Hs as [|y l' Hs IH Hy]; [by repeat constructor|].
      apply Forall_cons in Hd as [Hdy Hd]. cbn [insert].
      destruct Hx as [zx Ex], Hdy as [zy Ey].
      unfold byReleaseDate. rewrite Ex, Ey. cbn [num_sub signOf].
      destruct (Z.ltb_spec 0 (zx - zy)).
      + constructor; [by apply IH|].
        rewrite insert_perm. constructor; [|done].
        unfold releasedBy. rewrite Ex, Ey. cbn. apply Z.leb_le. lia.
      + assert (releasedBy Date_getTime x y) as Hxy.
        { unfold releasedBy. rewrite Ex, Ey. cbn. apply Z.leb_le. lia. }
        constructor; [by constructor|]. constructor; [done|].
        eapply Forall_impl; [exact Hy|]. intros z Hz.
        unfold releasedBy in *. rewrite Ex in *. rewrite Ey in *.
        destruct (Date_getTime (Product.releaseDate z)); cbn in *; try done.
        apply Z.leb_le in Hxy, Hz. apply Z.leb_le. lia.
    - rewrite insert_perm. by constructor. }
  assert (StronglySorted (releasedBy Date_getTime) (sort cmp l) ∧
          Forall (dated Date_getTime) (sort cmp l)) as [? _]; [|done].
  induction Hall as [|x l Hx Hall IH]; [by split; constructor|].
  destruct IH as [Hs Hd]. cbn [sort foldr]. by apply Hins.
Qed.

(** X21. After [split] has returned for a splitter made from a source
    file, the splitter holds each group sorted, and in the products
    directory: the file of a group that could be written holds the
    products of the group, each once, in the order of their release
    dates when all of them parse; a file that could not be written, and a
    file that is neither the index nor the file of a group, is as it was;
    and the index, when it could be written, lists the groups by key with
    file name and size, its [totalSeries] is their number, and its
    [totalProducts] is the size of the source and the sum of the sizes,
    whether or not the files of the groups could be written. *)
Theorem split_writes_the_groups_and_the_index (d0 d d' : disk) (x x' : t) :
  new d0 = Some x →
  split x d = Done x' d' →
  seriesGroups x' = sortedGroups (seriesGroups x) ∧
  (∀ k l, (k, l) ∈ seriesGroups x →
     String.append k ".json" ∉ readOnly d →
     k ≠ "_index" ∨ "_index.json" ∈ readOnly d →
     filesOf d' !! String.append k ".json" = Some (SeriesFile (sort cmp l)) ∧
     sort cmp l ≡ₚ l ∧
     (Forall (dated Date_getTime) l →
      StronglySorted (releasedBy Date_getTime) (sort cmp l))) ∧
  (∀ q, q ∈ readOnly d ∨
        (q ≠ "_index.json" ∧
         ∀ k, k ∈ (seriesGroups x).*1 → String.append k ".json" ≠ q) →
     filesOf d' !! q = filesOf d !! q) ∧
  ("_index.json" ∉ readOnly d →
     ∃ i, filesOf d' !! "_index.json" = Some (IndexFile i) ∧
          key <$> series i = (seriesGroups x).*1 ∧
          Forall (λ e, fileName e = String.append (key e) ".json") (series i) ∧
          totalSeries i = Z.of_nat (List.length (series i)) ∧
          totalProducts i = Z.of_nat (List.length (products x)) ∧
          AnalysisSpec.sumZ (productCount <$> series i) = totalProducts i).
Proof.
  intros Hnew Hsplit.
  apply new_spec in Hnew as [_ Hgroups].
  pose proof (group_fold (products x)) as Hg. rewrite Hgroups in Hg.
  destruct Hg as (_ & Hnd & _ & Hperm).
  pose proof (split_cases x d) as H. cbv zeta in H. rewrite Hsplit in H.
  destruct H as (_ & _ & _ & -> & _ & _ & _ & Hp).
  rewrite (sorted_in_place_all (seriesGroups x) Hnd) in Hp.
  rewrite (sorted_in_place_all (seriesGroups x) Hnd).
  cbn [seriesGroups] in *.
  assert (filesOf d' =
          if decide ("_index.json" ∈ readOnly d)
          then afterWrites (readOnly d) (seriesGroups x) (filesOf d)
          else <["_index.json" :=
                   IndexFile (indexData
                     {| products := products x;
                        seriesGroups := sortedGroups (seriesGroups x) |})]>
                 (afterWrites (readOnly d) (seriesGroups x) (filesOf d)))
    as Hfiles by (unfold filesOf at 1; by rewrite Hp).
  rewrite Hfiles. clear Hfiles Hp.
  split_and!.
  - done.
  - intros k l Hin Hw Hidx. split_and!.
    + destruct (decide ("_index.json" ∈ readOnly d)) as [|Hiw].
      * by apply afterWrites_written.
      * rewrite lookup_insert_ne.
        -- by apply afterWrites_written.
        -- destruct Hidx as [Hk|?]; [|done]. intros Heq. apply Hk.
           symmetry. by apply (string_app_inj_l _ _ ".json").
    + apply sort_perm.
    + apply byReleaseDate_sorted.
  - intros q Hq. destruct (decide ("_index.json" ∈ readOnly d)) as [|Hiw].
    + apply afterWrites_other. destruct Hq as [?|[_ ?]]; [by left|by right].
    + rewrite lookup_insert_ne.
      * apply afterWrites_other.
        destruct Hq as [?|[_ ?]]; [by left|by right].
      * destruct Hq as [Hq|[? _]]; [|done]. by intros <-.
  - intros Hiw. rewrite decide_False by done. eexists. split.
    { apply lookup_insert_eq. }
    unfold indexData. cbn [series totalSeries totalProducts products seriesGroups].
    split_and!.
    + rewrite <- list_fmap_compose, <- (sortedGroups_keys (seriesGroups x)).
      by apply list_fmap_ext.
    + apply Forall_fmap, Forall_true. by intros e.
    + by rewrite length_fmap.
    + done.
    + rewrite <- list_fmap_compose.
      etrans; [apply (sumZ_lengths (sortedGroups (seriesGroups x)))|].
      f_equal. rewrite <- Hperm.
      unfold SplitSpec.sortedGroups. rewrite <- list_fmap_compose.
      clear. induction (seriesGroups x) as [|[k l] g IH]; [done|].
      rewrite !fmap_cons. cbn [mjoin list_join snd compose].
      rewrite !length_app, length_sort. by f_equal.
Qed.

(** ** Loading what was split *)

Lemma mjoin_cons {A} (x : list A) (l : list (list A)) :
  mjoin (x :: l) = x ++ mjoin l.
Proof. done. Qed.

Lemma loadSeries_entries (s : ProductLoader.Store)
    (es : list (string * list Product.t))
    (found : string * list Product.t → option (list Product.t)) :
  (∀ e, e ∈ es →
     ProductLoader.seriesFiles s !! String.append e.1 ".json" = found e) →
  let infos :=
    (λ e : string * list Product.t,
       {| ProductLoader.key := e.1;
          ProductLoader.fileName := String.append e.1 ".json" |}) <$> es in
  mjoin (fst <$> (ProductLoader.loadSeries s <$> infos)) =
    (filter (λ e, found e = None) es).*1 ∧
  mjoin (snd <$> (ProductLoader.loadSeries s <$> infos)) =
    mjoin (omap found es).
Proof.
  cbv zeta. induction es as [|e es IH]; intros Hfound; [done|].
  destruct IH as [IH1 IH2].
  { intros e' He'. apply Hfound. by right. }
  rewrite !fmap_cons, !mjoin_cons, IH1, IH2.
  unfold ProductLoader.loadSeries at 1 2.
  cbn [ProductLoader.fileName ProductLoader.key].
  rewrite (Hfound e) by (by left).
  rewrite filter_cons. cbn [omap list_omap].
  destruct (found e) as [l|] eqn:E.
  - rewrite decide_False by done. done.
  - rewrite decide_True by done. done.
Qed.

Lemma sortedGroups_perm (g : list (string * list Product.t)) :
  mjoin (sortedGroups g).*2 ≡ₚ mjoin g.*2.
Proof.
  induction g as [|[k l] g IH]; [done|].
  unfold SplitSpec.sortedGroups in *. rewrite !fmap_cons.
  cbn [mjoin list_join snd]. by rewrite IH, sort_perm.
Qed.

(** X22. What [split] writes is what [ProductLoader] reads. For a
    splitter made from a source file, with an index that can be written
    and no group whose key is [_index], [performLoad] on the products
    directory after [split] delivers, group by group, the sorted group
    whose file could be written and otherwise what that file held before,
    and warns of the groups whose file could not be written and held no
    products. When every file can be written there is no warning and
    the collection delivered holds the products of the source file, each
    once. *)
Theorem split_then_load (d0 d d' : disk) (x x' : t) :
  new d0 = Some x →
  split x d = Done x' d' →
  "_index.json" ∉ readOnly d →
  "_index" ∉ (seriesGroups x).*1 →
  ProductLoader.performLoad (storeOf d') =
    ((filter (λ e, onDisk (readOnly d) (filesOf d) e = None)
        (seriesGroups x)).*1,
     ProductLoader.Fulfilled
       (mjoin (omap (onDisk (readOnly d) (filesOf d)) (seriesGroups x)))) ∧
  (readOnly d = ∅ →
     ∃ loaded,
       ProductLoader.performLoad (storeOf d') =
         ([], ProductLoader.Fulfilled loaded) ∧
       loaded = mjoin (sortedGroups (seriesGroups x)).*2 ∧
       loaded ≡ₚ products x).
Proof.
  intros Hnew Hsplit Hiw Hkeys.
  apply new_spec in Hnew as [_ Hgroups].
  pose proof (group_fold (products x)) as Hg. rewrite Hgroups in Hg.
  destruct Hg as (_ & Hnd & _ & Hperm).
  pose proof (split_cases x d) as H. cbv zeta in H. rewrite Hsplit in H.
  destruct H as (_ & _ & _ & _ & _ & _ & _ & Hp).
  rewrite (sorted_in_place_all (seriesGroups x) Hnd) in Hp.
  rewrite decide_False in Hp by done.
  assert (filesOf d' =
          <["_index.json" :=
              IndexFile (indexData
                {| products := products x;
                   seriesGroups := sortedGroups (seriesGroups x) |})]>
            (afterWrites (readOnly d) (seriesGroups x) (filesOf d)))
    as Hfiles by (unfold filesOf at 1; by rewrite Hp).
  assert (∀ e, e ∈ seriesGroups x →
            ProductLoader.seriesFiles (storeOf d') !! String.append e.1 ".json"
            = onDisk (readOnly d) (filesOf d) e) as Hfound.
  { intros [k l] Hin. unfold storeOf. cbn [ProductLoader.seriesFiles fst].
    rewrite lookup_omap, Hfiles, lookup_insert_ne.
    - unfold SplitSpec.onDisk. cbn [fst snd].
      destruct (decide (String.append k ".json" ∈ readOnly d)) as [Hro|Hw].
      + rewrite afterWrites_other by (by left).
        by destruct (filesOf d !! String.append k ".json") as [[]|].
      + by rewrite (afterWrites_written _ _ _ k l Hnd Hin Hw).
    - intros Heq. apply Hkeys.
      apply (string_app_inj_l "_index" k ".json") in Heq. subst k.
      apply list_elem_of_fmap. by exists ("_index", l). }
  assert (ProductLoader.indexFile (storeOf d') =
          Some {| ProductLoader.series :=
                    (λ e : string * list Product.t,
                       {| ProductLoader.key := e.1;
                          ProductLoader.fileName := String.append e.1 ".json" |})
                    <$> seriesGroups x;
                  ProductLoader.totalSeries :=
                    Z.of_nat (List.length (sortedGroups (seriesGroups x))) |})
    as Hindex.
  { unfold storeOf. cbn [ProductLoader.indexFile].
    rewrite Hfiles, lookup_insert_eq. f_equal.
    unfold indexData. cbn [series seriesGroups totalSeries]. f_equal.
    unfold SplitSpec.sortedGroups. rewrite <- !list_fmap_compose.
    by apply list_fmap_ext. }
  destruct (loadSeries_entries (storeOf d') (seriesGroups x)
              (onDisk (readOnly d) (filesOf d)) Hfound) as [H1 H2].
  assert (ProductLoader.performLoad (storeOf d') =
    ((filter (λ e, onDisk (readOnly d) (filesOf d) e = None)
        (seriesGroups x)).*1,
     ProductLoader.Fulfilled
       (mjoin (omap (onDisk (readOnly d) (filesOf d)) (seriesGroups x)))))
    as Hload.
  { unfold ProductLoader.performLoad. rewrite Hindex.
    cbn [ProductLoader.series]. by rewrite H1, H2. }
  split; [exact Hload|]. intros Hro. eexists. split; [|split; [reflexivity|]].
  - rewrite Hload. f_equal.
    + assert (∀ e, onDisk (readOnly d) (filesOf d) e ≠ None) as Hsome.
      { intros e. unfold SplitSpec.onDisk. rewrite Hro.
        by rewrite decide_False by set_solver. }
      clear -Hsome. induction (seriesGroups x) as [|e g IH]; [done|].
      rewrite filter_cons, decide_False by apply Hsome. exact IH.
    + f_equal. unfold SplitSpec.sortedGroups.
      rewrite <- list_fmap_compose.
      clear -Hro. induction (seriesGroups x) as [|e g IH]; [done|].
      rewrite fmap_cons. cbn [omap list_omap].
      unfold SplitSpec.onDisk at 1. rewrite Hro.
      rewrite decide_False by set_solver.
      rewrite !mjoin_cons. by f_equal.
  - by rewrite sortedGroups_perm.
Qed.

End SplitFacts.

(** * The size of a page *)

Section PageSizeFacts.
Import ProductService QuerySpec.

Variable toLowerCase : string → string.
Variable Date_getTime : string → number.

(** X23. A page never holds more records than the page size when the
    page size is not negative, whatever the page number. A negative
    page size is not refused: page 1 with page size [-j] holds all the
    sorted records but the last [j], and [totalPages] is then a number
    that is not positive. *)
Theorem page_size_bounds_the_page (productsData : ref)
    (params : ProductListRequest) (h : heap) (data : list Product.t) :
  h !! productsData = Some data →
  let query := pageOf toLowerCase Date_getTime productsData params h in
  let sorted := ordered toLowerCase Date_getTime params data in
  let limit := default 20 (limit params) in
  let len := Z.of_nat (List.length sorted) in
  (0 ≤ limit → ∀ k, Z.of_nat (List.length (products (query k))) ≤ limit) ∧
  (∀ j, 1 ≤ j → limit = - j →
     products (query 1) = take (Z.to_nat (len - j)) sorted ∧
     totalPages (query 1) = Fin (- (len / j)) ∧ - (len / j) ≤ 0).
Proof.
  intros Hd query sorted limit len.
  assert (∀ k, query k =
    {| products := slice ((k - 1) * limit) ((k - 1) * limit + limit) sorted;
       total := len; page' := k; totalPages := ceilDiv len limit |}) as Hq.
  { intros k. unfold query.
    by rewrite (pageOf_result toLowerCase Date_getTime _ _ _ _ _ Hd). }
  split.
  - intros Hl k. rewrite Hq. cbn [products]. unfold slice. fold len.
    generalize ((k - 1) * limit). intros offset.
    rewrite length_take, length_drop.
    destruct (Z.ltb_spec offset 0); destruct (Z.ltb_spec (offset + limit) 0);
      lia.
  - intros j Hj Hl. rewrite Hq. cbn [products totalPages]. rewrite Hl.
    split_and!.
    + replace ((1 - 1) * - j) with 0 by lia. unfold slice. fold len.
      change (0 <? 0) with false. cbv iota.
      destruct (Z.ltb_spec (0 + - j) 0); [|lia].
      replace (Z.to_nat (Z.min 0 len)) with 0%nat by lia. rewrite drop_0.
      destruct (Z.le_gt_cases j len).
      * f_equal. lia.
      * rewrite !take_nonpos by lia. done.
    + unfold ceilDiv. destruct (Z.eqb_spec (- j) 0); [lia|].
      by rewrite Z.div_opp_opp by lia.
    + pose proof (Z.div_pos len j). lia.
Qed.

End PageSizeFacts.

(** * More instances *)

Section MoreInstances.
Import Samples MoreSamples.

Lemma price_range_bounds_keep_everything_witness :
  ProductService.total
    (fst (ProductService.getProducts lowerCase noDate 0 withinRange
            [[p1; p2; p3]])) = 3.
Proof.
  exact (price_range_bounds_keep_everything lowerCase noDate 0 withinRange
           [[p1; p2; p3]] [p1; p2; p3]
           eq_refl eq_refl eq_refl eq_refl eq_refl eq_refl).
Defined.

Lemma pages_out_of_range_witness :
  ProductService.products
    (QuerySpec.pageOf lowerCase noDate 0 noParams [[p1; p2; p3]] 0) = [].
Proof.
  pose proof (pages_out_of_range lowerCase noDate 0 noParams
                [[p1; p2; p3]] [p1; p2; p3] eq_refl) as [H _].
  apply H. vm_compute. discriminate.
Defined.

Lemma resets_bound_the_loads_witness :
  (List.length
     (ProductLoader.promises
        (ProductLoader.run twoSeries
           [ProductLoader.Call; ProductLoader.ResetCache; ProductLoader.Call]
           ProductLoader.initial)) ≤ 2)%nat.
Proof.
  pose proof (resets_bound_the_loads twoSeries _
                [ProductLoader.Call; ProductLoader.ResetCache;
                 ProductLoader.Call] eq_refl) as [H _].
  exact H.
Defined.

Lemma reset_in_flight_is_undone_witness :
  ProductLoader.imports
    (ProductLoader.run twoSeries
       [ProductLoader.Call; ProductLoader.ResetCache; ProductLoader.Settle 0;
        ProductLoader.Resume 0; ProductLoader.Call]
       ProductLoader.initial) = ["_index.json"; "a.json"; "b.json"].
Proof.
  pose proof (reset_in_flight_is_undone twoSeries _ eq_refl)
    as (_ & _ & _ & H).
  exact H.
Defined.

Lemma reset_then_call_loads_again_witness :
  ProductLoader.imports
    (ProductLoader.run twoSeries
       [ProductLoader.ResetCache; ProductLoader.Call; ProductLoader.Settle 1;
        ProductLoader.Resume 1]
       (ProductLoader.run twoSeries
          [ProductLoader.Call; ProductLoader.Settle 0; ProductLoader.Resume 0]
          ProductLoader.initial))
  = ["_index.json"; "a.json"; "b.json"; "_index.json"; "a.json"; "b.json"].
Proof.
  pose proof (reset_then_call_loads_again twoSeries _ 0 eq_refl)
    as (_ & _ & _ & _ & H).
  exact H.
Defined.

Lemma oneShard_wellKeyed :
  Forall AnalysisSpec.wellKeyed
    (AnalysisSpec.scanned MutationSpec.oneFile MutationSpec.oneShard).
Proof.
  unfold AnalysisSpec.wellKeyed. apply (bool_decide_unpack _).
  vm_compute. exact I.
Defined.

Lemma analyzeFields_counts_witness :
  FieldManager.analysed
    (fst (FieldManager.analyzeFields MutationSpec.oneFile MutationSpec.oneShard))
  = 2 ∧
  FieldManager.fieldStats
    (fst (FieldManager.analyzeFields MutationSpec.oneFile MutationSpec.oneShard))
  !! "price" = Some (Count 1).
Proof.
  pose proof (analyzeFields_counts MutationSpec.oneFile MutationSpec.oneShard
                oneShard_wellKeyed) as (Hn & Hc & _).
  split; [exact Hn|]. apply (Hc "price"); vm_compute; reflexivity.
Defined.

Lemma addField_then_analyzeFields_full_coverage_witness :
  FieldManager.analysed
    (fst (FieldManager.analyzeFields MutationSpec.oneFile
            (FieldManager.stateOf
               (FieldManager.addField MutationSpec.oneFile "tag"
                  (FieldManager.VString "new") MutationSpec.oneShard)))) = 2.
Proof.
  pose proof (addField_then_analyzeFields_full_coverage MutationSpec.oneFile
                "tag" (FieldManager.VString "new") MutationSpec.oneShard)
    as H.
  destruct H as [Hn _].
  - vm_compute. reflexivity.
  - intros q _. vm_compute. intros H. discriminate H.
  - exact oneShard_wellKeyed.
  - reflexivity.
  - exact Hn.
Defined.

Lemma addField_then_removeField_restores_witness :
  FieldManager.files
    (FieldManager.stateOf
       (FieldManager.removeField MutationSpec.oneFile "tag"
          (FieldManager.stateOf
             (FieldManager.addField MutationSpec.oneFile "tag"
                (FieldManager.VString "new") MutationSpec.oneShard))))
  = FieldManager.files MutationSpec.oneShard.
Proof.
  apply (addField_then_removeField_restores MutationSpec.oneFile "tag"
           (FieldManager.VString "new") MutationSpec.oneShard).
  intros q records r Hq Hr. cbn in Hq.
  apply lookup_singleton_Some in Hq as [_ [= <-]].
  apply elem_of_cons in Hr as [->|Hr]; [reflexivity|].
  apply list_elem_of_singleton in Hr as ->. reflexivity.
Defined.

Lemma updateField_sets_the_field_witness :
  FieldManager.files
    (FieldManager.stateOf
       (FieldManager.updateField MutationSpec.oneFile "price"
          (λ currentValue _, currentValue) MutationSpec.oneShard))
  = FieldManager.files MutationSpec.oneShard.
Proof.
  pose proof (updateField_sets_the_field MutationSpec.oneFile "price"
                (λ currentValue _, currentValue) MutationSpec.oneShard
                eq_refl) as (_ & _ & H).
  exact H.
Defined.


Lemma split_writes_the_groups_and_the_index_witness :
  ∃ x' d',
    DataSplitter.split noDate splitter unsplit = DataSplitter.Done x' d' ∧
    SplitSpec.filesOf d' !! "series-a.json" =
      Some (DataSplitter.SeriesFile [p1]) ∧
    SplitSpec.filesOf d' !! "b.json" =
      Some (DataSplitter.SeriesFile [p3; p2]).
Proof.
  assert (DataSplitter.new oneSeries lowerCase unsplit = Some splitter)
    as Hnew by (vm_compute; reflexivity).
  destruct (DataSplitter.split noDate splitter unsplit)
    as [x' d'|d'] eqn:E; [|vm_compute in E; discriminate E].
  exists x', d'. split; [reflexivity|].
  destruct (split_writes_the_groups_and_the_index oneSeries lowerCase noDate
              unsplit unsplit d' splitter x' Hnew E) as (_ & Hfiles & _).
  split.
  - apply (Hfiles "series-a" [p1]).
    + right. left.
    + vm_compute. intros H. discriminate H.
    + left. intros H. discriminate H.
  - apply (Hfiles "b" [p3; p2]).
    + left.
    + vm_compute. intros H. discriminate H.
    + left. intros H. discriminate H.
Defined.

Lemma split_then_load_witness :
  ∃ x' d' loaded,
    DataSplitter.split noDate splitter unsplit = DataSplitter.Done x' d' ∧
    ProductLoader.performLoad (SplitSpec.storeOf d') =
      ([], ProductLoader.Fulfilled loaded) ∧
    loaded ≡ₚ [p3; p1; p2].
Proof.
  assert (DataSplitter.new oneSeries lowerCase unsplit = Some splitter)
    as Hnew by (vm_compute; reflexivity).
  destruct (DataSplitter.split noDate splitter unsplit)
    as [x' d'|d'] eqn:E; [|vm_compute in E; discriminate E].
  destruct (split_then_load oneSeries lowerCase noDate
              unsplit unsplit d' splitter x' Hnew E) as [_ H].
  - vm_compute. intros H. discriminate H.
  - apply (bool_decide_unpack _). vm_compute. exact I.
  - destruct (H eq_refl) as (loaded & Hload & _ & Hperm).
    exists x', d', loaded. split; [reflexivity|]. split; [exact Hload|].
    exact Hperm.
Defined.

(** A rarity that is a name objects inherit has no rank: the comparator
    finds a built-in function, which compares equal to every rank. *)
Example inherited_rarity_compares_equal :
  let c := sample "c1" "Delta" "a" "constructor" 10 in
  ProductService.compareFn lowerCase noDate "rarity" "asc" c p3 = 0 ∧
  ProductService.compareFn lowerCase noDate "rarity" "asc" p3 c = 0 ∧
  ProductService.compareFn lowerCase noDate "rarity" "asc" p2 p3 = -1.
Proof. by vm_compute. Qed.

(** A series whose key is an array index is listed before the groups
    made earlier. *)
Example index_keys_come_first :
  DataSplitter.groupProductsBySeries [] lowerCase
    [sample "x1" "One" "b" "rare" 1; sample "x2" "Two" "2024" "rare" 2;
     sample "x3" "Three" "7" "rare" 3]
  = Some [("7", [sample "x3" "Three" "7" "rare" 3]);
          ("2024", [sample "x2" "Two" "2024" "rare" 2]);
          ("b", [sample "x1" "One" "b" "rare" 1])].
Proof. by vm_compute. Qed.

Lemma page_size_bounds_the_page_witness :
  ProductService.products
    (QuerySpec.pageOf lowerCase noDate 0 allButLast [[p1; p2; p3]] 1)
  = [p2; p3].
Proof.
  pose proof (page_size_bounds_the_page lowerCase noDate 0 allButLast
                [[p1; p2; p3]] [p1; p2; p3] eq_refl) as [_ H].
  destruct (H 1 ltac:(lia) eq_refl) as [Hp _]. exact Hp.
Defined.

End MoreInstances.
